(** * Real-time communication core of the chat frontend

    A shallow embedding of the two classes that make up the real-time
    core of the frontend:

    - [WebSocketManager]  (frontend/src/lib/websocket.ts): the chat
      socket with its reconnect back-off and its event-handler registry;
    - [WebRTCService]     (lib/webrtc.ts): call state, peer connections and
      the per-call signaling socket.

    JavaScript objects that the classes share with the browser (sockets,
    media streams, peer connections, the arrays of handlers) live in an
    explicit store and are referred to by index, so that in-place mutation
    and aliasing are those of the source.  The [async] methods that the
    application calls ([initiateCall], [joinCall], [endCall], ...) are
    modelled as one transition each, whose environment outcomes (does the
    REST call succeed, does the socket open, ...) are arguments.  The
    [async] handlers of inbound signaling messages are not awaited by
    [onmessage]; they are split at their [await]s, so that messages which
    arrive while a handler is suspended are handled in between. *)

From Stdlib Require Import QArith.
From stdpp Require Import gmap strings list.

Open Scope Z_scope.

(** ** Shared list helpers *)

(** [Array.prototype.indexOf] followed by [splice(index, 1)] when the index
    is not -1: the first occurrence is removed, nothing else moves. *)
Fixpoint splice_first (h : nat) (l : list nat) : list nat :=
  match l with
  | [] => []
  | x :: l' => if decide (x = h) then l' else x :: splice_first h l'
  end.

(** Number of occurrences of a callback identity in an array. *)
Fixpoint occurrences (h : nat) (l : list nat) : nat :=
  match l with
  | [] => O
  | x :: l' => ((if decide (x = h) then 1 else 0) + occurrences h l')%nat
  end.

(** JavaScript truthiness of an optional string: [undefined], [null] and
    the empty string are falsy. *)
Definition truthy (s : option string) : bool :=
  match s with
  | Some s' => negb (String.eqb s' "")
  | None => false
  end.

Inductive ReadyState := CONNECTING | OPEN | CLOSING | CLOSED.

#[global] Instance ReadyState_eq_dec : EqDecision ReadyState.
Proof. solve_decision. Defined.

(** How a piece of JavaScript code ends: normally, or by throwing (for an
    [async] function: with a resolved or with a rejected promise). *)
Inductive Completion := Normal | Throw.

(** ** frontend/src/lib/websocket.ts *)

Module WebSocketManager.

(** The [data] of a message is of type [unknown].  What the manager does
    with it is to pass the message to [JSON.stringify], which throws on a
    value that has no JSON text (a cyclic structure, a [BigInt]). *)
Inductive Data :=
| Json (text : string)
| Cyclic.

Coercion Json : string >-> Data.

Record WebSocketMessage := { type : string; data : Data }.

(** [JSON.stringify(message)] returns. *)
Definition serializable (message : WebSocketMessage) : bool :=
  match data message with Json _ => true | Cyclic => false end.

(** A browser [WebSocket] object: what the manager can observe of it
    ([readyState]) and what it handed to it for transmission ([sent]). *)
Record WebSocket := {
  url : string;
  readyState : ReadyState;
  sent : list WebSocketMessage }.

(** The private fields of the class.  [ws] is a reference into the socket
    store; handlers and connection listeners are callback identities
    ([indexOf] compares them by reference).  [maxReconnectAttempts] is
    initialised to 5 and never assigned, hence a constant. *)
Record Manager := {
  ws : option nat;
  eventHandlers : gmap string (list nat);
  reconnectAttempts : Z;
  reconnectDelay : Z;
  isConnecting : bool;
  deviceId : option string;
  connectionListeners : list nat }.

Definition maxReconnectAttempts : Z := 5.

(** Timers created with [setTimeout]: the reconnect timer of
    [scheduleReconnect] and the 10 s connection timeout of [connect]. *)
Inductive Timer :=
| ReconnectTimer (delay : Z)
| ConnectTimeout (delay : Z).

(** The manager together with the part of the browser it acts on.
    [scheduled] records, in order, the delay of every reconnect timer ever
    created; [invoked] every call of an event handler; [notified] every call
    of a connection listener. *)
Record World := {
  this : Manager;
  sockets : list WebSocket;
  timers : list Timer;
  scheduled : list Z;
  invoked : list (nat * WebSocketMessage);
  notified : list (nat * bool) }.

(** What an event handler does to the manager while it runs: the calls it
    makes, in order, of the methods with which handlers are registered and
    removed and messages are sent, and whether it then throws.  Handlers
    that call [connect()], [disconnect()] or the connection-listener methods
    from inside a dispatch are not described by this type. *)
Inductive Call :=
| CallAddEventListener (eventType : string) (handler : nat)
| CallRemoveEventListener (eventType : string) (handler : nat)
| CallSend (message : WebSocketMessage).

Record HandlerRun := { calls : list Call; throws : bool }.

Inductive ConnectResult := ResolvedTrue | ResolvedFalse | Pending.

Inductive Event :=
| EConnect (device : string) (token : option string)
| EDisconnect
| ESend (message : WebSocketMessage)
| EAddEventListener (eventType : string) (handler : nat)
| ERemoveEventListener (eventType : string) (handler : nat)
| EAddConnectionListener (listener : nat)
| ERemoveConnectionListener (listener : nat)
| EOpen (sock : nat)
| EMessage (sock : nat) (frame : option WebSocketMessage)
| EError (sock : nat)
| EClose (sock : nat) (code : Z)
| ETimer (index : nat) (token : option string).

(** *** Field updates *)

Definition set_this (f : Manager -> Manager) (w : World) : World :=
  {| this := f (this w); sockets := sockets w; timers := timers w;
     scheduled := scheduled w; invoked := invoked w; notified := notified w |}.

Definition set_ws (v : option nat) (m : Manager) : Manager :=
  {| ws := v; eventHandlers := eventHandlers m;
     reconnectAttempts := reconnectAttempts m;
     reconnectDelay := reconnectDelay m; isConnecting := isConnecting m;
     deviceId := deviceId m; connectionListeners := connectionListeners m |}.

Definition set_eventHandlers (v : gmap string (list nat)) (m : Manager) : Manager :=
  {| ws := ws m; eventHandlers := v;
     reconnectAttempts := reconnectAttempts m;
     reconnectDelay := reconnectDelay m; isConnecting := isConnecting m;
     deviceId := deviceId m; connectionListeners := connectionListeners m |}.

Definition set_reconnectAttempts (v : Z) (m : Manager) : Manager :=
  {| ws := ws m; eventHandlers := eventHandlers m;
     reconnectAttempts := v;
     reconnectDelay := reconnectDelay m; isConnecting := isConnecting m;
     deviceId := deviceId m; connectionListeners := connectionListeners m |}.

Definition set_reconnectDelay (v : Z) (m : Manager) : Manager :=
  {| ws := ws m; eventHandlers := eventHandlers m;
     reconnectAttempts := reconnectAttempts m;
     reconnectDelay := v; isConnecting := isConnecting m;
     deviceId := deviceId m; connectionListeners := connectionListeners m |}.

Definition set_isConnecting (v : bool) (m : Manager) : Manager :=
  {| ws := ws m; eventHandlers := eventHandlers m;
     reconnectAttempts := reconnectAttempts m;
     reconnectDelay := reconnectDelay m; isConnecting := v;
     deviceId := deviceId m; connectionListeners := connectionListeners m |}.

Definition set_deviceId (v : option string) (m : Manager) : Manager :=
  {| ws := ws m; eventHandlers := eventHandlers m;
     reconnectAttempts := reconnectAttempts m;
     reconnectDelay := reconnectDelay m; isConnecting := isConnecting m;
     deviceId := v; connectionListeners := connectionListeners m |}.

Definition set_connectionListeners (v : list nat) (m : Manager) : Manager :=
  {| ws := ws m; eventHandlers := eventHandlers m;
     reconnectAttempts := reconnectAttempts m;
     reconnectDelay := reconnectDelay m; isConnecting := isConnecting m;
     deviceId := deviceId m; connectionListeners := v |}.

Definition set_sockets (v : list WebSocket) (w : World) : World :=
  {| this := this w; sockets := v; timers := timers w;
     scheduled := scheduled w; invoked := invoked w; notified := notified w |}.

Definition set_timers (v : list Timer) (w : World) : World :=
  {| this := this w; sockets := sockets w; timers := v;
     scheduled := scheduled w; invoked := invoked w; notified := notified w |}.

Definition set_scheduled (v : list Z) (w : World) : World :=
  {| this := this w; sockets := sockets w; timers := timers w;
     scheduled := v; invoked := invoked w; notified := notified w |}.

Definition set_invoked (v : list (nat * WebSocketMessage)) (w : World) : World :=
  {| this := this w; sockets := sockets w; timers := timers w;
     scheduled := scheduled w; invoked := v; notified := notified w |}.

Definition set_notified (v : list (nat * bool)) (w : World) : World :=
  {| this := this w; sockets := sockets w; timers := timers w;
     scheduled := scheduled w; invoked := invoked w; notified := v |}.

Definition set_readyState (r : ReadyState) (s : WebSocket) : WebSocket :=
  {| url := url s; readyState := r; sent := sent s |}.

Definition push_sent (m : WebSocketMessage) (s : WebSocket) : WebSocket :=
  {| url := url s; readyState := readyState s; sent := sent s ++ [m] |}.

(** The state of a freshly constructed manager, in a browser that holds no
    socket and no timer yet. *)
Definition initial : World :=
  {| this := {| ws := None; eventHandlers := ∅; reconnectAttempts := 0;
                reconnectDelay := 1000; isConnecting := false;
                deviceId := None; connectionListeners := [] |};
     sockets := []; timers := []; scheduled := [];
     invoked := []; notified := [] |}.

(** *** Methods that do not run event handlers *)

Definition socketState (w : World) (id : nat) : option ReadyState :=
  readyState <$> sockets w !! id.

(** [this.ws?.readyState === WebSocket.OPEN] *)
Definition isConnected (w : World) : bool :=
  match ws (this w) with
  | Some id => bool_decide (socketState w id = Some OPEN)
  | None => false
  end.

(** [connectionListeners.forEach(listener => listener(connected))], each
    call inside its own [try]/[catch], for listeners that do not call back
    into the manager: the listener of the application (types/chat.ts) only
    sets component state.  The calls are recorded in [notified]. *)
Definition notifyConnectionListeners (connected : bool) (w : World) : World :=
  set_notified
    (notified w ++ map (fun l => (l, connected)) (connectionListeners (this w))) w.

Definition wsUrl (device token : string) : string :=
  "ws://localhost:8000" +:+ "/api/v1/chat/ws/" +:+ device +:+ "?token=" +:+ token.

(** [connect(deviceId)]; [token] is what [tokenManager.getValidToken()]
    returns at the time of the call. *)
Definition connect (device : string) (token : option string) (w : World)
  : World * ConnectResult :=
  if isConnecting (this w) || isConnected w then (w, ResolvedTrue)
  else
    let w1 := set_this (fun m => set_deviceId (Some device) (set_isConnecting true m)) w in
    if truthy token then
      let sock := {| url := wsUrl device (default "" token);
                     readyState := CONNECTING; sent := [] |} in
      let id := length (sockets w1) in
      let w2 := set_sockets (sockets w1 ++ [sock]) w1 in
      let w3 := set_this (set_ws (Some id)) w2 in
      (set_timers (timers w3 ++ [ConnectTimeout 10000]) w3, Pending)
    else
      (set_this (set_isConnecting false) w1, ResolvedFalse).

(** [ws.close(code, reason)] of the browser: a socket that is not yet
    closing or closed starts its closing handshake. *)
Definition closeSocket (id : nat) (w : World) : World :=
  match sockets w !! id with
  | Some s =>
      match readyState s with
      | CONNECTING | OPEN => set_sockets (<[id := set_readyState CLOSING s]> (sockets w)) w
      | CLOSING | CLOSED => w
      end
  | None => w
  end.

Definition disconnect (w : World) : World :=
  let w1 :=
    match ws (this w) with
    | Some id => set_this (set_ws None) (closeSocket id w)
    | None => w
    end in
  let w2 := set_this (set_reconnectAttempts maxReconnectAttempts) w1 in
  notifyConnectionListeners false w2.

(** [send(message)]: [this.ws!.send(JSON.stringify(message))] inside
    [try]/[catch]; when [JSON.stringify] throws nothing reaches the socket
    and the [catch] block returns [false].  ([ws.send] itself does not throw
    on an open socket.) *)
Definition send (message : WebSocketMessage) (w : World) : World * bool :=
  if negb (isConnected w) then (w, false)
  else
    match ws (this w) with
    | Some id =>
        match sockets w !! id with
        | Some s =>
            if serializable message
            then (set_sockets (<[id := push_sent message s]> (sockets w)) w, true)
            else (w, false)
        | None => (w, false)
        end
    | None => (w, false)
    end.

Definition handlersOf (w : World) (eventType : string) : list nat :=
  default [] (eventHandlers (this w) !! eventType).

Definition addEventListener (eventType : string) (handler : nat) (w : World) : World :=
  set_this (fun m =>
    set_eventHandlers
      (<[eventType := default [] (eventHandlers m !! eventType) ++ [handler]]>
         (eventHandlers m)) m) w.

Definition removeEventListener (eventType : string) (handler : nat) (w : World) : World :=
  match eventHandlers (this w) !! eventType with
  | Some handlers =>
      set_this (set_eventHandlers
        (<[eventType := splice_first handler handlers]> (eventHandlers (this w)))) w
  | None => w
  end.

Definition addConnectionListener (listener : nat) (w : World) : World :=
  set_this (fun m => set_connectionListeners (connectionListeners m ++ [listener]) m) w.

Definition removeConnectionListener (listener : nat) (w : World) : World :=
  set_this (fun m =>
    set_connectionListeners (splice_first listener (connectionListeners m)) m) w.

(** The delay computed by [scheduleReconnect] once the counter has been
    incremented to [attempt]. *)
Definition backoff (delay attempt : Z) : Z :=
  Z.min (delay * 2 ^ (attempt - 1)) 30000.

Definition scheduleReconnect (w : World) : World :=
  if bool_decide (maxReconnectAttempts <= reconnectAttempts (this w)) then w
  else
    let w1 := set_this (fun m => set_reconnectAttempts (reconnectAttempts m + 1) m) w in
    let delay := backoff (reconnectDelay (this w1)) (reconnectAttempts (this w1)) in
    set_scheduled (scheduled w1 ++ [delay])
      (set_timers (timers w1 ++ [ReconnectTimer delay]) w1).

(** [ws.onopen] *)
Definition onopen (w : World) : World :=
  let w1 := set_this (fun m =>
    set_reconnectDelay 1000 (set_reconnectAttempts 0 (set_isConnecting false m))) w in
  notifyConnectionListeners true w1.

(** [ws.onclose] *)
Definition onclose (code : Z) (w : World) : World :=
  let w1 := set_this (set_isConnecting false) w in
  let w2 := notifyConnectionListeners false w1 in
  if bool_decide (code ≠ 4001)
     && bool_decide (reconnectAttempts (this w2) < maxReconnectAttempts)
  then scheduleReconnect w2
  else w2.

(** [ws.onerror] *)
Definition onerror (w : World) : World :=
  set_this (set_isConnecting false) w.

(** The callback of the reconnect timer. *)
Definition reconnectTimerFired (token : option string) (w : World) : World :=
  if truthy (deviceId (this w)) && negb (isConnected w)
  then fst (connect (default "" (deviceId (this w))) token w)
  else w.

(** The callback of the connection timeout. *)
Definition connectTimeoutFired (w : World) : World :=
  if isConnecting (this w) then set_this (set_isConnecting false) w else w.

(** *** Dispatch to event handlers *)

(** [try { body } catch (error) { handler }], for a [catch] block that does
    not throw itself: what [body] did before it threw stays done. *)
Definition tryCatch (body : World -> World * Completion)
    (handler : World -> World) (w : World) : World * Completion :=
  match body w with
  | (w', Normal) => (w', Normal)
  | (w', Throw) => (handler w', Normal)
  end.

(** [array.forEach(callback)] on an array that lives in the world and is
    read through [array]: it is the array itself, not a copy.  [forEach]
    fixes the number of indices to visit when it starts ([n] of them
    remain, [k] is the next one), reads index [k] from the array as it is at
    that moment, skips an index that no longer exists, and stops at once
    when the callback throws. *)
Fixpoint forEach (array : World -> list nat)
    (callback : nat -> World -> World * Completion)
    (n k : nat) (w : World) : World * Completion :=
  match n with
  | O => (w, Normal)
  | S n' =>
      match array w !! k with
      | Some x =>
          match callback x w with
          | (w', Normal) => forEach array callback n' (S k) w'
          | (w', Throw) => (w', Throw)
          end
      | None => forEach array callback n' (S k) w
      end
  end.

Section Dispatch.

(** The application's callbacks: what the handler with a given identity
    does when it is called with a message. *)
Variable handlerBody : nat -> WebSocketMessage -> HandlerRun.

Definition runCall (c : Call) (w : World) : World :=
  match c with
  | CallAddEventListener eventType handler => addEventListener eventType handler w
  | CallRemoveEventListener eventType handler => removeEventListener eventType handler w
  | CallSend message => fst (send message w)
  end.

Definition runCalls (cs : list Call) (w : World) : World :=
  foldl (fun w' c => runCall c w') w cs.

(** A call of the handler [h]: it is recorded, the handler performs its
    calls, and then returns or throws. *)
Definition callHandler (h : nat) (message : WebSocketMessage) (w : World)
  : World * Completion :=
  let r := handlerBody h message in
  (runCalls (calls r) (set_invoked (invoked w ++ [(h, message)]) w),
   if throws r then Throw else Normal).

(** [handleMessage(event)]; [frame] is [None] when [JSON.parse] throws.
    The outer [try] encloses the parse and the [forEach]; the inner one
    encloses the single call [handler(message)].  Both [catch] blocks only
    write to the console. *)
Definition handleMessage (frame : option WebSocketMessage) (w : World) : World :=
  fst (tryCatch
    (fun w0 =>
       match frame with
       | None => (w0, Throw)
       | Some message =>
           match eventHandlers (this w0) !! type message with
           | Some handlers =>
               forEach (fun w' => handlersOf w' (type message))
                 (fun handler => tryCatch (callHandler handler message) id)
                 (length handlers) 0 w0
           | None => (w0, Normal)
           end
       end)
    id w).

(** *** The event loop *)

Definition fireTimer (i : nat) (token : option string) (w : World) : World :=
  match timers w !! i with
  | Some t =>
      let w1 := set_timers (delete i (timers w)) w in
      match t with
      | ReconnectTimer _ => reconnectTimerFired token w1
      | ConnectTimeout _ => connectTimeoutFired w1
      end
  | None => w
  end.

Definition setSocketState (id : nat) (r : ReadyState) (w : World) : World :=
  set_sockets (alter (set_readyState r) id (sockets w)) w.

(** One turn of the event loop.  Socket events are those the browser can
    deliver: [open] to a connecting socket, [message] to an open one,
    [close] once to a socket that is not closed yet, [error] to a socket
    that is not closed yet; any other is ignored. *)
Definition step (w : World) (e : Event) : World :=
  match e with
  | EConnect device token => fst (connect device token w)
  | EDisconnect => disconnect w
  | ESend message => fst (send message w)
  | EAddEventListener eventType handler => addEventListener eventType handler w
  | ERemoveEventListener eventType handler => removeEventListener eventType handler w
  | EAddConnectionListener listener => addConnectionListener listener w
  | ERemoveConnectionListener listener => removeConnectionListener listener w
  | EOpen id =>
      if bool_decide (socketState w id = Some CONNECTING)
      then onopen (setSocketState id OPEN w) else w
  | EMessage id frame =>
      if bool_decide (socketState w id = Some OPEN)
      then handleMessage frame w else w
  | EError id =>
      match socketState w id with
      | Some CONNECTING | Some OPEN | Some CLOSING => onerror w
      | _ => w
      end
  | EClose id code =>
      match socketState w id with
      | Some CONNECTING | Some OPEN | Some CLOSING =>
          onclose code (setSocketState id CLOSED w)
      | _ => w
      end
  | ETimer i token => fireTimer i token w
  end.

Definition run (w : World) (es : list Event) : World :=
  foldl step w es.

(** The invocations made while going from [w] to [w']. *)
Definition invokedSince (w w' : World) : list (nat * WebSocketMessage) :=
  drop (length (invoked w)) (invoked w').


End Dispatch.

Definition isOpenEvent (e : Event) : bool :=
  match e with EOpen _ => true | _ => false end.

(** A handler that unsubscribes a handler of [eventType] while it runs. *)
Definition removesFrom (eventType : string) (c : Call) : bool :=
  match c with
  | CallRemoveEventListener t _ => bool_decide (t = eventType)
  | _ => false
  end.

(** The delays of the first to the fifth reconnect attempt:
    [min(baseDelay * 2^(n-1), capDelay)] with a base of 1000 ms and a cap of
    30000 ms. *)
Definition reconnectDelays : list Z :=
  (fun n => Z.min (1000 * 2 ^ (n - 1)) 30000) <$> [1; 2; 3; 4; 5].


(** No handler in [hs] unsubscribes a handler of the message's type while
    it handles [message]. *)
Definition noRemoval (handlerBody : nat -> WebSocketMessage -> HandlerRun)
    (message : WebSocketMessage) (hs : list nat) : bool :=
  forallb (fun h =>
    forallb (fun c => negb (removesFrom (type message) c))
      (calls (handlerBody h message))) hs.

(** Handlers for the dispatch examples: handler 0 unsubscribes itself from
    "typing" and returns, every other handler does nothing. *)
Definition oneShot (h : nat) (m : WebSocketMessage) : HandlerRun :=
  match h with
  | O => {| calls := [CallRemoveEventListener "typing" 0]; throws := false |}
  | _ => {| calls := []; throws := false |}
  end.

(** Handler 0 throws, handler 1 subscribes handler 2, nobody unsubscribes. *)
Definition faulty (h : nat) (m : WebSocketMessage) : HandlerRun :=
  match h with
  | O => {| calls := []; throws := true |}
  | 1%nat => {| calls := [CallAddEventListener "typing" 2]; throws := false |}
  | _ => {| calls := []; throws := true |}
  end.

Definition typingMessage : WebSocketMessage :=
  {| type := "typing"; data := "{}" |}.

Definition twoHandlers : World :=
  addEventListener "typing" 1 (addEventListener "typing" 0 initial).

Definition registeredTwice : World :=
  addEventListener "typing" 7 (addEventListener "typing" 7 initial).

Definition isConnectEvent (e : Event) : bool :=
  match e with EConnect _ _ => true | _ => false end.

(** Callbacks that do nothing, and the run of Scenario A: after the first
    connection has opened, every connection is lost with code 1006 and
    every reconnect timer fires and opens a new socket that is lost again. *)
Definition quiet (h : nat) (m : WebSocketMessage) : HandlerRun :=
  {| calls := []; throws := false |}.

Definition connected0 : World :=
  fst (connect "device" (Some "token") initial).

(** The first connection is open. *)
Definition opened0 : World :=
  step quiet connected0 (EOpen 0).

Definition scenarioA : list Event :=
  [EClose 0 1006; ETimer 1 (Some "token");
   EClose 1 1006; ETimer 2 (Some "token");
   EClose 2 1006; ETimer 3 (Some "token");
   EClose 3 1006; ETimer 4 (Some "token");
   EClose 4 1006; ETimer 5 (Some "token");
   EClose 5 1006].

(** The part of the world that the reconnect logic reads and writes. *)
Definition control (w : World) : Z * Z * list Z * list Timer * list ReadyState :=
  (reconnectAttempts (this w), reconnectDelay (this w), scheduled w,
   timers w, readyState <$> sockets w).

End WebSocketManager.

(** ** lib/webrtc.ts *)

Module WebRTCService.

Inductive CallType := audio | video.

#[global] Instance CallType_eq_dec : EqDecision CallType.
Proof. solve_decision. Defined.

Inductive TrackKind := AudioKind | VideoKind.

#[global] Instance TrackKind_eq_dec : EqDecision TrackKind.
Proof. solve_decision. Defined.

(** A [MediaStreamTrack]: [ended] is set by [stop()]. *)
Record MediaStreamTrack := { kind : TrackKind; enabled : bool; ended : bool }.

(** A [MediaStream] is the array returned by [getTracks()]. *)
Definition MediaStream := list MediaStreamTrack.

Inductive SdpType := offer | answer.

Record RTCSessionDescription := { sdpType : SdpType; sdpText : string }.

(** The dictionary from which [new RTCIceCandidate(...)] is built. *)
Record RTCIceCandidateInit := {
  line : string;
  sdpMid : option string;
  sdpMLineIndex : option nat }.

(** [new RTCIceCandidate(c)] throws a [TypeError] when both [sdpMid] and
    [sdpMLineIndex] are missing. *)
Definition constructible (c : RTCIceCandidateInit) : bool :=
  match sdpMid c, sdpMLineIndex c with
  | None, None => false
  | _, _ => true
  end.

#[global] Instance RTCIceCandidateInit_eq_dec : EqDecision RTCIceCandidateInit.
Proof. solve_decision. Defined.

(** The methods of a peer connection that return a promise and that the
    service calls.  The browser puts such a call on the operations chain of
    the connection: the calls are carried out one after the other, in the
    order in which they were made, and each promise settles when its
    operation has been carried out. *)
Inductive Operation :=
| OpSetRemoteDescription (d : RTCSessionDescription)
| OpCreateAnswer
| OpSetLocalDescription (d : RTCSessionDescription)
| OpAddIceCandidate (c : RTCIceCandidateInit).

(** An [RTCPeerConnection]: the descriptions applied to it, the remote ICE
    candidates applied to it, in order, the local tracks added with
    [addTrack] (stream, index of the track), whether [close()] was called,
    the [userId] captured by the callbacks installed on it, and its
    operations chain: [operations] is every chained call ever made on the
    connection, oldest first, of which the first [settled] have settled. *)
Record RTCPeerConnection := {
  owner : string;
  remoteDescription : option RTCSessionDescription;
  localDescription : option RTCSessionDescription;
  remoteCandidates : list RTCIceCandidateInit;
  senders : list (nat * nat);
  closed : bool;
  operations : list Operation;
  settled : nat }.

Record SignalingMessage := {
  type : string;
  user_id : option string;
  sdp : option string;
  candidate : option RTCIceCandidateInit;
  muted : option bool;
  video_enabled : option bool }.

Record WebSocket := {
  url : string;
  readyState : ReadyState;
  sent : list SignalingMessage }.

Module CallParticipant.
Record t := {
  userId : string;
  stream : option nat;
  peerConnection : option nat;
  isMuted : option bool;
  isVideoEnabled : option bool }.
End CallParticipant.

Module CallState.
Record t := {
  callId : option string;
  isActive : bool;
  isIncoming : bool;
  participants : list CallParticipant.t;
  localStream : option nat;
  callType : CallType;
  isMuted : bool;
  isVideoEnabled : bool }.
End CallState.

(** The private fields of the class.  [ws] and [signalingSocket] refer to
    sockets, [localStream] to a media stream, the values of
    [peerConnections] to peer connections in the stores of the world. *)
Record Service := {
  ws : option nat;
  signalingSocket : option nat;
  localStream : option nat;
  peerConnections : gmap string nat;
  callState : CallState.t }.

Record World := {
  this : Service;
  sockets : list WebSocket;
  streams : list MediaStream;
  connections : list RTCPeerConnection }.

(** What the browser and the token store answer when the oldest pending
    operation of a peer connection settles: whether the browser accepts the
    description or the candidate (the promise is fulfilled) or not (it is
    rejected), the SDP produced when the operation is [createAnswer], and
    the [sub] claim of the token stored at that moment. *)
Record Browser := {
  accepts : bool;
  answerSdp : string;
  sub : option string }.

(** The promise returned by an [async] handler, as it stands at the end of
    the turn of the event loop in which the handler was called: [Pending]
    while the handler is suspended at the [await] of a browser operation. *)
Inductive Promise := Fulfilled | Rejected | Pending.

Inductive Event :=
| EInitiateCall (participants : list string) (callType : CallType)
    (granted : bool) (response : option string) (opened : bool)
| EJoinCall (callId : string) (joined granted opened : bool)
| EEndCall (ended : bool)
| EAcceptIncomingCall (callId : string) (callType : CallType)
    (joined granted opened : bool)
| EDeclineIncomingCall (callId : string) (ended : bool)
| EToggleMute (sub : option string)
| EToggleVideo (sub : option string)
| EHandleIncomingCall (callId callerId : string) (callType : CallType)
| ESignalingMessage (sock : nat) (frame : option SignalingMessage)
| ESignalingClose (sock : nat)
| ETrack (pc : nat) (remoteStream : nat)
| EIceCandidate (pc : nat) (candidate : option RTCIceCandidateInit)
    (sub : option string)
| ESettled (pc : nat) (b : Browser).

(** *** Field updates *)

Definition set_this (f : Service -> Service) (w : World) : World :=
  {| this := f (this w); sockets := sockets w; streams := streams w;
     connections := connections w |}.

Definition set_sockets (v : list WebSocket) (w : World) : World :=
  {| this := this w; sockets := v; streams := streams w;
     connections := connections w |}.

Definition set_streams (v : list MediaStream) (w : World) : World :=
  {| this := this w; sockets := sockets w; streams := v;
     connections := connections w |}.

Definition set_connections (v : list RTCPeerConnection) (w : World) : World :=
  {| this := this w; sockets := sockets w; streams := streams w;
     connections := v |}.

Definition set_ws (v : option nat) (s : Service) : Service :=
  {| ws := v; signalingSocket := signalingSocket s; localStream := localStream s;
     peerConnections := peerConnections s; callState := callState s |}.

Definition set_signalingSocket (v : option nat) (s : Service) : Service :=
  {| ws := ws s; signalingSocket := v; localStream := localStream s;
     peerConnections := peerConnections s; callState := callState s |}.

Definition set_localStream (v : option nat) (s : Service) : Service :=
  {| ws := ws s; signalingSocket := signalingSocket s; localStream := v;
     peerConnections := peerConnections s; callState := callState s |}.

Definition set_peerConnections (v : gmap string nat) (s : Service) : Service :=
  {| ws := ws s; signalingSocket := signalingSocket s; localStream := localStream s;
     peerConnections := v; callState := callState s |}.

Definition set_callState (v : CallState.t) (s : Service) : Service :=
  {| ws := ws s; signalingSocket := signalingSocket s; localStream := localStream s;
     peerConnections := peerConnections s; callState := v |}.

Definition set_readyState (r : ReadyState) (s : WebSocket) : WebSocket :=
  {| url := url s; readyState := r; sent := sent s |}.

Definition push_sent (m : SignalingMessage) (s : WebSocket) : WebSocket :=
  {| url := url s; readyState := readyState s; sent := sent s ++ [m] |}.

Definition set_enabled (v : bool) (t : MediaStreamTrack) : MediaStreamTrack :=
  {| kind := kind t; enabled := v; ended := ended t |}.

(** [track.stop()] *)
Definition stop (t : MediaStreamTrack) : MediaStreamTrack :=
  {| kind := kind t; enabled := enabled t; ended := true |}.

(** [pc.close()] *)
Definition close (pc : RTCPeerConnection) : RTCPeerConnection :=
  {| owner := owner pc; remoteDescription := remoteDescription pc;
     localDescription := localDescription pc;
     remoteCandidates := remoteCandidates pc; senders := senders pc;
     closed := true; operations := operations pc; settled := settled pc |}.

Definition set_remoteDescription (d : RTCSessionDescription)
    (pc : RTCPeerConnection) : RTCPeerConnection :=
  {| owner := owner pc; remoteDescription := Some d;
     localDescription := localDescription pc;
     remoteCandidates := remoteCandidates pc; senders := senders pc;
     closed := closed pc; operations := operations pc; settled := settled pc |}.

Definition set_localDescription (d : RTCSessionDescription)
    (pc : RTCPeerConnection) : RTCPeerConnection :=
  {| owner := owner pc; remoteDescription := remoteDescription pc;
     localDescription := Some d;
     remoteCandidates := remoteCandidates pc; senders := senders pc;
     closed := closed pc; operations := operations pc; settled := settled pc |}.

Definition push_candidate (c : RTCIceCandidateInit) (pc : RTCPeerConnection)
  : RTCPeerConnection :=
  {| owner := owner pc; remoteDescription := remoteDescription pc;
     localDescription := localDescription pc;
     remoteCandidates := remoteCandidates pc ++ [c]; senders := senders pc;
     closed := closed pc; operations := operations pc; settled := settled pc |}.

Definition push_operation (op : Operation) (pc : RTCPeerConnection)
  : RTCPeerConnection :=
  {| owner := owner pc; remoteDescription := remoteDescription pc;
     localDescription := localDescription pc;
     remoteCandidates := remoteCandidates pc; senders := senders pc;
     closed := closed pc; operations := operations pc ++ [op];
     settled := settled pc |}.

(** The oldest pending operation has settled. *)
Definition advance (pc : RTCPeerConnection) : RTCPeerConnection :=
  {| owner := owner pc; remoteDescription := remoteDescription pc;
     localDescription := localDescription pc;
     remoteCandidates := remoteCandidates pc; senders := senders pc;
     closed := closed pc; operations := operations pc;
     settled := S (settled pc) |}.

(** The state of the exported singleton before any call. *)
Definition initial : World :=
  {| this := {| ws := None; signalingSocket := None; localStream := None;
                peerConnections := ∅;
                callState := {| CallState.callId := None;
                                CallState.isActive := false;
                                CallState.isIncoming := false;
                                CallState.participants := [];
                                CallState.localStream := None;
                                CallState.callType := audio;
                                CallState.isMuted := false;
                                CallState.isVideoEnabled := false |} |};
     sockets := []; streams := []; connections := [] |}.

(** *** Methods *)

(** [updateState(updates)]: the new call state is the old one with the keys
    of [updates] overwritten; [updates] is given as the function that
    overwrites them.  (The new state is also passed to [onStateChange], a
    callback of the user interface that is not part of the world.) *)
Definition updateState (updates : CallState.t -> CallState.t) (w : World) : World :=
  set_this (fun s => set_callState (updates (callState s)) s) w.

(** The [sub] claim of the token, or "current_user". *)
Definition currentUserId (sub : option string) : string :=
  if truthy sub then default "" sub else "current_user".

(** [navigator.mediaDevices.getUserMedia({audio: true, video: ...})] when
    it is granted: one live, enabled audio track and, if asked for, one
    video track. *)
Definition getUserMedia (includeVideo : bool) : MediaStream :=
  {| kind := AudioKind; enabled := true; ended := false |} ::
  (if includeVideo
   then [{| kind := VideoKind; enabled := true; ended := false |}] else []).

Definition getLocalStream (includeVideo granted : bool) (w : World)
  : World * Completion :=
  if granted then
    let id := length (streams w) in
    let w1 := set_streams (streams w ++ [getUserMedia includeVideo]) w in
    let w2 := set_this (set_localStream (Some id)) w1 in
    (updateState (fun c =>
       {| CallState.callId := CallState.callId c;
          CallState.isActive := CallState.isActive c;
          CallState.isIncoming := CallState.isIncoming c;
          CallState.participants := CallState.participants c;
          CallState.localStream := Some id;
          CallState.callType := CallState.callType c;
          CallState.isMuted := CallState.isMuted c;
          CallState.isVideoEnabled := CallState.isVideoEnabled c |}) w2, Normal)
  else (w, Throw).

Definition signalingUrl (callId : string) : string :=
  "ws://localhost:4000/api/v1" +:+ "/calls/" +:+ callId +:+ "/signaling".

(** [connectSignaling(callId)]: a new socket is created and stored in
    [signalingSocket]; the promise resolves when it opens and rejects on its
    error event.  Its close event is a later turn of the event loop. *)
Definition connectSignaling (callId : string) (opened : bool) (w : World)
  : World * Completion :=
  let id := length (sockets w) in
  let sock := {| url := signalingUrl callId;
                 readyState := if opened then OPEN else CONNECTING;
                 sent := [] |} in
  let w1 := set_sockets (sockets w ++ [sock]) w in
  (set_this (set_signalingSocket (Some id)) w1,
   if opened then Normal else Throw).

Definition initiateCall (participants : list string) (callType : CallType)
    (granted : bool) (response : option string) (opened : bool) (w : World)
  : World * option string :=
  match getLocalStream (bool_decide (callType = video)) granted w with
  | (w1, Throw) => (w1, None)
  | (w1, Normal) =>
      match response with
      | None => (w1, None)
      | Some call_id =>
          let w2 := updateState (fun c =>
            {| CallState.callId := Some call_id;
               CallState.isActive := true;
               CallState.isIncoming := false;
               CallState.participants := CallState.participants c;
               CallState.localStream := CallState.localStream c;
               CallState.callType := callType;
               CallState.isMuted := CallState.isMuted c;
               CallState.isVideoEnabled := bool_decide (callType = video) |}) w1 in
          match connectSignaling call_id opened w2 with
          | (w3, Throw) => (w3, None)
          | (w3, Normal) => (w3, Some call_id)
          end
      end
  end.

Definition joinCall (callId : string) (joined granted opened : bool) (w : World)
  : World * Completion :=
  if joined then
    match getLocalStream
            (bool_decide (CallState.callType (callState (this w)) = video))
            granted w with
    | (w1, Throw) => (w1, Throw)
    | (w1, Normal) =>
        let w2 := updateState (fun c =>
          {| CallState.callId := Some callId;
             CallState.isActive := true;
             CallState.isIncoming := false;
             CallState.participants := CallState.participants c;
             CallState.localStream := CallState.localStream c;
             CallState.callType := CallState.callType c;
             CallState.isMuted := CallState.isMuted c;
             CallState.isVideoEnabled := CallState.isVideoEnabled c |}) w1 in
        connectSignaling callId opened w2
    end
  else (w, Throw).

Definition acceptIncomingCall (callId : string) (callType : CallType)
    (joined granted opened : bool) (w : World) : World * Completion :=
  joinCall callId joined granted opened
    (updateState (fun c =>
       {| CallState.callId := CallState.callId c;
          CallState.isActive := CallState.isActive c;
          CallState.isIncoming := CallState.isIncoming c;
          CallState.participants := CallState.participants c;
          CallState.localStream := CallState.localStream c;
          CallState.callType := callType;
          CallState.isMuted := CallState.isMuted c;
          CallState.isVideoEnabled := bool_decide (callType = video) |}) w).

Definition declineIncomingCall (callId : string) (ended : bool) (w : World) : World :=
  if ended then
    updateState (fun c =>
      {| CallState.callId := CallState.callId c;
         CallState.isActive := false;
         CallState.isIncoming := false;
         CallState.participants := CallState.participants c;
         CallState.localStream := CallState.localStream c;
         CallState.callType := CallState.callType c;
         CallState.isMuted := CallState.isMuted c;
         CallState.isVideoEnabled := CallState.isVideoEnabled c |}) w
  else w.

(** [ws.close()] of the browser. *)
Definition closeSocket (id : nat) (w : World) : World :=
  match sockets w !! id with
  | Some s =>
      match readyState s with
      | CONNECTING | OPEN => set_sockets (<[id := set_readyState CLOSING s]> (sockets w)) w
      | CLOSING | CLOSED => w
      end
  | None => w
  end.

(** [this.peerConnections.forEach((pc) => pc.close())] *)
Definition closeAll (ids : list nat) (conns : list RTCPeerConnection)
  : list RTCPeerConnection :=
  foldl (fun cs id => alter close id cs) conns ids.

Definition cleanup (w : World) : World :=
  let w1 :=
    match localStream (this w) with
    | Some sid =>
        set_this (set_localStream None)
          (set_streams (alter (fun ts => stop <$> ts) sid (streams w)) w)
    | None => w
    end in
  let ids := (map_to_list (peerConnections (this w1))).*2 in
  let w2 := set_this (set_peerConnections ∅)
              (set_connections (closeAll ids (connections w1)) w1) in
  match ws (this w2) with
  | Some id => set_this (set_ws None) (closeSocket id w2)
  | None => w2
  end.

(** [endCall()]; [ended] tells whether the REST call [callsApi.endCall]
    succeeds, which matters only when there is a call id to end. *)
Definition endCall (ended : bool) (w : World) : World :=
  let rest :=
    if truthy (CallState.callId (callState (this w)))
    then (if ended then Normal else Throw) else Normal in
  match rest with
  | Normal =>
      updateState (fun c =>
        {| CallState.callId := CallState.callId c;
           CallState.isActive := false;
           CallState.isIncoming := false;
           CallState.participants := [];
           CallState.localStream := CallState.localStream c;
           CallState.callType := CallState.callType c;
           CallState.isMuted := CallState.isMuted c;
           CallState.isVideoEnabled := CallState.isVideoEnabled c |}) (cleanup w)
  | Throw => cleanup w
  end.

Definition sendSignalingMessage (message : SignalingMessage) (w : World) : World :=
  match ws (this w) with
  | Some id =>
      match sockets w !! id with
      | Some s =>
          if bool_decide (readyState s = OPEN)
          then set_sockets (<[id := push_sent message s]> (sockets w)) w
          else w
      | None => w
      end
  | None => w
  end.

(** Index of the first track of the given kind: [getAudioTracks()[0]],
    [getVideoTracks()[0]]. *)
Fixpoint firstOfKind (k : TrackKind) (ts : MediaStream) : option nat :=
  match ts with
  | [] => None
  | t :: ts' => if decide (kind t = k) then Some O else S <$> firstOfKind k ts'
  end.

Definition toggleMute (sub : option string) (w : World) : World :=
  match localStream (this w) with
  | Some sid =>
      match streams w !! sid with
      | Some ts =>
          match firstOfKind AudioKind ts with
          | Some i =>
              match ts !! i with
              | Some audioTrack =>
                  let audioTrack' := set_enabled (negb (enabled audioTrack)) audioTrack in
                  let isMuted := negb (enabled audioTrack') in
                  let w1 := set_streams (<[sid := <[i := audioTrack']> ts]> (streams w)) w in
                  let w2 := updateState (fun c =>
                    {| CallState.callId := CallState.callId c;
                       CallState.isActive := CallState.isActive c;
                       CallState.isIncoming := CallState.isIncoming c;
                       CallState.participants := CallState.participants c;
                       CallState.localStream := CallState.localStream c;
                       CallState.callType := CallState.callType c;
                       CallState.isMuted := isMuted;
                       CallState.isVideoEnabled := CallState.isVideoEnabled c |}) w1 in
                  sendSignalingMessage
                    {| type := "mute"; user_id := Some (currentUserId sub);
                       sdp := None; candidate := None;
                       muted := Some isMuted; video_enabled := None |} w2
              | None => w
              end
          | None => w
          end
      | None => w
      end
  | None => w
  end.

Definition toggleVideo (sub : option string) (w : World) : World :=
  match localStream (this w) with
  | Some sid =>
      match streams w !! sid with
      | Some ts =>
          match firstOfKind VideoKind ts with
          | Some i =>
              match ts !! i with
              | Some videoTrack =>
                  let videoTrack' := set_enabled (negb (enabled videoTrack)) videoTrack in
                  let isVideoEnabled := enabled videoTrack' in
                  let w1 := set_streams (<[sid := <[i := videoTrack']> ts]> (streams w)) w in
                  let w2 := updateState (fun c =>
                    {| CallState.callId := CallState.callId c;
                       CallState.isActive := CallState.isActive c;
                       CallState.isIncoming := CallState.isIncoming c;
                       CallState.participants := CallState.participants c;
                       CallState.localStream := CallState.localStream c;
                       CallState.callType := CallState.callType c;
                       CallState.isMuted := CallState.isMuted c;
                       CallState.isVideoEnabled := isVideoEnabled |}) w1 in
                  sendSignalingMessage
                    {| type := "video_toggle"; user_id := Some (currentUserId sub);
                       sdp := None; candidate := None;
                       muted := None; video_enabled := Some isVideoEnabled |} w2
              | None => w
              end
          | None => w
          end
      | None => w
      end
  | None => w
  end.

(** [getOrCreatePeerConnection(userId)]: the connection stored for the user
    or, when there is none, a new one that is stored and given the tracks
    of the local stream. *)
Definition getOrCreatePeerConnection (userId : string) (w : World) : World * nat :=
  match peerConnections (this w) !! userId with
  | Some id => (w, id)
  | None =>
      let id := length (connections w) in
      let tracks :=
        match localStream (this w) with
        | Some sid => (fun i => (sid, i)) <$> seq 0 (length (default [] (streams w !! sid)))
        | None => []
        end in
      let pc := {| owner := userId; remoteDescription := None;
                   localDescription := None; remoteCandidates := [];
                   senders := tracks; closed := false;
                   operations := []; settled := 0 |} in
      let w1 := set_connections (connections w ++ [pc]) w in
      (set_this (fun s => set_peerConnections (<[userId := id]> (peerConnections s)) s) w1,
       id)
  end.

(** A call of a chained method on the peer connection [id]: the operation
    is put on the chain and the promise is pending.  On a connection that
    has been closed the browser rejects the promise at once. *)
Definition enqueue (id : nat) (op : Operation) (w : World) : World * Promise :=
  match connections w !! id with
  | Some pc =>
      if closed pc then (w, Rejected)
      else (set_connections (alter (push_operation op) id (connections w)) w,
            Pending)
  | None => (w, Rejected)
  end.

(** [handleOffer(userId, sdp)] up to its first [await]: the connection is
    got or created, and with it registered, and [setRemoteDescription] is
    called.  What follows the [await]s is in [settle]. *)
Definition handleOffer (userId sdp : string) (w : World) : World * Promise :=
  let (w1, id) := getOrCreatePeerConnection userId w in
  enqueue id (OpSetRemoteDescription {| sdpType := offer; sdpText := sdp |}) w1.

Definition handleAnswer (userId sdp : string) (w : World) : World * Promise :=
  match peerConnections (this w) !! userId with
  | Some id =>
      enqueue id (OpSetRemoteDescription {| sdpType := answer; sdpText := sdp |}) w
  | None => (w, Fulfilled)
  end.

Definition handleIceCandidate (userId : string) (candidate : RTCIceCandidateInit)
    (w : World) : World * Promise :=
  match peerConnections (this w) !! userId with
  | Some id =>
      if constructible candidate
      then enqueue id (OpAddIceCandidate candidate) w
      else (w, Rejected)
  | None => (w, Fulfilled)
  end.

(** The oldest pending operation of the peer connection [id] settles, and
    the handler that awaits it takes its next step.  An operation that the
    browser accepts takes effect: the description is applied, the candidate
    is added.  [addIceCandidate] is rejected when the connection has no
    remote description at that moment.  After [setRemoteDescription] of an
    offer it is [handleOffer] that goes on, with [createAnswer], then with
    [setLocalDescription], then with the answer message; nothing follows
    the [await] in [handleAnswer] and [handleIceCandidate], and nothing
    follows a rejection (no handler has a [catch]).  The promises of a
    closed connection never settle. *)
Definition settle (id : nat) (b : Browser) (w : World) : World :=
  match connections w !! id with
  | Some pc =>
      if closed pc then w
      else
        match operations pc !! settled pc with
        | Some op =>
            let update f := set_connections (alter f id (connections w)) w in
            match op with
            | OpSetRemoteDescription d =>
                if accepts b then
                  let w1 := update (fun p => set_remoteDescription d (advance p)) in
                  match sdpType d with
                  | offer => fst (enqueue id OpCreateAnswer w1)
                  | answer => w1
                  end
                else update advance
            | OpCreateAnswer =>
                if accepts b then
                  fst (enqueue id
                         (OpSetLocalDescription
                            {| sdpType := answer; sdpText := answerSdp b |})
                         (update advance))
                else update advance
            | OpSetLocalDescription d =>
                if accepts b then
                  sendSignalingMessage
                    {| type := "answer"; user_id := Some (currentUserId (sub b));
                       sdp := Some (sdpText d); candidate := None;
                       muted := None; video_enabled := None |}
                    (update (fun p => set_localDescription d (advance p)))
                else update advance
            | OpAddIceCandidate c =>
                match remoteDescription pc with
                | Some _ =>
                    if accepts b
                    then update (fun p => push_candidate c (advance p))
                    else update advance
                | None => update advance
                end
            end
        | None => w
        end
  | None => w
  end.

Definition handleParticipantMuted (userId : string) (muted : bool) (w : World) : World :=
  updateState (fun c =>
    {| CallState.callId := CallState.callId c;
       CallState.isActive := CallState.isActive c;
       CallState.isIncoming := CallState.isIncoming c;
       CallState.participants :=
         (fun p => if String.eqb (CallParticipant.userId p) userId
                   then {| CallParticipant.userId := CallParticipant.userId p;
                           CallParticipant.stream := CallParticipant.stream p;
                           CallParticipant.peerConnection := CallParticipant.peerConnection p;
                           CallParticipant.isMuted := Some muted;
                           CallParticipant.isVideoEnabled := CallParticipant.isVideoEnabled p |}
                   else p) <$> CallState.participants c;
       CallState.localStream := CallState.localStream c;
       CallState.callType := CallState.callType c;
       CallState.isMuted := CallState.isMuted c;
       CallState.isVideoEnabled := CallState.isVideoEnabled c |}) w.

Definition handleParticipantVideo (userId : string) (videoEnabled : bool) (w : World) : World :=
  updateState (fun c =>
    {| CallState.callId := CallState.callId c;
       CallState.isActive := CallState.isActive c;
       CallState.isIncoming := CallState.isIncoming c;
       CallState.participants :=
         (fun p => if String.eqb (CallParticipant.userId p) userId
                   then {| CallParticipant.userId := CallParticipant.userId p;
                           CallParticipant.stream := CallParticipant.stream p;
                           CallParticipant.peerConnection := CallParticipant.peerConnection p;
                           CallParticipant.isMuted := CallParticipant.isMuted p;
                           CallParticipant.isVideoEnabled := Some videoEnabled |}
                   else p) <$> CallState.participants c;
       CallState.localStream := CallState.localStream c;
       CallState.callType := CallState.callType c;
       CallState.isMuted := CallState.isMuted c;
       CallState.isVideoEnabled := CallState.isVideoEnabled c |}) w.

(** [handleSignalingMessage(message)] *)
Definition handleSignalingMessage (message : SignalingMessage) (w : World)
  : World * Promise :=
  if negb (truthy (user_id message)) then (w, Fulfilled)
  else
    let userId := default "" (user_id message) in
    if String.eqb (type message) "offer" then
      if truthy (sdp message)
      then handleOffer userId (default "" (sdp message)) w else (w, Fulfilled)
    else if String.eqb (type message) "answer" then
      if truthy (sdp message)
      then handleAnswer userId (default "" (sdp message)) w else (w, Fulfilled)
    else if String.eqb (type message) "ice-candidate" then
      match candidate message with
      | Some c => handleIceCandidate userId c w
      | None => (w, Fulfilled)
      end
    else if String.eqb (type message) "participant_muted" then
      match muted message with
      | Some m => (handleParticipantMuted userId m w, Fulfilled)
      | None => (w, Fulfilled)
      end
    else if String.eqb (type message) "participant_video" then
      match video_enabled message with
      | Some v => (handleParticipantVideo userId v w, Fulfilled)
      | None => (w, Fulfilled)
      end
    else (w, Fulfilled).

(** [signalingSocket.onmessage]: [frame] is [None] when [JSON.parse]
    throws.  [handleSignalingMessage] is [async] and not awaited, so a
    rejection inside it goes nowhere. *)
Definition onmessage (frame : option SignalingMessage) (w : World) : World :=
  match frame with
  | Some message => fst (handleSignalingMessage message w)
  | None => w
  end.

(** [signalingSocket.onclose] *)
Definition onclose (w : World) : World :=
  set_this (set_signalingSocket None) w.

(** [peerConnection.ontrack] of the connection created for [userId]. *)
Definition ontrack (userId : string) (pc remoteStream : nat) (w : World) : World :=
  let mapped :=
    (fun p => if String.eqb (CallParticipant.userId p) userId
              then {| CallParticipant.userId := CallParticipant.userId p;
                      CallParticipant.stream := Some remoteStream;
                      CallParticipant.peerConnection := CallParticipant.peerConnection p;
                      CallParticipant.isMuted := CallParticipant.isMuted p;
                      CallParticipant.isVideoEnabled := CallParticipant.isVideoEnabled p |}
              else p) <$> CallState.participants (callState (this w)) in
  let participants :=
    if existsb (fun p => String.eqb (CallParticipant.userId p) userId) mapped
    then mapped
    else mapped ++ [{| CallParticipant.userId := userId;
                       CallParticipant.stream := Some remoteStream;
                       CallParticipant.peerConnection := Some pc;
                       CallParticipant.isMuted := None;
                       CallParticipant.isVideoEnabled := None |}] in
  updateState (fun c =>
    {| CallState.callId := CallState.callId c;
       CallState.isActive := CallState.isActive c;
       CallState.isIncoming := CallState.isIncoming c;
       CallState.participants := participants;
       CallState.localStream := CallState.localStream c;
       CallState.callType := CallState.callType c;
       CallState.isMuted := CallState.isMuted c;
       CallState.isVideoEnabled := CallState.isVideoEnabled c |}) w.

(** [peerConnection.onicecandidate] *)
Definition onicecandidate (c : option RTCIceCandidateInit) (sub : option string)
    (w : World) : World :=
  match c with
  | Some c' =>
      sendSignalingMessage
        {| type := "ice-candidate"; user_id := Some (currentUserId sub);
           sdp := None; candidate := Some c'; muted := None;
           video_enabled := None |} w
  | None => w
  end.

Definition handleIncomingCall (callId callerId : string) (callType : CallType)
    (w : World) : World :=
  updateState (fun c =>
    {| CallState.callId := Some callId;
       CallState.isActive := CallState.isActive c;
       CallState.isIncoming := true;
       CallState.participants :=
         [{| CallParticipant.userId := callerId;
             CallParticipant.stream := None;
             CallParticipant.peerConnection := None;
             CallParticipant.isMuted := None;
             CallParticipant.isVideoEnabled := None |}];
       CallState.localStream := CallState.localStream c;
       CallState.callType := callType;
       CallState.isMuted := CallState.isMuted c;
       CallState.isVideoEnabled := bool_decide (callType = video) |}) w.

(** *** The event loop *)

Definition socketState (w : World) (id : nat) : option ReadyState :=
  readyState <$> sockets w !! id.

(** One turn of the event loop: a method called by the application, or an
    event delivered by the browser ([message] to an open socket, [close] to
    a socket that is not closed yet, [track] and [icecandidate] to a peer
    connection that is not closed), or the settling of the oldest pending
    operation of a peer connection, with the step that the awaiting handler
    then takes. *)
Definition step (w : World) (e : Event) : World :=
  match e with
  | EInitiateCall participants callType granted response opened =>
      fst (initiateCall participants callType granted response opened w)
  | EJoinCall callId joined granted opened =>
      fst (joinCall callId joined granted opened w)
  | EEndCall ended => endCall ended w
  | EAcceptIncomingCall callId callType joined granted opened =>
      fst (acceptIncomingCall callId callType joined granted opened w)
  | EDeclineIncomingCall callId ended => declineIncomingCall callId ended w
  | EToggleMute sub => toggleMute sub w
  | EToggleVideo sub => toggleVideo sub w
  | EHandleIncomingCall callId callerId callType =>
      handleIncomingCall callId callerId callType w
  | ESignalingMessage id frame =>
      if bool_decide (socketState w id = Some OPEN) then onmessage frame w else w
  | ESignalingClose id =>
      match socketState w id with
      | Some CONNECTING | Some OPEN | Some CLOSING =>
          onclose (set_sockets (alter (set_readyState CLOSED) id (sockets w)) w)
      | _ => w
      end
  | ETrack id remoteStream =>
      match connections w !! id with
      | Some pc => if closed pc then w else ontrack (owner pc) id remoteStream w
      | None => w
      end
  | EIceCandidate id c sub =>
      match connections w !! id with
      | Some pc => if closed pc then w else onicecandidate c sub w
      | None => w
      end
  | ESettled id b => settle id b w
  end.

Definition run (w : World) (es : list Event) : World :=
  foldl step w es.

(** Everything the service ever handed to a socket for transmission. *)
Definition allSent (w : World) : list SignalingMessage :=
  concat (sent <$> sockets w).

(** What reaches the service while a call is going on: an inbound
    signaling message, or the settling of the oldest pending operation of a
    peer connection. *)
Inductive Arrival :=
| Message (m : SignalingMessage)
| Settled (pc : nat) (b : Browser).

Definition arrive (w : World) (a : Arrival) : World :=
  match a with
  | Message m => onmessage (Some m) w
  | Settled id b => settle id b w
  end.

Definition receive (arrivals : list Arrival) (w : World) : World :=
  foldl arrive w arrivals.

(** The browser accepts every operation of the peer connection [id] that
    settles. *)
Definition accepting (id : nat) (arrivals : list Arrival) : bool :=
  forallb (fun a => match a with
                    | Settled pc b => negb (pc =? id)%nat || accepts b
                    | Message _ => true
                    end)
    arrivals.

(** The user has a peer connection that is not closed and on which a remote
    description has been applied. *)
Definition ready (w : World) (userId : string) : bool :=
  match peerConnections (this w) !! userId with
  | Some id =>
      match connections w !! id with
      | Some pc =>
          negb (closed pc) &&
          match remoteDescription pc with Some _ => true | None => false end
      | None => false
      end
  | None => false
  end.

(** The ICE candidate that a message carries for [userId] and from which
    an [RTCIceCandidate] can be built, if any. *)
Definition candidateFor (userId : string) (m : SignalingMessage)
  : option RTCIceCandidateInit :=
  if truthy (user_id m) && String.eqb (default "" (user_id m)) userId
     && String.eqb (type m) "ice-candidate"
  then match candidate m with
       | Some c => if constructible c then Some c else None
       | None => None
       end
  else None.

Definition candidatesFor (userId : string) (arrivals : list Arrival)
  : list RTCIceCandidateInit :=
  omap (fun a => match a with
                 | Message m => candidateFor userId m
                 | Settled _ _ => None
                 end) arrivals.

Definition candidateOf (op : Operation) : option RTCIceCandidateInit :=
  match op with OpAddIceCandidate c => Some c | _ => None end.

(** The candidates with which [addIceCandidate] was ever called on the peer
    connection [id], in call order. *)
Definition passedTo (w : World) (id : nat) : list RTCIceCandidateInit :=
  omap candidateOf (from_option operations [] (connections w !! id)).

(** The remote candidates applied so far to the peer connection [id]. *)
Definition candidatesOf (w : World) (id : nat) : list RTCIceCandidateInit :=
  from_option remoteCandidates [] (connections w !! id).

(** The peer connection [id] exists and is not closed. *)
Definition isOpen (w : World) (id : nat) : bool :=
  from_option (fun pc => negb (closed pc)) false (connections w !! id).

(** Every operation of the peer connection [id] has settled. *)
Definition drained (w : World) (id : nat) : bool :=
  from_option (fun pc => bool_decide (settled pc = length (operations pc)))
    false (connections w !! id).

(** The candidates applied to a connection are those of its operations
    that have settled, and a remote description is applied or asking for
    one is the first thing that was done with the connection. *)
Definition orderly (pc : RTCPeerConnection) : bool :=
  (settled pc <=? length (operations pc))%nat
  && bool_decide
       (remoteCandidates pc = omap candidateOf (take (settled pc) (operations pc)))
  && (match remoteDescription pc with Some _ => true | None => false end
      || (settled pc =? 0)%nat
         && match operations pc with
            | OpSetRemoteDescription _ :: _ => true
            | _ => false
            end).

Definition orderlyAt (w : World) (id : nat) : bool :=
  from_option orderly false (connections w !! id).

(** The peer connection [id] belongs to [userId] and to nobody else, is not
    closed, and [addIceCandidate] has been called on it with the candidates
    [cands]. *)
Definition established (w : World) (userId : string) (id : nat)
    (cands : list RTCIceCandidateInit) : Prop :=
  peerConnections (this w) !! userId = Some id /\
  (forall u, peerConnections (this w) !! u = Some id -> u = userId) /\
  exists pc, connections w !! id = Some pc /\ closed pc = false /\
    omap candidateOf (operations pc) = cands.

(** A change of a peer connection that keeps it open or closed as it was,
    keeps its owner, and adds no call of [addIceCandidate]. *)
Definition harmless (f : RTCPeerConnection -> RTCPeerConnection) : Prop :=
  forall pc, closed (f pc) = closed pc /\ owner (f pc) = owner pc /\
    omap candidateOf (operations (f pc)) = omap candidateOf (operations pc).

(** No other user is mapped to the peer connection [id]. *)
Definition soleOwner (w : World) (userId : string) (id : nat) : bool :=
  forallb (fun ui => implb (Nat.eqb ui.2 id) (String.eqb ui.1 userId))
    (map_to_list (peerConnections (this w))).

(** What a transition may do to the wire when [ws] is unset: nothing. *)
Definition quietly (w w' : World) : Prop :=
  ws (this w') = None /\ allSent w' = allSent w.

(** Every key of [peerConnections] refers to a peer connection in the
    store, and no two keys refer to the same one. *)
Definition wellKeyed (w : World) : Prop :=
  forall u id, peerConnections (this w) !! u = Some id ->
    (id < length (connections w))%nat /\
    forall u', peerConnections (this w) !! u' = Some id -> u' = u.

(** What [wellKeyed] depends on. *)
Definition shape (w : World) : gmap string nat * nat :=
  (peerConnections (this w), length (connections w)).

(** *** Worlds and messages of the scenarios *)

Definition browser : Browser :=
  {| accepts := true; answerSdp := "v=0 answer"; sub := Some "me" |}.

Definition iceCandidate (c : string) : RTCIceCandidateInit :=
  {| line := c; sdpMid := Some "0"; sdpMLineIndex := Some O |}.

Definition iceMessage (userId c : string) : SignalingMessage :=
  {| type := "ice-candidate"; user_id := Some userId; sdp := None;
     candidate := Some (iceCandidate c); muted := None;
     video_enabled := None |}.

Definition offerMessage (userId sdp : string) : SignalingMessage :=
  {| type := "offer"; user_id := Some userId; sdp := Some sdp;
     candidate := None; muted := None; video_enabled := None |}.

(** An audio call placed from the initial state: media granted, REST call
    answered with "call-1", signaling socket (socket 0) open. *)
Definition inCall : World :=
  fst (initiateCall ["u2"] audio true (Some "call-1") true initial).

(** Scenario D up to the offer: a candidate of "u3" arrives on the signaling
    socket, then the offer of "u3". *)
Definition offered : World :=
  run inCall [ESignalingMessage 0 (Some (iceMessage "u3" "c1"));
              ESignalingMessage 0 (Some (offerMessage "u3" "v=0 offer"))].

(** Scenario D to its end: a second candidate of "u3" arrives while the
    description of the offer is still being applied, then the browser
    carries out everything it was asked for. *)
Definition answered : World :=
  run offered [ESignalingMessage 0 (Some (iceMessage "u3" "c2"));
               ESettled 0 browser; ESettled 0 browser;
               ESettled 0 browser; ESettled 0 browser].

(** A call in which "u2" has made an offer, then ended by [endCall] with a
    successful REST call. *)
Definition hungUp : World :=
  run inCall [ESignalingMessage 0 (Some (offerMessage "u2" "v=0 offer"));
              EEndCall true].

(** A call in which "u2" has made an offer that the browser has accepted
    and answered. *)
Definition negotiated : World :=
  run inCall [ESignalingMessage 0 (Some (offerMessage "u2" "v=0 offer"));
              ESettled 0 browser; ESettled 0 browser; ESettled 0 browser].

(** A second call placed after a first one that was ended while muted. *)
Definition secondCall : World :=
  run inCall [EToggleMute None; EEndCall true;
              EInitiateCall ["u2"] audio true (Some "call-2") true].

End WebRTCService.

(** ** frontend/src/lib/token-manager.ts *)

Module TokenManager.

(** [BrowserTokenStorage]: whether [window] is defined (it is not while a
    page is rendered on the server) and the "auth_token" item of
    [localStorage].  The manager's only field is its storage. *)
Record Storage := { window : bool; item : option string }.

Module BrowserTokenStorage.

Definition getToken (s : Storage) : option string :=
  if window s then item s else None.

Definition setToken (token : string) (s : Storage) : Storage :=
  if window s then {| window := true; item := Some token |} else s.

Definition removeToken (s : Storage) : Storage :=
  if window s then {| window := true; item := None |} else s.

End BrowserTokenStorage.

(** [String.prototype.split(separator)] for a one-character separator:
    the pieces between the separators, empty pieces included; the empty
    string gives one empty piece. *)
Fixpoint split (sep : Ascii.ascii) (s : string) : list string :=
  match s with
  | EmptyString => [EmptyString]
  | String c s' =>
      if Ascii.eqb c sep then EmptyString :: split sep s'
      else match split sep s' with
           | p :: ps => String c p :: ps
           | [] => [String c EmptyString]
           end
  end.

(** [Array.prototype.join(separator)] *)
Fixpoint join (sep : string) (l : list string) : string :=
  match l with
  | [] => EmptyString
  | [p] => p
  | p :: ps => p +:+ sep +:+ join sep ps
  end.

(** Number of occurrences of a character in a string. *)
Fixpoint countChar (c : Ascii.ascii) (s : string) : nat :=
  match s with
  | EmptyString => O
  | String a s' => ((if Ascii.eqb a c then 1 else 0) + countChar c s')%nat
  end.

(** What the code reads from a decoded payload: the number that
    [payload.exp] stands for in a comparison with a number ([None] when it
    is missing or not a number, so that every comparison is false), and
    [payload.sub] when it is a string. *)
Record Claims := { exp : option Q; sub : option string }.

(** The value of [JSON.parse(atob(part))]: [null], on which reading a
    property throws, or a value with the claims above. *)
Inductive Json := JsonNull | JsonValue (c : Claims).

(** [x < y] on numbers. *)
Definition Qltb (x y : Q) : bool := negb (Qle_bool y x).

Definition dot : Ascii.ascii := Ascii.ascii_of_nat 46.

Section Decoder.

(** [JSON.parse(atob(part))]; [None] when either of them throws. *)
Variable decode : string -> option Json.

(** [setToken(token)] *)
Definition setToken (token : string) (s : Storage) : Storage * Completion :=
  if String.eqb token "" then (s, Throw)
  else (BrowserTokenStorage.setToken token s, Normal).

Definition getStoredToken (s : Storage) : option string :=
  BrowserTokenStorage.getToken s.

(** [isTokenExpired(token)] at the time [currentTime = Date.now() / 1000]. *)
Definition isTokenExpired (token : string) (currentTime : Q) : bool :=
  let parts := split dot token in
  if negb (Nat.eqb (length parts) 3) || negb (truthy (parts !! 1%nat)) then true
  else
    match decode (default "" (parts !! 1%nat)) with
    | Some (JsonValue payload) =>
        match exp payload with
        | Some e => Qltb e currentTime
        | None => false
        end
    | Some JsonNull => true
    | None => true
    end.

Definition getValidToken (s : Storage) (currentTime : Q) : option string :=
  match getStoredToken s with
  | Some token =>
      if negb (truthy (Some token)) || isTokenExpired token currentTime
      then None else Some token
  | None => None
  end.

Definition removeToken (s : Storage) : Storage :=
  BrowserTokenStorage.removeToken s.

Definition isAuthenticated (s : Storage) (currentTime : Q) : bool :=
  match getValidToken s currentTime with Some _ => true | None => false end.

(** [getTokenPayload()]: the decoded payload, or [null]; a payload that is
    itself [null] is returned as it is. *)
Definition getTokenPayload (s : Storage) : option Claims :=
  match getStoredToken s with
  | Some token =>
      if negb (truthy (Some token)) then None
      else
        let parts := split dot token in
        if negb (Nat.eqb (length parts) 3) || negb (truthy (parts !! 1%nat))
        then None
        else
          match decode (default "" (parts !! 1%nat)) with
          | Some (JsonValue payload) => Some payload
          | Some JsonNull => None
          | None => None
          end
  | None => None
  end.

Definition clearAuthData (s : Storage) : Storage := removeToken s.

(** [(tokenPayload?.sub as string) || "current_user"], as the call service
    computes the sender of its signaling messages. *)
Definition senderId (s : Storage) : string :=
  match getTokenPayload s with
  | Some payload => if truthy (sub payload) then default "" (sub payload)
                    else "current_user"
  | None => "current_user"
  end.

End Decoder.

(** A decoder for the examples: the part "p" decodes to a payload that
    expires at time 2000, the part "q" to one without [exp], every other
    part is not valid base64 or JSON. *)
Definition sampleDecode (part : string) : option Json :=
  if String.eqb part "p"
  then Some (JsonValue {| exp := Some (2000 # 1)%Q; sub := Some "alice" |})
  else if String.eqb part "q"
  then Some (JsonValue {| exp := None; sub := None |})
  else None.

Definition browserStorage (token : option string) : Storage :=
  {| window := true; item := token |}.

End TokenManager.

(** ** Further notions for the WebSocket manager *)

Module WebSocketManagerAux.
Import WebSocketManager.

(** The part of the world that says which socket the manager uses, whether
    it is connecting, and who is told about connection changes. *)
Definition link (w : World)
  : option nat * bool * option string * list nat * list (nat * bool) :=
  (ws (this w), isConnecting (this w), deviceId (this w),
   connectionListeners (this w), notified w).

(** Several [send] calls in a row. *)
Definition sendAll (messages : list WebSocketMessage) (w : World) : World :=
  foldl (fun w' m => fst (send m w')) w messages.

(** What the current socket has been handed for transmission. *)
Definition outbox (w : World) : list WebSocketMessage :=
  match ws (this w) with
  | Some id => from_option sent [] (sockets w !! id)
  | None => []
  end.

(** A timer that the manager can have pending: the connection timeout of
    10 s or a reconnect after one of the five back-off delays. *)
Definition timerOk (t : Timer) : bool :=
  match t with
  | ConnectTimeout d => bool_decide (d = 10000)
  | ReconnectTimer d => bool_decide (d ∈ reconnectDelays)
  end.

(** The invariant of the reconnect logic. *)
Definition wellFormed (w : World) : Prop :=
  0 <= reconnectAttempts (this w) <= maxReconnectAttempts /\
  reconnectDelay (this w) = 1000 /\
  Forall (fun d => d ∈ reconnectDelays) (scheduled w) /\
  Forall (fun t => timerOk t = true) (timers w) /\
  (forall id, ws (this w) = Some id -> (id < length (sockets w))%nat).

Definition isTimerEvent (e : Event) : bool :=
  match e with ETimer _ _ => true | _ => false end.

(** The notifications made while going from [w] to [w']. *)
Definition notifiedSince (w w' : World) : list (nat * bool) :=
  drop (length (notified w)) (notified w').

(** A world with a connection listener, two event handlers and an open
    first connection. *)
Definition listening : World :=
  step quiet
    (step quiet (addConnectionListener 3 twoHandlers)
       (EConnect "device" (Some "token")))
    (EOpen 0).

End WebSocketManagerAux.

(** ** Further notions for the WebRTC service *)

Module WebRTCServiceAux.
Import WebRTCService.

(** The store of peer connections and the map agree: a peer connection is
    open exactly when the map sends its owner to it. *)
Definition tidy (w : World) : Prop :=
  forall id pc, connections w !! id = Some pc ->
    (closed pc = false -> peerConnections (this w) !! owner pc = Some id) /\
    (forall u, peerConnections (this w) !! u = Some id ->
       closed pc = false /\ owner pc = u).

(** The stream the service holds exists, none of its tracks is stopped, and
    it has an audio track, followed by a video track or by nothing. *)
Definition holdsLiveStream (w : World) : Prop :=
  forall sid, localStream (this w) = Some sid ->
    exists ts, streams w !! sid = Some ts /\
      Forall (fun t => ended t = false) ts /\
      (kind <$> ts = [AudioKind] \/ kind <$> ts = [AudioKind; VideoKind]).

(** What [tidy] and [wellKeyed] depend on. *)
Definition peers (w : World) : gmap string nat * list RTCPeerConnection :=
  (peerConnections (this w), connections w).

(** What [holdsLiveStream] depends on. *)
Definition media (w : World) : option nat * list MediaStream :=
  (localStream (this w), streams w).

(** The messages that [toggleMute] and [toggleVideo] pass to
    [sendSignalingMessage]. *)
Definition muteMessage (sub : option string) (isMuted : bool) : SignalingMessage :=
  {| type := "mute"; user_id := Some (currentUserId sub);
     sdp := None; candidate := None;
     muted := Some isMuted; video_enabled := None |}.

Definition videoMessage (sub : option string) (isVideoEnabled : bool)
  : SignalingMessage :=
  {| type := "video_toggle"; user_id := Some (currentUserId sub);
     sdp := None; candidate := None;
     muted := None; video_enabled := Some isVideoEnabled |}.

Definition userIds (w : World) : list string :=
  CallParticipant.userId <$> CallState.participants (callState (this w)).

(** The participants other than [userId]. *)
Definition others (userId : string) (w : World) : list CallParticipant.t :=
  filter (fun p => CallParticipant.userId p <> userId)
    (CallState.participants (callState (this w))).

Definition isCloseEvent (e : Event) : bool :=
  match e with ESignalingClose _ => true | _ => false end.

(** The message types that [handleSignalingMessage] acts on. *)
Definition handledTypes : list string :=
  ["offer"; "answer"; "ice-candidate"; "participant_muted"; "participant_video"].

(** The enabled bit of the first local track of a kind, if there is one. *)
Definition trackEnabled (k : TrackKind) (w : World) : option bool :=
  match localStream (this w) with
  | Some sid =>
      match streams w !! sid with
      | Some ts =>
          match firstOfKind k ts with
          | Some i => enabled <$> ts !! i
          | None => None
          end
      | None => None
      end
  | None => None
  end.

(** The streams after the enabled bit of the first local track of a kind
    has been inverted. *)
Definition flipped (k : TrackKind) (w : World) : list MediaStream :=
  match localStream (this w) with
  | Some sid =>
      match streams w !! sid with
      | Some ts =>
          match firstOfKind k ts with
          | Some i =>
              match ts !! i with
              | Some t =>
                  <[sid := <[i := set_enabled (negb (enabled t)) t]> ts]> (streams w)
              | None => streams w
              end
          | None => streams w
          end
      | None => streams w
      end
  | None => streams w
  end.

(** What a turn of the event loop may do to the sockets and to the
    reference [signalingSocket] while [ws] is unset: nothing; or create one
    socket and refer to it; or, on a close event, mark that socket closed
    and drop the reference. *)
Definition socketChange (w : World) (e : Event) (w' : World) : Prop :=
  (sockets w' = sockets w /\
   signalingSocket (this w') = signalingSocket (this w)) \/
  (exists sock, sockets w' = sockets w ++ [sock] /\ sent sock = [] /\
     signalingSocket (this w') = Some (length (sockets w))) \/
  (exists id, e = ESignalingClose id /\
     sockets w' = alter (set_readyState CLOSED) id (sockets w) /\
     signalingSocket (this w') = None).

(** The reference [signalingSocket], when set, is to the socket created
    last. *)
Definition refersToNewest (w : World) : Prop :=
  forall id, signalingSocket (this w) = Some id -> S id = length (sockets w).

(** A call with two participants, "u2" known from an incoming call and
    "u3" added by a track event. *)
Definition twoParties : World :=
  run (handleIncomingCall "call-7" "u2" audio initial)
    [EJoinCall "call-7" true true true;
     ESignalingMessage 0 (Some (offerMessage "u3" "v=0 offer"));
     ETrack 0 5].

(** The peer connection of "u2" in [negotiated]. *)
Definition negotiatedPeer : RTCPeerConnection :=
  {| owner := "u2";
     remoteDescription := Some {| sdpType := offer; sdpText := "v=0 offer" |};
     localDescription := Some {| sdpType := answer; sdpText := "v=0 answer" |};
     remoteCandidates := []; senders := [(0%nat, 0%nat)]; closed := false;
     operations :=
       [OpSetRemoteDescription {| sdpType := offer; sdpText := "v=0 offer" |};
        OpCreateAnswer;
        OpSetLocalDescription {| sdpType := answer; sdpText := "v=0 answer" |}];
     settled := 3 |}.

(** A video call placed from the initial state. *)
Definition inVideoCall : World :=
  fst (initiateCall ["u2"] video true (Some "call-2") true initial).

End WebRTCServiceAux.

(** ** Properties of the WebSocket manager *)

Module WebSocketManagerFacts.
Import WebSocketManager.

Lemma send_control message w : control (fst (send message w)) = control w.
Proof.
  unfold send. destruct (negb (isConnected w)); [done|].
  destruct (ws (this w)) as [id|]; [|done].
  destruct (sockets w !! id) as [s|] eqn:Hs; [|done].
  destruct (serializable message); [|done].
  unfold control; simpl. rewrite list_fmap_insert; simpl.
  rewrite list_insert_id; [done|]. by rewrite list_lookup_fmap, Hs.
Qed.

Lemma addEventListener_control t h w : control (addEventListener t h w) = control w.
Proof. done. Qed.

Lemma removeEventListener_control t h w : control (removeEventListener t h w) = control w.
Proof. unfold removeEventListener. by destruct (_ !! _). Qed.

Section WithHandlers.
Variable handlerBody : nat -> WebSocketMessage -> HandlerRun.

Lemma runCalls_control cs w : control (runCalls cs w) = control w.
Proof.
  revert w. induction cs as [|c cs IH]; intros w; [done|].
  change (runCalls (c :: cs) w) with (runCalls cs (runCall c w)).
  rewrite IH. destruct c; simpl; auto using send_control,
    addEventListener_control, removeEventListener_control.
Qed.

Lemma callHandler_control h m w :
  control (fst (callHandler handlerBody h m w)) = control w.
Proof. unfold callHandler. simpl. by rewrite runCalls_control. Qed.

Lemma forEach_control (array : World -> list nat) callback :
  (forall x w, control (fst (callback x w)) = control w) ->
  forall n k w, control (fst (forEach array callback n k w)) = control w.
Proof.
  intros Hcb. induction n as [|n IH]; intros k w; [done|].
  simpl. destruct (array w !! k) as [x|]; [|apply IH].
  specialize (Hcb x w). destruct (callback x w) as [w' []]; simpl in *.
  - by rewrite IH.
  - done.
Qed.

Lemma tryCatch_id_control body w :
  control (fst (body w)) = control w ->
  control (fst (tryCatch body id w)) = control w.
Proof. unfold tryCatch. by destruct (body w) as [w' []]. Qed.

Lemma handleMessage_control frame w :
  control (handleMessage handlerBody frame w) = control w.
Proof.
  unfold handleMessage. apply tryCatch_id_control.
  destruct frame as [m|]; [|done].
  destruct (_ !! _); [|done].
  apply forEach_control. intros x w'.
  apply tryCatch_id_control, callHandler_control.
Qed.

(** **** Dispatch *)

Lemma send_this message w :
  this (fst (send message w)) = this w /\
  invoked (fst (send message w)) = invoked w.
Proof.
  unfold send. destruct (negb (isConnected w)); [done|].
  destruct (ws (this w)) as [i|]; [|done].
  destruct (sockets w !! i); [|done]. by destruct (serializable message).
Qed.

Lemma handlersOf_add t t' h w :
  handlersOf (addEventListener t' h w) t =
  handlersOf w t ++ (if decide (t' = t) then [h] else []).
Proof.
  unfold handlersOf, addEventListener. simpl.
  destruct (decide (t' = t)) as [->|Hne].
  - by rewrite lookup_insert_eq.
  - by rewrite lookup_insert_ne, app_nil_r.
Qed.

Lemma handlersOf_remove_ne t t' h w :
  t' <> t -> handlersOf (removeEventListener t' h w) t = handlersOf w t.
Proof.
  intros Hne. unfold handlersOf, removeEventListener.
  destruct (eventHandlers (this w) !! t') as [hs|]; [|done].
  simpl. by rewrite lookup_insert_ne.
Qed.

(** Calls that unsubscribe nothing from [t] can only append to the array of
    [t], and no call invokes a handler. *)
Lemma runCalls_handlers t cs : forall w,
  forallb (fun c => negb (removesFrom t c)) cs = true ->
  invoked (runCalls cs w) = invoked w /\
  exists extra, handlersOf (runCalls cs w) t = handlersOf w t ++ extra.
Proof.
  induction cs as [|c cs IH]; intros w Hcs.
  - split; [done|]. exists []. by rewrite app_nil_r.
  - simpl in Hcs. apply andb_prop in Hcs as [Hc Hcs].
    change (runCalls (c :: cs) w) with (runCalls cs (runCall c w)).
    destruct (IH (runCall c w) Hcs) as (Hi & extra & Hh).
    rewrite Hi, Hh. destruct c as [t' h|t' h|m]; simpl in *.
    + split; [done|]. rewrite handlersOf_add, <- app_assoc. eauto.
    + apply negb_true_iff, bool_decide_eq_false in Hc.
      rewrite handlersOf_remove_ne by done.
      split; [|eauto]. unfold removeEventListener. by destruct (_ !! _).
    + destruct (send_this m w) as [Ht Hinv]. split; [done|].
      exists extra. unfold handlersOf. by rewrite Ht.
Qed.

Lemma forEach_S (array : World -> list nat) callback n k w :
  forEach array callback (S n) k w =
  match array w !! k with
  | Some x =>
      match callback x w with
      | (w', Normal) => forEach array callback n (S k) w'
      | (w', Throw) => (w', Throw)
      end
  | None => forEach array callback n (S k) w
  end.
Proof. reflexivity. Qed.

(** The inner [try]/[catch]: whether the handler throws or not, the call
    completes normally with the handler's effects in place. *)
Lemma tryCatch_callHandler h message w :
  tryCatch (callHandler handlerBody h message) id w =
  (runCalls (calls (handlerBody h message))
     (set_invoked (invoked w ++ [(h, message)]) w), Normal).
Proof.
  unfold tryCatch, callHandler. by destruct (throws (handlerBody h message)).
Qed.

(** The heart of C8: when the handlers of the array do not unsubscribe from
    it, [forEach] with the per-handler [try]/[catch] visits the remaining
    indices [k], [k+1], ... of the array as it was when dispatch started,
    calls each handler once, in that order, and completes normally. *)
Lemma forEach_dispatch message hs : forall n k w extra,
  noRemoval handlerBody message hs = true ->
  handlersOf w (type message) = hs ++ extra ->
  (k + n = length hs)%nat ->
  let r := forEach (fun w' => handlersOf w' (type message))
             (fun handler => tryCatch (callHandler handlerBody handler message) id)
             n k w in
  snd r = Normal /\
  invoked (fst r) = invoked w ++ ((fun h => (h, message)) <$> drop k hs) /\
  exists extra', handlersOf (fst r) (type message) = hs ++ extra'.
Proof.
  induction n as [|n IH]; intros k w extra Hwb Hhs Hkn r; subst r.
  - simpl. rewrite drop_ge by lia. simpl. rewrite app_nil_r. eauto.
  - assert (is_Some (hs !! k)) as [h Hk] by (apply lookup_lt_is_Some; lia).
    rewrite forEach_S, Hhs, (lookup_app_l_Some _ _ _ _ Hk).
    rewrite tryCatch_callHandler.
    assert (forallb (fun c => negb (removesFrom (type message) c))
              (calls (handlerBody h message)) = true) as Hh.
    { unfold noRemoval in Hwb. rewrite forallb_forall in Hwb.
      apply Hwb, list_elem_of_In. by eapply list_elem_of_lookup_2. }
    destruct (runCalls_handlers (type message) _
      (set_invoked (invoked w ++ [(h, message)]) w) Hh) as (Hi & extra1 & He).
    change (handlersOf (set_invoked (invoked w ++ [(h, message)]) w) (type message))
      with (handlersOf w (type message)) in He.
    rewrite Hhs, <- app_assoc in He. simpl in Hi.
    destruct (IH (S k) _ _ Hwb He ltac:(lia)) as (Hn & Hinv & Hex).
    split; [done|]. split; [|done].
    rewrite Hinv, Hi, <- app_assoc. f_equal.
    by rewrite (drop_S _ _ _ Hk).
Qed.

Lemma fst_tagged (message : WebSocketMessage) (l : list nat) :
  fst <$> ((fun h => (h, message)) <$> l) = l.
Proof. induction l as [|x l IH]; [done|]. rewrite !fmap_cons. by f_equal. Qed.

Lemma occurrences_app h l1 l2 :
  occurrences h (l1 ++ l2) = (occurrences h l1 + occurrences h l2)%nat.
Proof. induction l1 as [|x l1 IH]; simpl; [done|]. rewrite IH. lia. Qed.

(** **** Reconnection *)

Lemma closeSocket_frame id w :
  this (closeSocket id w) = this w /\
  scheduled (closeSocket id w) = scheduled w /\
  timers (closeSocket id w) = timers w.
Proof.
  unfold closeSocket. destruct (sockets w !! id) as [s|]; [|done].
  by destruct (readyState s).
Qed.













(** What a dispatch invokes when no handler of the type unsubscribes
    while it runs. *)
Lemma dispatch_invokes_all w message :
  noRemoval handlerBody message (handlersOf w (type message)) = true ->
  invokedSince w (handleMessage handlerBody (Some message) w) =
    (fun h => (h, message)) <$> handlersOf w (type message).
Proof.
  intros Hwb. unfold invokedSince, handleMessage, tryCatch.
  destruct (eventHandlers (this w) !! type message) as [hs|] eqn:Hl.
  - assert (handlersOf w (type message) = hs) as Hh
      by (unfold handlersOf; by rewrite Hl).
    rewrite Hh in *.
    pose proof (forEach_dispatch message hs (length hs) 0 w [] Hwb) as H.
    rewrite app_nil_r in H. specialize (H Hh eq_refl). cbv zeta in H.
    destruct H as (Hn & Hinv & _).
    destruct (forEach _ _ _ _ _) as [w' c]. simpl in *. subst c.
    simpl. rewrite Hinv. by rewrite drop_app_length.
  - assert (handlersOf w (type message) = []) as ->
      by (unfold handlersOf; by rewrite Hl).
    simpl. by rewrite drop_all.
Qed.

(** C8, as amended.  For every parsed inbound message, if none of the
    handlers registered for its type unsubscribes a handler of that type
    while it handles the message, then dispatch calls every handler that is
    registered for the type when dispatch starts, once per registration and
    in subscription order.  Which of the handlers throw is left arbitrary:
    a handler that throws stops neither the handlers after it nor the
    dispatch. *)
Theorem dispatch_reaches_every_handler w message :
  noRemoval handlerBody message (handlersOf w (type message)) = true ->
  invokedSince w (handleMessage handlerBody (Some message) w) =
    (fun h => (h, message)) <$> handlersOf w (type message).
Proof. apply dispatch_invokes_all. Qed.

(** C9, as amended.  Registering the same callback twice for one event type
    appends it twice to the array of that type, and a dispatched message of
    the type then calls it once per registration, hence twice more than
    before (under the same proviso as for dispatch: no handler of the type
    unsubscribes during the dispatch). *)
Theorem double_registration_invokes_twice w eventType handler message :
  type message = eventType ->
  let w2 := addEventListener eventType handler
              (addEventListener eventType handler w) in
  noRemoval handlerBody message (handlersOf w2 eventType) = true ->
  handlersOf w2 eventType = handlersOf w eventType ++ [handler; handler] /\
  occurrences handler
    (fst <$> invokedSince w2 (handleMessage handlerBody (Some message) w2))
  = (occurrences handler (handlersOf w eventType) + 2)%nat.
Proof.
  intros <- w2 Hwb.
  assert (handlersOf w2 (type message) =
          handlersOf w (type message) ++ [handler; handler]) as Hh.
  { subst w2. rewrite !handlersOf_add.
    rewrite decide_True by done. by rewrite <- app_assoc. }
  split; [done|].
  rewrite dispatch_invokes_all by done.
  rewrite fst_tagged, Hh, occurrences_app. simpl. rewrite decide_True by done. lia.
Qed.

End WithHandlers.

(** C8, counterexample.  Handlers 0 and 1 are registered for "typing", in
    that order; handler 0 unsubscribes itself while it runs.  [splice]
    moves handler 1 to index 0 of the array that [forEach] is walking, index
    1 no longer exists when [forEach] gets to it, and handler 1, registered
    before and after the dispatch, is never called. *)
Lemma dispatch_skips_handler_counterexample :
  let w' := handleMessage oneShot (Some typingMessage) twoHandlers in
  handlersOf twoHandlers "typing" = [0; 1]%nat /\
  handlersOf w' "typing" = [1%nat] /\
  invokedSince twoHandlers w' = [(0%nat, typingMessage)] /\
  invokedSince twoHandlers w' <>
    (fun h => (h, typingMessage)) <$> handlersOf twoHandlers "typing".
Proof. vm_compute. repeat split; congruence. Qed.

Lemma dispatch_reaches_every_handler_witness :
  noRemoval faulty typingMessage (handlersOf twoHandlers "typing") = true /\
  invokedSince twoHandlers (handleMessage faulty (Some typingMessage) twoHandlers)
    = [(0%nat, typingMessage); (1%nat, typingMessage)].
Proof.
  split; [reflexivity|].
  exact (dispatch_reaches_every_handler faulty twoHandlers typingMessage eq_refl).
Defined.

(** C9, counterexample.  The same callback registered twice for "typing"
    is called twice by one dispatched "typing" message. *)
Lemma double_registration_counterexample :
  handlersOf registeredTwice "typing" = [7; 7]%nat /\
  invokedSince registeredTwice
    (handleMessage quiet (Some typingMessage) registeredTwice)
    = [(7%nat, typingMessage); (7%nat, typingMessage)].
Proof. vm_compute. done. Qed.

Lemma double_registration_invokes_twice_witness :
  type typingMessage = "typing" /\
  noRemoval quiet typingMessage (handlersOf registeredTwice "typing") = true /\
  occurrences 7
    (fst <$> invokedSince registeredTwice
       (handleMessage quiet (Some typingMessage) registeredTwice))
  = (occurrences 7 (handlersOf initial "typing") + 2)%nat.
Proof.
  split; [reflexivity|]. split; [reflexivity|].
  exact (proj2 (double_registration_invokes_twice quiet initial "typing" 7
    typingMessage eq_refl eq_refl)).
Defined.

(** Scenario A on the concrete run: the five reconnects are scheduled after
    1, 2, 4, 8 and 16 seconds, the sixth loss of connection schedules
    nothing, and the counter stands at the maximum. *)
Example scenarioA_delays :
  let w := run quiet opened0 scenarioA in
  scheduled w = [1000; 2000; 4000; 8000; 16000] /\
  reconnectAttempts (this w) = 5 /\
  forallb (fun t => match t with ConnectTimeout _ => true | _ => false end)
    (timers w) = true.
Proof. vm_compute. done. Qed.

(** [disconnect()] does not cancel a reconnect timer that is already
    pending: the timer scheduled by the close before the disconnect still
    fires afterwards and creates a new socket. *)
Example pending_timer_outlives_disconnect :
  let w := run quiet opened0 [EClose 0 1006; EDisconnect] in
  timers w = [ConnectTimeout 10000; ReconnectTimer 1000] /\
  length (sockets w) = 1%nat /\
  socketState (step quiet w (ETimer 1 (Some "token"))) 1 = Some CONNECTING.
Proof. vm_compute. done. Qed.




(** C7.  [send] on a manager that is not connected returns [false] and
    leaves the whole world as it was: nothing is handed to any socket,
    nothing is stored for later, no field changes. *)
Theorem send_while_not_connected message w :
  isConnected w = false -> send message w = (w, false).
Proof. intros H. unfold send. by rewrite H. Qed.

Lemma send_while_not_connected_witness :
  isConnected connected0 = false /\
  send {| type := "typing"; data := "x" |} connected0 = (connected0, false).
Proof.
  split; [reflexivity|]. by apply send_while_not_connected.
Defined.

End WebSocketManagerFacts.

(** ** Properties of the WebRTC service *)

Module WebRTCServiceFacts.
Import WebRTCService.

(** Case analysis on the event of a turn, with the arguments named. *)
Ltac by_event e :=
  destruct e as [ps t g r o|c j g o|en|c t j g o|c en|s|s|c cr t
                |sock frame|sock|pc rs|pc c s|pc b]; simpl.

(** *** The operations chain *)

Lemma rtc_world_eta (w : World) : set_connections (connections w) w = w.
Proof. by destruct w. Qed.

Lemma sendSignalingMessage_frame message w :
  this (sendSignalingMessage message w) = this w /\
  connections (sendSignalingMessage message w) = connections w.
Proof. unfold sendSignalingMessage. by repeat case_match. Qed.

Lemma harmless_id : harmless (fun pc => pc).
Proof. done. Qed.

Lemma harmless_advance : harmless advance.
Proof. done. Qed.

Lemma harmless_compose f g : harmless f -> harmless g -> harmless (f ∘ g).
Proof.
  intros Hf Hg pc. unfold compose.
  destruct (Hf (g pc)) as (-> & -> & ->). apply Hg.
Qed.

Lemma harmless_push_operation op :
  candidateOf op = None -> harmless (push_operation op).
Proof.
  intros H pc. simpl. rewrite omap_app. simpl. rewrite H.
  by rewrite app_nil_r.
Qed.

(** What a chained call does: nothing, or the operation is appended to the
    chain of that one connection. *)
Lemma enqueue_alter id op w :
  exists f, (f = (fun pc => pc) \/ f = push_operation op) /\
    fst (enqueue id op w) = set_connections (alter f id (connections w)) w.
Proof.
  unfold enqueue. destruct (connections w !! id) as [pc|] eqn:Hpc.
  - destruct (closed pc); simpl; [|by eauto].
    exists (fun pc => pc). split; [by left|].
    rewrite list_alter_id by done. by rewrite rtc_world_eta.
  - exists (fun pc => pc). split; [by left|]. simpl.
    rewrite list_alter_id by done. by rewrite rtc_world_eta.
Qed.

Lemma enqueue_harmless id op w :
  candidateOf op = None ->
  exists f, harmless f /\
    fst (enqueue id op w) = set_connections (alter f id (connections w)) w.
Proof.
  intros H. destruct (enqueue_alter id op w) as (f & [-> | ->] & Hf);
    eexists; (split; [|exact Hf]);
    [apply harmless_id|by apply harmless_push_operation].
Qed.

(** What the settling of an operation does: one harmless change of that
    one connection, after which the answer message may be handed to
    [sendSignalingMessage]. *)
Lemma settle_alter id b w :
  exists f, harmless f /\
    (settle id b w = set_connections (alter f id (connections w)) w \/
     exists m, settle id b w =
       sendSignalingMessage m (set_connections (alter f id (connections w)) w)).
Proof.
  assert (exists f, harmless f /\
            w = set_connections (alter f id (connections w)) w) as Hsame.
  { exists (fun pc => pc). split; [apply harmless_id|].
    rewrite list_alter_id by done. by rewrite rtc_world_eta. }
  assert (forall f g, harmless f -> harmless g ->
    exists h, harmless h /\
      set_connections
        (alter g id (connections (set_connections (alter f id (connections w)) w)))
        (set_connections (alter f id (connections w)) w) =
      set_connections (alter h id (connections w)) w) as Htwice.
  { intros f g Hf Hg. exists (g ∘ f). split; [by apply harmless_compose|].
    simpl. by rewrite list_alter_alter_eq. }
  assert (forall f op, harmless f -> candidateOf op = None ->
    exists h, harmless h /\
      fst (enqueue id op (set_connections (alter f id (connections w)) w)) =
      set_connections (alter h id (connections w)) w) as Henq.
  { intros f op Hf Hop.
    destruct (enqueue_harmless id op
      (set_connections (alter f id (connections w)) w) Hop) as (g & Hg & ->).
    by apply Htwice. }
  unfold settle.
  destruct (connections w !! id) as [pc|]; [|destruct Hsame as (f & ? & ?); eauto].
  destruct (closed pc); [destruct Hsame as (f & ? & ?); eauto|].
  destruct (operations pc !! settled pc) as [op|];
    [|destruct Hsame as (f & ? & ?); eauto].
  assert (forall d, harmless (fun p => set_remoteDescription d (advance p)))
    as Hr by done.
  assert (forall d, harmless (fun p => set_localDescription d (advance p)))
    as Hl by done.
  assert (forall c, harmless (fun p => push_candidate c (advance p)))
    as Hc by done.
  destruct op as [d| |d|c].
  - destruct (accepts b); [|by eauto using harmless_advance].
    destruct (sdpType d); [|by eauto].
    destruct (Henq _ OpCreateAnswer (Hr d) eq_refl) as (h & Hh & ->). eauto.
  - destruct (accepts b); [|by eauto using harmless_advance].
    destruct (Henq _ (OpSetLocalDescription
      {| sdpType := answer; sdpText := answerSdp b |}) harmless_advance eq_refl)
      as (h & Hh & ->). eauto.
  - destruct (accepts b); [|by eauto using harmless_advance]. eauto.
  - destruct (remoteDescription pc); [|by eauto using harmless_advance].
    destruct (accepts b); eauto using harmless_advance.
Qed.

Lemma settle_this id b w : this (settle id b w) = this w.
Proof.
  destruct (settle_alter id b w) as (f & _ & [-> | [m ->]]); [done|].
  by rewrite (proj1 (sendSignalingMessage_frame _ _)).
Qed.

Lemma settle_connections id b w :
  exists f, harmless f /\
    connections (settle id b w) = alter f id (connections w).
Proof.
  destruct (settle_alter id b w) as (f & Hf & [-> | [m ->]]);
    exists f; (split; [done|]); [done|].
  by rewrite (proj2 (sendSignalingMessage_frame _ _)).
Qed.

(** *** The field [ws] is never assigned *)

Lemma sendSignalingMessage_no_ws message w :
  ws (this w) = None -> sendSignalingMessage message w = w.
Proof. unfold sendSignalingMessage. by intros ->. Qed.

Lemma allSent_snoc w sock :
  sent sock = [] -> allSent (set_sockets (sockets w ++ [sock]) w) = allSent w.
Proof.
  intros H. unfold allSent. simpl.
  by rewrite fmap_app, concat_app, (fmap_cons sent), H, app_nil_r.
Qed.

Lemma allSent_set_readyState w id r :
  allSent (set_sockets (alter (set_readyState r) id (sockets w)) w) = allSent w.
Proof.
  unfold allSent. simpl. f_equal.
  rewrite (list_fmap_alter sent (set_readyState r) (fun x => x))
    by (by apply Forall_forall).
  by rewrite list_alter_id.
Qed.

Lemma quietly_refl w : ws (this w) = None -> quietly w w.
Proof. done. Qed.

Lemma quietly_trans w1 w2 w3 : quietly w1 w2 -> quietly w2 w3 -> quietly w1 w3.
Proof. intros [? ?] [? ?]. split; congruence. Qed.

Lemma updateState_quietly f w : ws (this w) = None -> quietly w (updateState f w).
Proof. done. Qed.

Lemma getLocalStream_quietly v g w :
  ws (this w) = None -> quietly w (fst (getLocalStream v g w)).
Proof. unfold getLocalStream. by destruct g. Qed.

Lemma connectSignaling_quietly c o w :
  ws (this w) = None -> quietly w (fst (connectSignaling c o w)).
Proof.
  intros H. unfold connectSignaling, quietly. simpl. split; [done|].
  by apply (allSent_snoc w).
Qed.

Lemma initiateCall_quietly ps t g r o w :
  ws (this w) = None -> quietly w (fst (initiateCall ps t g r o w)).
Proof.
  intros H. unfold initiateCall.
  pose proof (getLocalStream_quietly (bool_decide (t = video)) g w H) as H1.
  destruct (getLocalStream _ g w) as [w1 []]; cbn [fst] in H1; [|exact H1].
  destruct r as [c|]; [|exact H1].
  set (w2 := updateState _ w1).
  assert (quietly w w2) as H2
    by (eapply quietly_trans; [exact H1|]; apply updateState_quietly, H1).
  pose proof (connectSignaling_quietly c o w2 (proj1 H2)) as H3.
  destruct (connectSignaling c o w2) as [w3 []]; cbn [fst] in *;
    eapply quietly_trans; eauto.
Qed.

Lemma joinCall_quietly c j g o w :
  ws (this w) = None -> quietly w (fst (joinCall c j g o w)).
Proof.
  intros H. unfold joinCall. destruct j; [|done].
  match goal with |- context [getLocalStream ?v g w] =>
    pose proof (getLocalStream_quietly v g w H) as H1;
    destruct (getLocalStream v g w) as [w1 []] end; cbn [fst] in H1;
    [|exact H1].
  set (w2 := updateState _ w1).
  assert (quietly w w2) as H2
    by (eapply quietly_trans; [exact H1|]; apply updateState_quietly, H1).
  eapply quietly_trans; [exact H2|].
  apply connectSignaling_quietly. apply H2.
Qed.

Lemma cleanup_quietly w : ws (this w) = None -> quietly w (cleanup w).
Proof.
  intros H. unfold cleanup.
  destruct (localStream (this w)); simpl; rewrite H; done.
Qed.

Lemma endCall_quietly ended w : ws (this w) = None -> quietly w (endCall ended w).
Proof.
  intros H. unfold endCall.
  destruct (if truthy _ then _ else _);
    [eapply quietly_trans; [by apply cleanup_quietly|] |by apply cleanup_quietly].
  apply updateState_quietly. by apply cleanup_quietly.
Qed.

Lemma toggleMute_quietly s w : ws (this w) = None -> quietly w (toggleMute s w).
Proof.
  intros H. unfold toggleMute. repeat case_match; try done.
  by rewrite sendSignalingMessage_no_ws.
Qed.

Lemma toggleVideo_quietly s w : ws (this w) = None -> quietly w (toggleVideo s w).
Proof.
  intros H. unfold toggleVideo. repeat case_match; try done.
  by rewrite sendSignalingMessage_no_ws.
Qed.

Lemma handleSignalingMessage_quietly m w :
  ws (this w) = None -> quietly w (fst (handleSignalingMessage m w)).
Proof.
  intros H. unfold handleSignalingMessage, handleOffer, handleAnswer,
    handleIceCandidate, enqueue, getOrCreatePeerConnection.
  repeat case_match; simplify_eq/=; done.
Qed.

Lemma settle_quietly id b w :
  ws (this w) = None -> quietly w (settle id b w).
Proof.
  intros H. destruct (settle_alter id b w) as (f & _ & [-> | [m ->]]); [done|].
  by rewrite sendSignalingMessage_no_ws.
Qed.

Lemma step_quietly w e : ws (this w) = None -> quietly w (step w e).
Proof.
  intros H. by_event e.
  - by apply initiateCall_quietly.
  - by apply joinCall_quietly.
  - by apply endCall_quietly.
  - unfold acceptIncomingCall.
    match goal with |- quietly _ (fst (joinCall _ _ _ _ ?w2)) =>
      apply (quietly_trans w w2);
        [by apply updateState_quietly | by apply joinCall_quietly]
    end.
  - unfold declineIncomingCall.
    destruct en; [by apply updateState_quietly | by apply quietly_refl].
  - by apply toggleMute_quietly.
  - by apply toggleVideo_quietly.
  - done.
  - case_bool_decide; [|done]. destruct frame; [|done].
    by apply handleSignalingMessage_quietly.
  - destruct (socketState w sock) as [[]|]; try done;
      (split; [done|]; apply allSent_set_readyState).
  - repeat case_match; done.
  - unfold onicecandidate. repeat case_match; try done;
      by rewrite sendSignalingMessage_no_ws.
  - by apply settle_quietly.
Qed.

(** No method assigns [ws]: it is unset in every state the service can
    reach, and the service has then never handed a message to a socket. *)
Lemma ws_never_assigned es :
  ws (this (run initial es)) = None /\ allSent (run initial es) = [].
Proof.
  assert (forall w, ws (this w) = None -> quietly w (run w es)) as H.
  { induction es as [|e es IH]; intros w Hw; [done|].
    change (run w (e :: es)) with (run (step w e) es).
    pose proof (step_quietly w e Hw) as H1.
    eapply quietly_trans; [exact H1|]. apply IH, H1. }
  apply (H initial). done.
Qed.

(** *** ICE candidates *)

Lemma established_ext w w' userId id cands :
  peerConnections (this w') = peerConnections (this w) ->
  connections w' = connections w ->
  established w userId id cands -> established w' userId id cands.
Proof. unfold established. by intros -> ->. Qed.

Lemma established_alter f id' w userId id cands :
  harmless f ->
  established w userId id cands ->
  established (set_connections (alter f id' (connections w)) w) userId id cands.
Proof.
  intros Hf (Hu & Hinj & pc & Hpc & Hc & Hcs).
  split; [done|]. split; [done|]. simpl.
  destruct (decide (id' = id)) as [->|Hne].
  - exists (f pc). rewrite list_lookup_alter_eq, Hpc.
    destruct (Hf pc) as (-> & _ & ->). auto.
  - exists pc. by rewrite list_lookup_alter_ne.
Qed.

Lemma established_alter_other f id' w userId id cands :
  id' <> id ->
  established w userId id cands ->
  established (set_connections (alter f id' (connections w)) w) userId id cands.
Proof.
  intros Hne (Hu & Hinj & pc & Hpc & Hc & Hcs).
  split; [done|]. split; [done|]. simpl.
  exists pc. by rewrite list_lookup_alter_ne.
Qed.

Lemma established_getOrCreate u w userId id cands :
  established w userId id cands ->
  established (fst (getOrCreatePeerConnection u w)) userId id cands /\
  (snd (getOrCreatePeerConnection u w) = id -> u = userId).
Proof.
  intros (Hu & Hinj & pc & Hpc & Hc & Hcs).
  unfold getOrCreatePeerConnection.
  destruct (peerConnections (this w) !! u) as [id'|] eqn:Hl; simpl.
  - split; [|by intros ->; apply Hinj]. repeat split; eauto.
  - pose proof (lookup_lt_Some _ _ _ Hpc) as Hlt.
    split; [|intros; lia].
    assert (u <> userId) as Hne by congruence.
    unfold established. simpl.
    split; [by rewrite lookup_insert_ne|]. split.
    + intros u'. destruct (decide (u = u')) as [->|Hne'].
      * rewrite lookup_insert_eq. intros [= Heq]. lia.
      * rewrite lookup_insert_ne by done. apply Hinj.
    + exists pc. by rewrite lookup_app_l.
Qed.

(** A chained call made for [u] is put on the connection of [userId] only
    if [u] is [userId]; a call that is not [addIceCandidate] leaves the
    candidates that were passed as they are. *)
Lemma established_enqueue id' op w userId id cands :
  (id' = id -> candidateOf op = None) ->
  established w userId id cands ->
  established (fst (enqueue id' op w)) userId id cands.
Proof.
  intros Hop H. destruct (enqueue_alter id' op w) as (f & [-> | ->] & ->).
  - apply established_alter; [apply harmless_id|done].
  - destruct (decide (id' = id)) as [->|Hne].
    + apply established_alter; [|done]. apply harmless_push_operation. auto.
    + by apply established_alter_other.
Qed.

Lemma established_handleOffer u sdp w userId id cands :
  established w userId id cands ->
  established (fst (handleOffer u sdp w)) userId id cands.
Proof.
  intros H. unfold handleOffer.
  destruct (established_getOrCreate u w userId id cands H) as [H1 _].
  destruct (getOrCreatePeerConnection u w) as [w1 id']. simpl in H1.
  by apply established_enqueue.
Qed.

Lemma established_handleAnswer u sdp w userId id cands :
  established w userId id cands ->
  established (fst (handleAnswer u sdp w)) userId id cands.
Proof.
  intros H. unfold handleAnswer.
  destruct (peerConnections (this w) !! u) as [id'|]; [|done].
  by apply established_enqueue.
Qed.

(** A candidate of the user of an established connection, from which an
    [RTCIceCandidate] can be built, is passed to that connection; a
    candidate of anybody else is not. *)
Lemma established_handleIceCandidate u c w userId id cands :
  established w userId id cands ->
  established (fst (handleIceCandidate u c w)) userId id
    (cands ++ if decide (u = userId)
              then (if constructible c then [c] else []) else []).
Proof.
  intros H. pose proof H as (Hu & Hinj & pc & Hpc & Hc & Hcs).
  unfold handleIceCandidate.
  destruct (decide (u = userId)) as [->|Hne].
  - rewrite Hu. destruct (constructible c); [|by rewrite app_nil_r].
    unfold enqueue. rewrite Hpc, Hc. simpl.
    split; [done|]. split; [done|]. simpl.
    exists (push_operation (OpAddIceCandidate c) pc).
    rewrite list_lookup_alter_eq, Hpc. simpl.
    rewrite omap_app, Hcs. auto.
  - rewrite app_nil_r.
    destruct (peerConnections (this w) !! u) as [id'|] eqn:Hl; [|done].
    assert (id' <> id) as Hid by (intros ->; by apply Hne, Hinj).
    destruct (constructible c); [|done].
    destruct (enqueue_alter id' (OpAddIceCandidate c) w) as (f & _ & ->).
    by apply established_alter_other.
Qed.

Lemma candidateFor_ice userId u c m :
  truthy (user_id m) = true -> default "" (user_id m) = u ->
  type m = "ice-candidate" -> candidate m = Some c ->
  candidateFor userId m =
    if decide (u = userId)
    then (if constructible c then Some c else None) else None.
Proof.
  intros Ht Hu Hty Hc. unfold candidateFor. rewrite Ht, Hu, Hty, Hc. simpl.
  rewrite andb_true_r.
  destruct (decide (u = userId)) as [->|Hne].
  - by rewrite String.eqb_refl.
  - by apply String.eqb_neq in Hne as ->.
Qed.

Lemma candidateFor_other userId m :
  String.eqb (type m) "ice-candidate" = false \/ candidate m = None
  \/ truthy (user_id m) = false ->
  candidateFor userId m = None.
Proof.
  unfold candidateFor. intros [-> | [-> | ->]];
    rewrite ?andb_false_r; simpl; try done. by case_match.
Qed.

Lemma established_onmessage m w userId id cands :
  established w userId id cands ->
  established (onmessage (Some m) w) userId id
    (cands ++ from_option (fun c => [c]) [] (candidateFor userId m)).
Proof.
  intros H. unfold onmessage, handleSignalingMessage.
  destruct (truthy (user_id m)) eqn:Htr; simpl.
  2:{ rewrite candidateFor_other by auto. simpl. by rewrite app_nil_r. }
  destruct (String.eqb (type m) "offer") eqn:E1.
  { apply String.eqb_eq in E1.
    rewrite candidateFor_other by (left; by rewrite E1).
    simpl. rewrite app_nil_r.
    destruct (truthy (sdp m)); [by apply established_handleOffer|done]. }
  destruct (String.eqb (type m) "answer") eqn:E2.
  { apply String.eqb_eq in E2.
    rewrite candidateFor_other by (left; by rewrite E2).
    simpl. rewrite app_nil_r.
    destruct (truthy (sdp m)); [by apply established_handleAnswer|done]. }
  destruct (String.eqb (type m) "ice-candidate") eqn:E3.
  { apply String.eqb_eq in E3.
    destruct (candidate m) as [c|] eqn:Hc.
    - rewrite (candidateFor_ice userId (default "" (user_id m)) c) by done.
      pose proof (established_handleIceCandidate
        (default "" (user_id m)) c w userId id cands H) as H'.
      destruct (decide (default "" (user_id m) = userId)); [|done].
      by destruct (constructible c).
    - rewrite candidateFor_other by auto. simpl. by rewrite app_nil_r. }
  rewrite candidateFor_other by auto. simpl. rewrite app_nil_r.
  repeat case_match; simpl; try done;
    (eapply established_ext; [| |exact H]; done).
Qed.

Lemma established_settle id' b w userId id cands :
  established w userId id cands ->
  established (settle id' b w) userId id cands.
Proof.
  intros H. destruct (settle_alter id' b w) as (f & Hf & [-> | [m ->]]).
  - by apply established_alter.
  - match goal with |- established (sendSignalingMessage ?m ?w3) _ _ _ =>
      destruct (sendSignalingMessage_frame m w3) as [Ht Hcn];
      apply (established_ext w3); [by rewrite Ht | done |] end.
    by apply established_alter.
Qed.

Lemma established_receive arrivals : forall w userId id cands,
  established w userId id cands ->
  established (receive arrivals w) userId id
    (cands ++ candidatesFor userId arrivals).
Proof.
  induction arrivals as [|a arrivals IH]; intros w userId id cands H.
  - simpl. by rewrite app_nil_r.
  - change (receive (a :: arrivals) w) with (receive arrivals (arrive w a)).
    destruct a as [m|id' b]; simpl.
    + apply (established_onmessage m) in H. apply IH in H.
      rewrite <- app_assoc in H. unfold candidatesFor. simpl.
      by destruct (candidateFor userId m).
    + apply (established_settle id' b) in H. by apply IH in H.
Qed.

(** **** The order in which the browser applies what it is passed *)

Lemma orderly_spec pc :
  orderly pc = true <->
  (settled pc <= length (operations pc))%nat /\
  remoteCandidates pc = omap candidateOf (take (settled pc) (operations pc)) /\
  (is_Some (remoteDescription pc) \/
   settled pc = O /\
   exists d ops, operations pc = OpSetRemoteDescription d :: ops).
Proof.
  unfold orderly.
  rewrite !andb_true_iff, orb_true_iff, andb_true_iff, Nat.leb_le,
    bool_decide_eq_true, Nat.eqb_eq.
  split.
  - intros [[H1 H2] H3]. split; [done|]. split; [done|].
    destruct H3 as [H3|[H3 H4]].
    + left. destruct (remoteDescription pc); [eauto|done].
    + right. split; [done|].
      destruct (operations pc) as [|[] ?]; try done. eauto.
  - intros (H1 & H2 & H3). split; [done|].
    destruct H3 as [[d Hd]|[H3 (d & ops & H4)]].
    + left. by rewrite Hd.
    + right. by rewrite H4.
Qed.

Lemma orderly_push op pc :
  orderly pc = true -> orderly (push_operation op pc) = true.
Proof.
  rewrite !orderly_spec. simpl. intros (H1 & H2 & H3).
  split; [rewrite length_app; lia|]. split.
  - by rewrite take_app_le.
  - destruct H3 as [H3|[H3 (d & ops & H4)]]; [by left|].
    right. split; [done|]. rewrite H4. simpl. eauto.
Qed.

(** An operation other than the first [setRemoteDescription] finds a remote
    description applied. *)
Lemma orderly_remote pc op :
  orderly pc = true -> operations pc !! settled pc = Some op ->
  (forall d, op <> OpSetRemoteDescription d) ->
  is_Some (remoteDescription pc).
Proof.
  rewrite orderly_spec. intros (_ & _ & [H|[H0 (d & ops & Hops)]]) Hop Hne;
    [done|].
  rewrite H0, Hops in Hop. simpl in Hop. injection Hop as <-.
  by destruct (Hne d).
Qed.

Lemma orderly_settled f pc op :
  orderly pc = true -> operations pc !! settled pc = Some op ->
  operations (f pc) = operations pc ->
  settled (f pc) = S (settled pc) ->
  remoteCandidates (f pc) =
    remoteCandidates pc ++ from_option (fun c => [c]) [] (candidateOf op) ->
  is_Some (remoteDescription (f pc)) ->
  orderly (f pc) = true.
Proof.
  rewrite !orderly_spec. intros (H1 & H2 & _) Hop Ho Hs Hr Hd.
  rewrite Ho, Hs, Hr, H2.
  split; [by apply lookup_lt_Some in Hop|]. split; [|by left].
  rewrite (take_S_r _ _ _ Hop), omap_app. simpl.
  by destruct (candidateOf op).
Qed.

Lemma orderly_settle id b w :
  accepts b = true -> orderlyAt w id = true ->
  orderlyAt (settle id b w) id = true.
Proof.
  unfold orderlyAt, settle. intros Hb.
  destruct (connections w !! id) as [pc|] eqn:Hpc; [|done]. simpl.
  intros Ho. destruct (closed pc) eqn:Hcl; [by rewrite Hpc|].
  destruct (operations pc !! settled pc) as [op|] eqn:Hop; [|by rewrite Hpc].
  rewrite Hb. destruct op as [d| |d|c].
  - assert (orderly (set_remoteDescription d (advance pc)) = true) as H1.
    { apply (orderly_settled (fun p => set_remoteDescription d (advance p))
               pc _ Ho Hop); simpl; eauto using app_nil_r. }
    destruct (sdpType d).
    + unfold enqueue. simpl. rewrite list_lookup_alter_eq, Hpc. simpl.
      rewrite Hcl. simpl. rewrite !list_lookup_alter_eq, Hpc. simpl.
      by apply orderly_push.
    + simpl. by rewrite list_lookup_alter_eq, Hpc.
  - assert (orderly (advance pc) = true) as H1.
    { apply (orderly_settled advance pc _ Ho Hop); simpl;
        eauto using app_nil_r.
      by apply (orderly_remote pc OpCreateAnswer). }
    unfold enqueue. simpl. rewrite list_lookup_alter_eq, Hpc. simpl.
    rewrite Hcl. simpl. rewrite !list_lookup_alter_eq, Hpc. simpl.
    by apply orderly_push.
  - rewrite (proj2 (sendSignalingMessage_frame _ _)). simpl.
    rewrite list_lookup_alter_eq, Hpc. simpl.
    apply (orderly_settled (fun p => set_localDescription d (advance p))
             pc _ Ho Hop); simpl; eauto using app_nil_r.
    by apply (orderly_remote pc (OpSetLocalDescription d)).
  - destruct (orderly_remote pc (OpAddIceCandidate c) Ho Hop) as [d Hd];
      [done|]. rewrite Hd. simpl.
    rewrite list_lookup_alter_eq, Hpc. simpl.
    apply (orderly_settled (fun p => push_candidate c (advance p))
             pc _ Ho Hop); simpl; eauto.
Qed.

(** What an inbound message does to a connection that exists: nothing, or
    one more operation on its chain. *)
Lemma onmessage_lookup m w id pc :
  connections w !! id = Some pc ->
  connections (onmessage (Some m) w) !! id = Some pc \/
  exists op, connections (onmessage (Some m) w) !! id =
               Some (push_operation op pc).
Proof.
  intros Hpc.
  assert (forall id' op w1, connections w1 !! id = Some pc ->
    connections (fst (enqueue id' op w1)) !! id = Some pc \/
    exists op', connections (fst (enqueue id' op w1)) !! id =
                  Some (push_operation op' pc)) as Henq.
  { intros id' op w1 H1.
    destruct (enqueue_alter id' op w1) as (f & [-> | ->] & ->); simpl.
    - left. by rewrite list_alter_id.
    - destruct (decide (id' = id)) as [->|Hne].
      + right. exists op. by rewrite list_lookup_alter_eq, H1.
      + left. by rewrite list_lookup_alter_ne. }
  unfold onmessage, handleSignalingMessage, handleOffer, handleAnswer,
    handleIceCandidate.
  repeat case_match; simpl; auto.
  match goal with H : getOrCreatePeerConnection ?u w = (?w1, ?i) |- _ =>
    apply Henq; replace w1 with (fst (getOrCreatePeerConnection u w))
      by (by rewrite H) end.
  unfold getOrCreatePeerConnection. case_match; simpl; [done|].
  by apply lookup_app_l_Some.
Qed.

Lemma orderly_arrive a w id :
  match a with
  | Settled pc b => pc = id -> accepts b = true
  | Message _ => True
  end ->
  orderlyAt w id = true -> orderlyAt (arrive w a) id = true.
Proof.
  destruct a as [m|id' b]; intros Hb Ho.
  - change (arrive w (Message m)) with (onmessage (Some m) w).
    unfold orderlyAt in *.
    destruct (connections w !! id) as [pc|] eqn:Hpc; [|done]. simpl in Ho.
    destruct (onmessage_lookup m w id pc Hpc) as [-> | [op ->]]; simpl;
      [done|by apply orderly_push].
  - change (arrive w (Settled id' b)) with (settle id' b w).
    destruct (decide (id' = id)) as [->|Hne]; [by apply orderly_settle; auto|].
    unfold orderlyAt in *.
    destruct (settle_connections id' b w) as (f & _ & ->).
    by rewrite list_lookup_alter_ne.
Qed.

Lemma orderly_receive arrivals : forall w id,
  accepting id arrivals = true ->
  orderlyAt w id = true -> orderlyAt (receive arrivals w) id = true.
Proof.
  induction arrivals as [|a arrivals IH]; intros w id Ha Ho; [done|].
  change (receive (a :: arrivals) w) with (receive arrivals (arrive w a)).
  simpl in Ha. apply andb_prop in Ha as [Ha1 Ha2].
  apply IH; [done|]. apply orderly_arrive; [|done].
  destruct a as [m|pc b]; [done|]. intros ->.
  by rewrite Nat.eqb_refl in Ha1.
Qed.

Lemma orderly_drained w id :
  orderlyAt w id = true -> drained w id = true ->
  candidatesOf w id = passedTo w id.
Proof.
  unfold orderlyAt, drained, candidatesOf, passedTo.
  destruct (connections w !! id) as [pc|]; [|done]. simpl.
  rewrite orderly_spec, bool_decide_eq_true. intros (_ & -> & _) ->.
  by rewrite take_ge.
Qed.

(** **** The map of peer connections in reachable states *)

Lemma wellKeyed_shape w w' :
  shape w' = shape w -> wellKeyed w -> wellKeyed w'.
Proof. unfold shape, wellKeyed. intros [= -> ->]. done. Qed.

Lemma sendSignalingMessage_shape message w :
  shape (sendSignalingMessage message w) = shape w.
Proof. unfold sendSignalingMessage. by repeat case_match. Qed.

Lemma getLocalStream_shape v g w : shape (fst (getLocalStream v g w)) = shape w.
Proof. unfold getLocalStream. by destruct g. Qed.

Lemma initiateCall_shape ps t g r o w :
  shape (fst (initiateCall ps t g r o w)) = shape w.
Proof.
  unfold initiateCall, getLocalStream, connectSignaling.
  destruct g; [|done]. by destruct r, o.
Qed.

Lemma joinCall_shape c j g o w : shape (fst (joinCall c j g o w)) = shape w.
Proof.
  unfold joinCall, getLocalStream, connectSignaling. by destruct j, g, o.
Qed.

Lemma toggleMute_shape s w : shape (toggleMute s w) = shape w.
Proof.
  unfold toggleMute. repeat case_match; try done.
  by rewrite sendSignalingMessage_shape.
Qed.

Lemma toggleVideo_shape s w : shape (toggleVideo s w) = shape w.
Proof.
  unfold toggleVideo. repeat case_match; try done.
  by rewrite sendSignalingMessage_shape.
Qed.

Lemma wellKeyed_cleanup w : wellKeyed (cleanup w).
Proof.
  assert (peerConnections (this (cleanup w)) = ∅) as H.
  { unfold cleanup, closeSocket. by repeat case_match. }
  intros u id Hl. by rewrite H, lookup_empty in Hl.
Qed.

Lemma wellKeyed_getOrCreate u w :
  wellKeyed w -> wellKeyed (fst (getOrCreatePeerConnection u w)).
Proof.
  intros H. unfold getOrCreatePeerConnection.
  destruct (peerConnections (this w) !! u) as [id|] eqn:Hl; [done|].
  intros u1 id1. simpl. rewrite length_app. simpl.
  destruct (decide (u = u1)) as [->|Hne].
  - rewrite lookup_insert_eq. intros [= <-]. split; [lia|].
    intros u'. destruct (decide (u1 = u')) as [->|Hne']; [done|].
    rewrite lookup_insert_ne by done. intros Hl'.
    apply H in Hl' as [Hlt _]. lia.
  - rewrite lookup_insert_ne by done. intros Hl1.
    destruct (H u1 id1 Hl1) as [Hlt Hinj]. split; [lia|].
    intros u'. destruct (decide (u = u')) as [->|Hne'].
    + rewrite lookup_insert_eq. intros [= Heq]. lia.
    + rewrite lookup_insert_ne by done. apply Hinj.
Qed.

Lemma enqueue_shape id op w : shape (fst (enqueue id op w)) = shape w.
Proof.
  destruct (enqueue_alter id op w) as (f & _ & ->). unfold shape. simpl.
  by rewrite length_alter.
Qed.

Lemma settle_shape id b w : shape (settle id b w) = shape w.
Proof.
  unfold shape. rewrite settle_this.
  destruct (settle_connections id b w) as (f & _ & ->).
  by rewrite length_alter.
Qed.

Lemma wellKeyed_handleSignalingMessage m w :
  wellKeyed w -> wellKeyed (fst (handleSignalingMessage m w)).
Proof.
  intros H. unfold handleSignalingMessage.
  repeat case_match; simpl; try done.
  - unfold handleOffer.
    pose proof (wellKeyed_getOrCreate (default "" (user_id m)) w H) as Hw1.
    destruct (getOrCreatePeerConnection _ w) as [w1 id]. simpl in Hw1.
    eapply wellKeyed_shape; [apply enqueue_shape|exact Hw1].
  - unfold handleAnswer. case_match; [|done].
    eapply wellKeyed_shape; [apply enqueue_shape|exact H].
  - unfold handleIceCandidate. repeat case_match; try done.
    eapply wellKeyed_shape; [apply enqueue_shape|exact H].
Qed.

Lemma wellKeyed_step w e : wellKeyed w -> wellKeyed (step w e).
Proof.
  intros H. by_event e.
  - eapply wellKeyed_shape; [apply initiateCall_shape|done].
  - eapply wellKeyed_shape; [apply joinCall_shape|done].
  - unfold endCall. destruct (if truthy _ then _ else _);
      [|apply wellKeyed_cleanup].
    eapply wellKeyed_shape; [|apply (wellKeyed_cleanup w)]. done.
  - unfold acceptIncomingCall.
    eapply wellKeyed_shape; [apply joinCall_shape|done].
  - unfold declineIncomingCall. by destruct en.
  - eapply wellKeyed_shape; [apply toggleMute_shape|done].
  - eapply wellKeyed_shape; [apply toggleVideo_shape|done].
  - done.
  - case_bool_decide; [|done]. destruct frame; [|done].
    by apply wellKeyed_handleSignalingMessage.
  - destruct (socketState w sock) as [[]|]; done.
  - repeat case_match; done.
  - unfold onicecandidate. repeat case_match; try done;
      (eapply wellKeyed_shape; [apply sendSignalingMessage_shape|done]).
  - eapply wellKeyed_shape; [apply settle_shape|done].
Qed.

(** In every state the service can reach, the keys of [peerConnections]
    refer to distinct peer connections. *)
Lemma reachable_wellKeyed es : wellKeyed (run initial es).
Proof.
  assert (forall w, wellKeyed w -> wellKeyed (run w es)) as H.
  { induction es as [|e es IH]; intros w Hw; [done|].
    apply (IH (step w e)), wellKeyed_step, Hw. }
  apply H. intros u id Hl. simpl in Hl. by rewrite lookup_empty in Hl.
Qed.

Lemma wellKeyed_soleOwner w userId id :
  wellKeyed w -> peerConnections (this w) !! userId = Some id ->
  soleOwner w userId id = true.
Proof.
  intros H Hl. unfold soleOwner. apply forallb_forall. intros [u i] Hin.
  apply list_elem_of_In, elem_of_map_to_list in Hin. simpl.
  destruct (Nat.eqb_spec i id) as [->|Hne]; [|done]. simpl.
  apply String.eqb_eq. by apply (H userId id Hl).
Qed.

Lemma established_intro w userId id :
  peerConnections (this w) !! userId = Some id ->
  soleOwner w userId id = true ->
  isOpen w id = true ->
  established w userId id (passedTo w id).
Proof.
  intros Hu Hsole Hopen. unfold isOpen, passedTo in *.
  destruct (connections w !! id) as [pc|] eqn:Hpc; [|done]. simpl in *.
  apply negb_true_iff in Hopen.
  split; [done|]. split.
  - intros u Hl. unfold soleOwner in Hsole. rewrite forallb_forall in Hsole.
    specialize (Hsole (u, id)). simpl in Hsole. rewrite Nat.eqb_refl in Hsole.
    apply String.eqb_eq, Hsole, list_elem_of_In.
    by apply elem_of_map_to_list.
  - by exists pc.
Qed.

Lemma established_elim w userId id cands :
  established w userId id cands ->
  peerConnections (this w) !! userId = Some id /\
  soleOwner w userId id = true /\
  isOpen w id = true /\
  passedTo w id = cands.
Proof.
  intros (Hu & Hinj & pc & Hpc & Hc & Hcs).
  unfold isOpen, passedTo. rewrite Hpc, Hu. simpl. rewrite Hc.
  split; [done|]. split; [|done].
  unfold soleOwner. apply forallb_forall. intros [u i] Hin.
  apply list_elem_of_In, elem_of_map_to_list in Hin. simpl.
  destruct (Nat.eqb_spec i id) as [->|Hne]; [|done]. simpl.
  apply String.eqb_eq. by apply Hinj.
Qed.

Lemma handleIceCandidate_unknown u c w :
  peerConnections (this w) !! u = None ->
  handleIceCandidate u c w = (w, Fulfilled).
Proof. unfold handleIceCandidate. by intros ->. Qed.

(** The connection that the first offer of a user creates. *)
Lemma handleOffer_fresh u sdp w :
  wellKeyed w -> peerConnections (this w) !! u = None ->
  let w' := fst (handleOffer u sdp w) in
  let id := length (connections w) in
  peerConnections (this w') !! u = Some id /\
  soleOwner w' u id = true /\
  isOpen w' id = true /\
  passedTo w' id = [] /\
  orderlyAt w' id = true.
Proof.
  intros Hk Hu w' id.
  assert (wellKeyed w') as Hk'.
  { subst w'. unfold handleOffer.
    pose proof (wellKeyed_getOrCreate u w Hk) as Hw1.
    destruct (getOrCreatePeerConnection u w) as [w1 i]. simpl in Hw1.
    eapply wellKeyed_shape; [apply enqueue_shape|exact Hw1]. }
  assert (peerConnections (this w') !! u = Some id /\
          exists pc, connections w' !! id = Some pc /\ closed pc = false /\
            remoteDescription pc = None /\ remoteCandidates pc = [] /\
            settled pc = O /\ exists d, operations pc = [OpSetRemoteDescription d])
    as (Hl & pc & Hpc & Hc & Hr & Hcs & Hs & d & Hops).
  { subst w' id. unfold handleOffer, getOrCreatePeerConnection. rewrite Hu.
    unfold enqueue. simpl.
    rewrite lookup_app_r by done. rewrite Nat.sub_diag. simpl.
    rewrite lookup_insert_eq. split; [done|].
    eexists. rewrite list_lookup_alter_eq.
    rewrite lookup_app_r by done. rewrite Nat.sub_diag. simpl.
    split; [done|]. simpl. eauto 10. }
  split; [done|]. split; [by apply wellKeyed_soleOwner|].
  unfold isOpen, passedTo, orderlyAt. rewrite Hpc. simpl.
  rewrite Hc, Hops. split; [done|]. split; [done|].
  apply orderly_spec. rewrite Hs, Hcs, Hops, Hr. simpl.
  split; [lia|]. split; [done|]. right. eauto.
Qed.

(** C1, as amended.  The service does not buffer ICE candidates, the
    browser does, and only from the offer on.  A candidate that arrives for
    a user for whom the service holds no peer connection (no offer of
    theirs has arrived yet) is discarded: [handleIceCandidate] leaves the
    world as it is and its promise is fulfilled.  [handleOffer] registers
    the connection before the description is applied.  From then on, over
    any sequence of inbound messages and settling operations, every
    candidate of the user from which an [RTCIceCandidate] can be built is
    passed to [addIceCandidate] of that connection on arrival, all of them
    and in arrival order.  The browser carries out what it is passed in
    that order, behind the description of the offer: as long as it accepts
    what settles on the connection, the candidates applied to it are those
    passed whose operation has settled, and when all have settled they are
    all the candidates received since the offer, in arrival order. *)
Theorem ice_candidates_passed_on_arrival w userId id arrivals :
  peerConnections (this w) !! userId = Some id ->
  soleOwner w userId id = true ->
  isOpen w id = true ->
  let w' := receive arrivals w in
  (peerConnections (this w') !! userId = Some id /\
   soleOwner w' userId id = true /\
   isOpen w' id = true /\
   passedTo w' id = passedTo w id ++ candidatesFor userId arrivals) /\
  (accepting id arrivals = true -> orderlyAt w id = true ->
   orderlyAt w' id = true /\
   (drained w' id = true ->
    candidatesOf w' id = passedTo w id ++ candidatesFor userId arrivals)) /\
  (forall w0 u c, peerConnections (this w0) !! u = None ->
     handleIceCandidate u c w0 = (w0, Fulfilled)) /\
  (forall es u sdp,
     peerConnections (this (run initial es)) !! u = None ->
     let w1 := fst (handleOffer u sdp (run initial es)) in
     let i := length (connections (run initial es)) in
     peerConnections (this w1) !! u = Some i /\
     soleOwner w1 u i = true /\
     isOpen w1 i = true /\
     passedTo w1 i = [] /\
     orderlyAt w1 i = true).
Proof.
  intros Hu Hsole Hopen w'.
  assert (peerConnections (this w') !! userId = Some id /\
          soleOwner w' userId id = true /\
          isOpen w' id = true /\
          passedTo w' id = passedTo w id ++ candidatesFor userId arrivals)
    as H1.
  { apply established_elim, established_receive.
    by apply established_intro. }
  split; [exact H1|]. split; [|split].
  - intros Ha Ho.
    pose proof (orderly_receive arrivals w id Ha Ho) as Ho'. fold w' in Ho'.
    split; [done|]. intros Hd.
    rewrite (orderly_drained w' id Ho' Hd). apply H1.
  - intros w0 u c. apply handleIceCandidate_unknown.
  - intros es u sdp Hn.
    apply handleOffer_fresh; [apply reachable_wellKeyed|done].
Qed.

(** C1, counterexample (Scenario D).  The candidate "c1" of "u3" arrives
    before any offer of "u3": the world does not change, so the candidate
    is stored nowhere.  Then the offer of "u3" arrives, and a second
    candidate "c2" while the description of the offer is still being
    applied.  When the browser has carried out everything, the description
    is applied and the connection of "u3" has been passed, and has applied,
    the candidate "c2" only: "c1", received before the remote description
    was applied, was never applied. *)
Lemma early_candidate_lost_counterexample :
  step inCall (ESignalingMessage 0 (Some (iceMessage "u3" "c1"))) = inCall /\
  peerConnections (this offered) !! "u3" = Some 0%nat /\
  ready offered "u3" = false /\
  passedTo offered 0 = [] /\
  ready answered "u3" = true /\
  drained answered 0 = true /\
  passedTo answered 0 = [iceCandidate "c2"] /\
  candidatesOf answered 0 = [iceCandidate "c2"].
Proof. vm_compute. done. Qed.

Lemma ice_candidates_passed_on_arrival_witness :
  peerConnections (this offered) !! "u3" = Some 0%nat /\
  soleOwner offered "u3" 0 = true /\
  isOpen offered 0 = true /\
  accepting 0 [Message (iceMessage "u3" "c2"); Settled 0 browser;
             Message (iceMessage "u4" "c9"); Message (offerMessage "u4" "v=0");
             Settled 0 browser; Message (iceMessage "u3" "c3")] = true /\
  orderlyAt offered 0 = true /\
  passedTo
    (receive [Message (iceMessage "u3" "c2"); Settled 0 browser;
              Message (iceMessage "u4" "c9"); Message (offerMessage "u4" "v=0");
              Settled 0 browser; Message (iceMessage "u3" "c3")] offered) 0
  = passedTo offered 0 ++ [iceCandidate "c2"; iceCandidate "c3"] /\
  orderlyAt
    (receive [Message (iceMessage "u3" "c2"); Settled 0 browser;
              Message (iceMessage "u4" "c9"); Message (offerMessage "u4" "v=0");
              Settled 0 browser; Message (iceMessage "u3" "c3")] offered) 0
  = true.
Proof.
  split; [reflexivity|]. split; [reflexivity|]. split; [reflexivity|].
  split; [reflexivity|]. split; [reflexivity|].
  pose proof (ice_candidates_passed_on_arrival offered "u3" 0
    [Message (iceMessage "u3" "c2"); Settled 0 browser;
     Message (iceMessage "u4" "c9"); Message (offerMessage "u4" "v=0");
     Settled 0 browser; Message (iceMessage "u3" "c3")]
    eq_refl eq_refl eq_refl) as H.
  exact (conj (proj2 (proj2 (proj2 (proj1 H))))
              (proj1 (proj1 (proj2 H) eq_refl eq_refl))).
Defined.

(** *** Starting a call while a call is active *)

(** C2, as amended.  Nothing guards the start of a call.  In every state,
    also one with an active call, [initiateCall] whose media request, REST
    call and signaling connection succeed resolves with the new call id and
    overwrites the call state with the new call ([callId], [isActive],
    [isIncoming], [callType], [isVideoEnabled], [localStream]); and
    [handleIncomingCall] overwrites [callId], [isIncoming], [callType],
    [isVideoEnabled] and [participants]. *)
Theorem second_call_replaces_call_state w participants callType call_id callerId :
  let c := callState (this w) in
  let r := initiateCall participants callType true (Some call_id) true w in
  snd r = Some call_id /\
  callState (this (fst r)) =
    {| CallState.callId := Some call_id;
       CallState.isActive := true;
       CallState.isIncoming := false;
       CallState.participants := CallState.participants c;
       CallState.localStream := Some (length (streams w));
       CallState.callType := callType;
       CallState.isMuted := CallState.isMuted c;
       CallState.isVideoEnabled := bool_decide (callType = video) |} /\
  callState (this (handleIncomingCall call_id callerId callType w)) =
    {| CallState.callId := Some call_id;
       CallState.isActive := CallState.isActive c;
       CallState.isIncoming := true;
       CallState.participants :=
         [{| CallParticipant.userId := callerId;
             CallParticipant.stream := None;
             CallParticipant.peerConnection := None;
             CallParticipant.isMuted := None;
             CallParticipant.isVideoEnabled := None |}];
       CallState.localStream := CallState.localStream c;
       CallState.callType := callType;
       CallState.isMuted := CallState.isMuted c;
       CallState.isVideoEnabled := bool_decide (callType = video) |}.
Proof. done. Qed.

(** C2, counterexample.  While the call "call-1" is active a second call
    is started: [initiateCall] resolves with "call-2" instead of failing,
    and the call state now names "call-2". *)
Lemma second_call_not_refused_counterexample :
  let r := initiateCall ["u3"] video true (Some "call-2") true inCall in
  CallState.isActive (callState (this inCall)) = true /\
  CallState.callId (callState (this inCall)) = Some "call-1" /\
  snd r = Some "call-2" /\
  CallState.callId (callState (this (fst r))) = Some "call-2" /\
  callState (this (fst r)) <> callState (this inCall).
Proof. vm_compute. repeat split; congruence. Qed.

(** *** Mute *)

(** C5, on the code.  In a call placed from the initial state (local audio
    track live, signaling socket open) two calls of [toggleMute] bring
    [isMuted] back to [false], but not one message has been handed to any
    socket: [sendSignalingMessage] sends on [ws], the call's socket is in
    [signalingSocket], and [ws] is unset there as in every state the service
    can reach, where two calls of [toggleMute] therefore never send
    anything. *)
Theorem toggleMute_twice_sends_nothing :
  let w := toggleMute (Some "me") (toggleMute (Some "me") inCall) in
  CallState.isMuted (callState (this inCall)) = false /\
  CallState.isMuted (callState (this (toggleMute (Some "me") inCall))) = true /\
  CallState.isMuted (callState (this w)) = false /\
  signalingSocket (this inCall) = Some 0%nat /\
  socketState inCall 0 = Some OPEN /\
  ws (this inCall) = None /\
  allSent w = [] /\
  (forall es s1 s2, allSent (toggleMute s2 (toggleMute s1 (run initial es))) = []).
Proof.
  repeat (split; [reflexivity|]).
  intros es s1 s2.
  change (toggleMute s2 (toggleMute s1 (run initial es)))
    with (run (run initial es) [EToggleMute s1; EToggleMute s2]).
  unfold run. rewrite <- foldl_app. apply ws_never_assigned.
Qed.

(** A second way in which two toggles miss the original flag: [isMuted] is
    not reset when a call ends, so a call placed after a call that ended
    muted starts with [isMuted = true] on an enabled track; the first toggle
    leaves the flag at [true], the second sets it to [false]. *)
Example toggleMute_stale_flag :
  CallState.isMuted (callState (this secondCall)) = true /\
  CallState.isMuted
    (callState (this (toggleMute None (toggleMute None secondCall)))) = false.
Proof. vm_compute. done. Qed.

(** *** End of a call *)

Lemma closeAll_lookup ids : forall conns id pc,
  conns !! id = Some pc ->
  exists pc', closeAll ids conns !! id = Some pc' /\
    (closed pc = true \/ id ∈ ids -> closed pc' = true).
Proof.
  induction ids as [|i ids IH]; intros conns id pc Hpc.
  - exists pc. split; [done|]. intros [?|Hin]; [done|]. by apply elem_of_nil in Hin.
  - change (closeAll (i :: ids) conns) with (closeAll ids (alter close i conns)).
    destruct (decide (i = id)) as [->|Hne].
    + destruct (IH (alter close id conns) id (close pc)) as (pc' & Hl & Hc).
      { by rewrite list_lookup_alter_eq, Hpc. }
      exists pc'. split; [done|]. intros _. apply Hc. by left.
    + destruct (IH (alter close i conns) id pc) as (pc' & Hl & Hc).
      { by rewrite list_lookup_alter_ne. }
      exists pc'. split; [done|]. intros [?|Hin]; apply Hc; [by left|].
      right. apply elem_of_cons in Hin as [?|?]; [congruence|done].
Qed.

Lemma cleanup_releases w :
  let w' := cleanup w in
  localStream (this w') = None /\
  (forall sid ts, localStream (this w) = Some sid -> streams w !! sid = Some ts ->
     streams w' !! sid = Some (stop <$> ts)) /\
  peerConnections (this w') = ∅ /\
  (forall u id pc, peerConnections (this w) !! u = Some id ->
     connections w !! id = Some pc ->
     exists pc', connections w' !! id = Some pc' /\ closed pc' = true) /\
  callState (this w') = callState (this w).
Proof.
  unfold cleanup.
  set (w1 := match localStream (this w) with Some _ => _ | None => _ end).
  assert (localStream (this w1) = None /\
          peerConnections (this w1) = peerConnections (this w) /\
          connections w1 = connections w /\
          callState (this w1) = callState (this w) /\
          (forall sid ts, localStream (this w) = Some sid ->
             streams w !! sid = Some ts -> streams w1 !! sid = Some (stop <$> ts)))
    as (Hls & Hpcs & Hcn & Hcs & Hst).
  { subst w1. destruct (localStream (this w)) as [sid|] eqn:Hl; simpl.
    - repeat split; try done. intros sid' ts [= <-] Hts.
      unfold MediaStream in *. by rewrite list_lookup_alter_eq, Hts.
    - repeat split; done. }
  set (w2 := set_this (set_peerConnections ∅) _).
  assert (forall u id pc, peerConnections (this w) !! u = Some id ->
     connections w !! id = Some pc ->
     exists pc', connections w2 !! id = Some pc' /\ closed pc' = true) as Hclosed.
  { intros u id pc Hu Hpc. subst w2. simpl. rewrite Hcn, Hpcs.
    destruct (closeAll_lookup (map_to_list (peerConnections (this w))).*2
                (connections w) id pc Hpc) as (pc' & Hl & Hc).
    exists pc'. split; [done|]. apply Hc. right.
    apply list_elem_of_fmap. exists (u, id). split; [done|].
    by apply elem_of_map_to_list. }
  assert (Hsock : forall i w0,
    this (closeSocket i w0) = this w0 /\ streams (closeSocket i w0) = streams w0
    /\ connections (closeSocket i w0) = connections w0).
  { intros i w0. unfold closeSocket. by repeat case_match. }
  destruct (ws (this w2)) as [i|] eqn:Hws; simpl.
  - destruct (Hsock i w2) as (Ht & Hs & Hc).
    rewrite Ht, Hs, Hc. subst w2. simpl in *. repeat split; try done.
  - subst w2. simpl in *. repeat split; try done.
Qed.

(** C10.  When there is a call to end and the REST call to end it fails,
    [endCall] still stops every track of the local stream and forgets the
    stream, closes every peer connection and empties the map of peer
    connections; the call state is left exactly as it was, so [isActive] and
    [participants] are unchanged and the call is not marked ended. *)
Theorem endCall_rest_failure w :
  truthy (CallState.callId (callState (this w))) = true ->
  let w' := endCall false w in
  localStream (this w') = None /\
  (forall sid ts, localStream (this w) = Some sid -> streams w !! sid = Some ts ->
     exists ts', streams w' !! sid = Some ts' /\ length ts' = length ts /\
       Forall (fun t => ended t = true) ts') /\
  peerConnections (this w') = ∅ /\
  (forall u id pc, peerConnections (this w) !! u = Some id ->
     connections w !! id = Some pc ->
     exists pc', connections w' !! id = Some pc' /\ closed pc' = true) /\
  callState (this w') = callState (this w) /\
  CallState.isActive (callState (this w')) = CallState.isActive (callState (this w)) /\
  CallState.participants (callState (this w')) =
    CallState.participants (callState (this w)).
Proof.
  intros Hid w'. subst w'. unfold endCall. rewrite Hid.
  destruct (cleanup_releases w) as (H1 & H2 & H3 & H4 & H5).
  split; [done|]. split; [|by rewrite H5].
  intros sid ts Hl Hts. exists (stop <$> ts).
  split; [by apply H2|]. split; [by rewrite length_fmap|].
  apply Forall_fmap, Forall_forall. done.
Qed.

Lemma endCall_rest_failure_witness :
  truthy (CallState.callId (callState (this negotiated))) = true /\
  peerConnections (this (endCall false negotiated)) = ∅ /\
  CallState.isActive (callState (this (endCall false negotiated))) =
    CallState.isActive (callState (this negotiated)).
Proof.
  split; [reflexivity|].
  pose proof (endCall_rest_failure negotiated eq_refl) as H.
  exact (conj (proj1 (proj2 (proj2 H)))
              (proj1 (proj2 (proj2 (proj2 (proj2 (proj2 H))))))).
Defined.

(** [endCall] never touches the signaling socket: whatever the outcome of
    the REST call, in a state where [ws] is unset the sockets and the
    reference to the signaling socket are unchanged. *)
Lemma endCall_keeps_signaling ended w :
  ws (this w) = None ->
  signalingSocket (this (endCall ended w)) = signalingSocket (this w) /\
  sockets (endCall ended w) = sockets w.
Proof.
  intros H. unfold endCall, cleanup.
  destruct (if truthy _ then _ else _);
    destruct (localStream (this w)); simpl; rewrite H; done.
Qed.

(** C6, on the code.  A call in which "u2" has made an offer is ended by
    [endCall] with a successful REST call: the call state is inactive, the
    peer connection is closed and forgotten.  But the signaling socket of
    the call is still referenced by [signalingSocket] and still open
    ([cleanup] closes [ws], which is unset), so the service keeps handling
    what arrives on it: a further offer of "u2" creates a new peer connection
    that is open while the call state is still inactive.  In every state the
    service can reach, [endCall] leaves every socket and the reference to the
    signaling socket as they were. *)
Theorem signaling_outlives_endCall :
  let w := step hungUp
             (ESignalingMessage 0 (Some (offerMessage "u2" "v=0 offer"))) in
  CallState.isActive (callState (this hungUp)) = false /\
  closed <$> connections hungUp = [true] /\
  peerConnections (this hungUp) = ∅ /\
  signalingSocket (this hungUp) = Some 0%nat /\
  socketState hungUp 0 = Some OPEN /\
  CallState.isActive (callState (this w)) = false /\
  peerConnections (this w) !! "u2" = Some 1%nat /\
  closed <$> connections w = [true; false] /\
  (forall es ended,
     signalingSocket (this (endCall ended (run initial es))) =
       signalingSocket (this (run initial es)) /\
     sockets (endCall ended (run initial es)) = sockets (run initial es)).
Proof.
  repeat (split; [reflexivity|]).
  intros es ended. apply endCall_keeps_signaling, ws_never_assigned.
Qed.

End WebRTCServiceFacts.

(** ** Properties of the token manager *)

Module TokenManagerFacts.
Import TokenManager.

Lemma split_nonempty sep s : split sep s <> [].
Proof.
  destruct s as [|c s]; simpl; [done|].
  destruct (Ascii.eqb c sep); [done|]. by destruct (split sep s).
Qed.

Lemma length_split sep s : length (split sep s) = S (countChar sep s).
Proof.
  induction s as [|c s IH]; simpl; [done|].
  destruct (Ascii.eqb c sep); simpl; [by rewrite IH|].
  pose proof (split_nonempty sep s).
  destruct (split sep s); simpl in *; [done|lia].
Qed.

Lemma join_split sep s : join (String sep EmptyString) (split sep s) = s.
Proof.
  induction s as [|c s IH]; simpl; [done|].
  pose proof (split_nonempty sep s) as Hne.
  destruct (Ascii.eqb_spec c sep) as [->|Hc].
  - destruct (split sep s) as [|p ps]; [done|].
    change (join (String sep "") ("" :: p :: ps))
      with (String sep (join (String sep "") (p :: ps))).
    by rewrite IH.
  - destruct (split sep s) as [|p ps]; [done|].
    destruct ps as [|p' ps]; simpl in *; by rewrite <- IH.
Qed.

Lemma split_pieces sep s :
  Forall (fun p => countChar sep p = O) (split sep s).
Proof.
  induction s as [|c s IH]; simpl; [by repeat constructor|].
  destruct (Ascii.eqb c sep) eqn:Hc; [by constructor|].
  destruct (split sep s) as [|p ps]; [repeat constructor; simpl; by rewrite Hc|].
  inversion IH as [|? ? Hp Hps]; subst.
  constructor; [|done]. simpl. by rewrite Hc, Hp.
Qed.

Lemma Qltb_lt x y : Qltb x y = true <-> (x < y)%Q.
Proof.
  unfold Qltb. rewrite negb_true_iff. split.
  - intros H. apply Qnot_le_lt. intros Hle.
    apply Qle_bool_iff in Hle. congruence.
  - intros H. destruct (Qle_bool y x) eqn:E; [|done].
    apply Qle_bool_iff in E. by apply Qlt_not_le in H.
Qed.

Lemma Qltb_ge x y : Qltb x y = false <-> (y <= x)%Q.
Proof.
  unfold Qltb. rewrite negb_false_iff. apply Qle_bool_iff.
Qed.

Section WithDecoder.
Variable decode : string -> option Json.

(** What it takes for [isTokenExpired] to answer [false]. *)
Lemma isTokenExpired_false token now :
  isTokenExpired decode token now = false <->
  exists h p g c, split dot token = [h; p; g] /\ p <> EmptyString /\
    decode p = Some (JsonValue c) /\
    (forall e, exp c = Some e -> (now <= e)%Q).
Proof.
  unfold isTokenExpired. split.
  - destruct (split dot token) as [|h [|p [|g [|x l]]]]; simpl; try done.
    unfold truthy. destruct (String.eqb_spec p ""); simpl; [done|].
    destruct (decode p) as [[|c]|] eqn:Hd; try done.
    intros He. exists h, p, g, c. repeat split; try done.
    intros e Hexp. rewrite Hexp in He. by apply Qltb_ge.
  - intros (h & p & g & c & -> & Hp & Hd & He). simpl.
    unfold truthy. apply String.eqb_neq in Hp. rewrite Hp. simpl.
    rewrite Hd. destruct (exp c) as [e|]; [|done].
    by apply Qltb_ge, He.
Qed.

Lemma getValidToken_Some s now token :
  getValidToken decode s now = Some token <->
  window s = true /\ item s = Some token /\
  isTokenExpired decode token now = false.
Proof.
  unfold getValidToken, getStoredToken, BrowserTokenStorage.getToken.
  destruct (window s); [|by split; [|intros (? & _)]].
  destruct (item s) as [t|]; [|by split; [|intros (_ & ? & _)]].
  destruct (truthy (Some t)) eqn:Ht; simpl.
  - destruct (isTokenExpired decode t now) eqn:He.
    + split; [done|]. intros (_ & [= ->] & ?). congruence.
    + split; [by intros [= ->]|]. by intros (_ & [= ->] & _).
  - split; [done|]. intros (_ & [= ->] & He).
    apply isTokenExpired_false in He as (h & p & g & c & Hs & _).
    unfold truthy in Ht. apply negb_false_iff, String.eqb_eq in Ht.
    by subst.
Qed.

Lemma getTokenPayload_Some s c :
  getTokenPayload decode s = Some c ->
  exists token h p g, getStoredToken s = Some token /\
    split dot token = [h; p; g] /\ decode p = Some (JsonValue c).
Proof.
  unfold getTokenPayload.
  destruct (getStoredToken s) as [t|]; [|done].
  destruct (negb (truthy (Some t))); [done|].
  destruct (split dot t) as [|h [|p [|g [|x l]]]] eqn:Hs; simpl; try done.
  destruct (String.eqb p ""); simpl; [done|].
  destruct (decode p) as [[|c']|] eqn:Hd; simpl; try done.
  intros [= ->]. by exists t, h, p, g.
Qed.

(** X1.  A token that [getValidToken] returns is the stored one and has the
    shape header.payload.signature: exactly two dots, a payload part that is
    not empty and decodes to a value other than [null], and no expiry time
    that lies before the current time.  So a stored token with fewer or
    more than two dots is never valid. *)
Theorem valid_token_shape s now token :
  getValidToken decode s now = Some token ->
  getStoredToken s = Some token /\
  countChar dot token = 2%nat /\
  exists h p g c,
    token = h +:+ "." +:+ p +:+ "." +:+ g /\
    countChar dot h = O /\ countChar dot p = O /\ countChar dot g = O /\
    p <> EmptyString /\
    decode p = Some (JsonValue c) /\
    (forall e, exp c = Some e -> (now <= e)%Q).
Proof.
  intros (Hw & Hi & He)%getValidToken_Some.
  apply isTokenExpired_false in He as (h & p & g & c & Hs & Hp & Hd & He).
  split; [unfold getStoredToken, BrowserTokenStorage.getToken; by rewrite Hw|].
  split.
  - pose proof (length_split dot token) as Hl. rewrite Hs in Hl.
    simpl in Hl. lia.
  - exists h, p, g, c.
    pose proof (join_split dot token) as Hj. rewrite Hs in Hj.
    pose proof (split_pieces dot token) as Hf. rewrite Hs in Hf.
    inversion Hf as [|? ? Hh Hf1]; subst. inversion Hf1 as [|? ? Hpp Hf2]; subst.
    inversion Hf2 as [|? ? Hg _]; subst.
    repeat split; done.
Qed.

(** X2.  Validity only shrinks with time: a token that is valid at some
    time is valid at every earlier time, and a stored token whose payload
    carries no usable [exp] is valid at every time. *)
Theorem token_validity_over_time s t1 t2 token :
  (t1 <= t2)%Q ->
  getValidToken decode s t2 = Some token ->
  getValidToken decode s t1 = Some token /\
  (forall c, getTokenPayload decode s = Some c -> exp c = None ->
     forall now, getValidToken decode s now = Some token).
Proof.
  intros Hle Hv. pose proof Hv as (Hw & Hi & He)%getValidToken_Some.
  pose proof He as (h & p & g & c & Hs & Hp & Hd & Hexp)%isTokenExpired_false.
  split.
  - apply getValidToken_Some. repeat split; try done.
    apply isTokenExpired_false. exists h, p, g, c. repeat split; try done.
    intros e Hc. eapply Qle_trans; [exact Hle|]. by apply Hexp.
  - intros c' Hpay Hnone now.
    apply getValidToken_Some. repeat split; try done.
    apply isTokenExpired_false. exists h, p, g, c. repeat split; try done.
    apply getTokenPayload_Some in Hpay as (t' & h' & p' & g' & Hst & Hs' & Hd').
    unfold getStoredToken, BrowserTokenStorage.getToken in Hst.
    rewrite Hw, Hi in Hst. injection Hst as <-.
    rewrite Hs in Hs'. injection Hs' as <- <- <-.
    rewrite Hd in Hd'. injection Hd' as <-.
    intros e He'. congruence.
Qed.

(** X3.  The manager's two readings of the token agree: whenever the
    payload can be read, the client is authenticated exactly when the
    payload's [exp], if it has one, is not before the current time; and an
    authenticated client always has a readable payload. *)
Theorem authenticated_iff_payload_fresh s now :
  (forall c, getTokenPayload decode s = Some c ->
     isAuthenticated decode s now =
       match exp c with Some e => negb (Qltb e now) | None => true end) /\
  (isAuthenticated decode s now = true ->
     exists c, getTokenPayload decode s = Some c).
Proof.
  unfold isAuthenticated, getValidToken, getTokenPayload, isTokenExpired.
  destruct (getStoredToken s) as [t|]; [|done].
  destruct (truthy (Some t)); simpl; [|done].
  destruct (_ || _); simpl; [done|].
  destruct (decode _) as [[|c]|]; simpl; try done.
  split.
  - intros c' [= <-]. by destruct (exp c) as [e|]; [destruct (Qltb e now)|].
  - intros _. by exists c.
Qed.

(** X4.  Storing and removing.  With [window] defined, a non-empty token
    that is stored is the token read back, whatever was stored before;
    storing the empty token throws and leaves the storage as it was; and
    after [removeToken] (or [clearAuthData]) nothing is stored, the client
    is unauthenticated at every time, has no payload, and signs its
    signaling messages as "current_user". *)
Theorem store_then_read s token :
  window s = true ->
  (token <> EmptyString ->
   snd (setToken token s) = Normal /\
   getStoredToken (fst (setToken token s)) = Some token) /\
  setToken EmptyString s = (s, Throw) /\
  getStoredToken (clearAuthData s) = None /\
  (forall now, isAuthenticated decode (removeToken s) now = false) /\
  getTokenPayload decode (removeToken s) = None /\
  senderId decode (removeToken s) = "current_user".
Proof.
  intros Hw. split; [|split; [done|]].
  - intros Hne. unfold setToken. apply String.eqb_neq in Hne. rewrite Hne.
    unfold getStoredToken, BrowserTokenStorage.getToken,
      BrowserTokenStorage.setToken. by rewrite Hw.
  - unfold senderId, isAuthenticated, getValidToken, getTokenPayload,
      clearAuthData, removeToken, getStoredToken,
      BrowserTokenStorage.getToken, BrowserTokenStorage.removeToken.
    by rewrite Hw.
Qed.

(** X5.  Without [window] (rendering on the server) the manager stores
    nothing and reads nothing: [setToken] and [removeToken] leave the
    storage as it is and the client is never authenticated. *)
Theorem no_window_no_token s token now :
  window s = false ->
  fst (setToken token s) = s /\
  removeToken s = s /\
  getStoredToken s = None /\
  isAuthenticated decode s now = false /\
  getTokenPayload decode s = None.
Proof.
  intros Hw.
  unfold setToken, removeToken, isAuthenticated, getValidToken,
    getTokenPayload, getStoredToken, BrowserTokenStorage.getToken,
    BrowserTokenStorage.setToken, BrowserTokenStorage.removeToken.
  rewrite Hw. by destruct (String.eqb token "").
Qed.

End WithDecoder.

Lemma valid_token_shape_witness :
  getValidToken sampleDecode (browserStorage (Some "h.p.s")) (1999 # 1) = Some "h.p.s" /\
  countChar dot "h.p.s" = 2%nat.
Proof.
  split; [reflexivity|].
  exact (proj1 (proj2 (valid_token_shape sampleDecode
    (browserStorage (Some "h.p.s")) (1999 # 1) "h.p.s" eq_refl))).
Defined.

Lemma token_validity_over_time_witness :
  (5 # 1 <= 1999 # 1)%Q /\
  getValidToken sampleDecode (browserStorage (Some "h.p.s")) (1999 # 1) = Some "h.p.s" /\
  getValidToken sampleDecode (browserStorage (Some "h.p.s")) (5 # 1) = Some "h.p.s".
Proof.
  assert (5 # 1 <= 1999 # 1)%Q as Hle by (unfold Qle; simpl; lia).
  split; [exact Hle|]. split; [reflexivity|].
  exact (proj1 (token_validity_over_time sampleDecode
    (browserStorage (Some "h.p.s")) (5 # 1) (1999 # 1) "h.p.s" Hle eq_refl)).
Defined.

Lemma authenticated_iff_payload_fresh_witness :
  getTokenPayload sampleDecode (browserStorage (Some "h.q.s"))
    = Some {| exp := None; sub := None |} /\
  isAuthenticated sampleDecode (browserStorage (Some "h.q.s")) (10 # 1) = true.
Proof.
  split; [reflexivity|].
  exact (proj1 (authenticated_iff_payload_fresh sampleDecode
    (browserStorage (Some "h.q.s")) (10 # 1)) _ eq_refl).
Defined.

Lemma store_then_read_witness :
  window (browserStorage (Some "old")) = true /\
  getStoredToken (fst (setToken "h.p.s" (browserStorage (Some "old")))) = Some "h.p.s".
Proof.
  split; [reflexivity|].
  refine (proj2 (proj1 (store_then_read sampleDecode
    (browserStorage (Some "old")) "h.p.s" eq_refl) _)).
  discriminate.
Defined.

Lemma no_window_no_token_witness :
  window {| window := false; item := Some "h.p.s" |} = false /\
  isAuthenticated sampleDecode {| window := false; item := Some "h.p.s" |} (0 # 1) = false.
Proof.
  split; [reflexivity|].
  exact (proj1 (proj2 (proj2 (proj2 (no_window_no_token sampleDecode
    {| window := false; item := Some "h.p.s" |} "x" (0 # 1) eq_refl))))).
Defined.

End TokenManagerFacts.

(** ** Further properties of the WebSocket manager *)

Module WebSocketManagerExtras.
Import WebSocketManager WebSocketManagerAux WebSocketManagerFacts.

Lemma splice_first_notin h l : h ∉ l -> splice_first h l = l.
Proof.
  induction l as [|x l IH]; intros Hn; simpl; [done|].
  apply not_elem_of_cons in Hn as [Hne Hn].
  rewrite decide_False by done. by rewrite IH.
Qed.

Lemma splice_first_in h l :
  h ∈ l ->
  exists l1 l2, l = l1 ++ h :: l2 /\ (h ∉ l1) /\ splice_first h l = l1 ++ l2.
Proof.
  induction l as [|x l IH]; intros Hin; [by apply elem_of_nil in Hin|].
  simpl. destruct (decide (x = h)) as [->|Hne].
  - exists [], l. split; [done|]. split; [apply not_elem_of_nil|done].
  - apply elem_of_cons in Hin as [->|Hin]; [done|].
    destruct (IH Hin) as (l1 & l2 & -> & Hn & ->).
    exists (x :: l1), l2. split; [done|]. split; [|done].
    apply not_elem_of_cons. split; [congruence|done].
Qed.

Lemma splice_first_snoc h l : h ∉ l -> splice_first h (l ++ [h]) = l.
Proof.
  induction l as [|x l IH]; intros Hn; simpl.
  - by rewrite decide_True.
  - apply not_elem_of_cons in Hn as [Hne Hn].
    rewrite decide_False by done. by rewrite IH.
Qed.

Lemma world_eta (w : World) (m : Manager) :
  m = this w -> set_this (fun _ => m) w = w.
Proof. intros ->. by destruct w. Qed.

Lemma handlersOf_remove_eq t h w :
  handlersOf (removeEventListener t h w) t = splice_first h (handlersOf w t).
Proof.
  unfold handlersOf, removeEventListener.
  destruct (eventHandlers (this w) !! t) as [hs|] eqn:Hl; simpl.
  - by rewrite lookup_insert_eq.
  - by rewrite Hl.
Qed.

(** X6.  Unsubscribing what is not subscribed changes nothing: removing an
    event handler that is not registered for the event type (or for a type
    that has no handlers at all), or a connection listener that is not
    registered, leaves the whole world as it is. *)
Theorem unsubscribe_absent_is_noop w eventType handler listener :
  (handler ∉ handlersOf w eventType ->
   removeEventListener eventType handler w = w) /\
  (listener ∉ connectionListeners (this w) ->
   removeConnectionListener listener w = w).
Proof.
  split.
  - unfold handlersOf, removeEventListener.
    destruct (eventHandlers (this w) !! eventType) as [hs|] eqn:Hl; [|done].
    simpl. intros Hn. rewrite splice_first_notin by done.
    rewrite insert_id by done.
    destruct w as [[] ? ? ? ? ?]. done.
  - intros Hn. unfold removeConnectionListener.
    destruct w as [[] ? ? ? ? ?]. unfold set_this, set_connectionListeners.
    simpl in *. by rewrite splice_first_notin.
Qed.

Lemma unsubscribe_absent_is_noop_witness :
  (5%nat ∉ handlersOf twoHandlers "typing") /\
  removeEventListener "typing" 5 twoHandlers = twoHandlers.
Proof.
  assert (5%nat ∉ handlersOf twoHandlers "typing") as Hn.
  { vm_compute. intros H. by repeat (apply elem_of_cons in H as [H|H]; [|]);
      try discriminate; apply elem_of_nil in H. }
  split; [exact Hn|].
  exact (proj1 (unsubscribe_absent_is_noop twoHandlers "typing" 5 0) Hn).
Defined.

(** X7.  [removeEventListener] removes one registration, the earliest, and
    keeps the order of the others; it does not touch the handlers of other
    event types; and subscribing a handler that was not registered and
    unsubscribing it again gives back the handlers there were. *)
Theorem unsubscribe_removes_earliest w eventType handler :
  (handler ∈ handlersOf w eventType ->
   exists l1 l2, handlersOf w eventType = l1 ++ handler :: l2 /\
     (handler ∉ l1) /\
     handlersOf (removeEventListener eventType handler w) eventType = l1 ++ l2) /\
  (handler ∉ handlersOf w eventType ->
   handlersOf (removeEventListener eventType handler
                 (addEventListener eventType handler w)) eventType
   = handlersOf w eventType) /\
  (forall t, t <> eventType ->
     handlersOf (removeEventListener eventType handler w) t = handlersOf w t).
Proof.
  split; [|split].
  - intros Hin. destruct (splice_first_in _ _ Hin) as (l1 & l2 & Hl & Hn & Hs).
    exists l1, l2. by rewrite handlersOf_remove_eq.
  - intros Hn. rewrite handlersOf_remove_eq, handlersOf_add.
    rewrite decide_True by done. by apply splice_first_snoc.
  - intros t Hne. by apply handlersOf_remove_ne.
Qed.

Lemma unsubscribe_removes_earliest_witness :
  (7%nat ∈ handlersOf registeredTwice "typing") /\
  handlersOf (removeEventListener "typing" 7 registeredTwice) "typing" = [7%nat].
Proof.
  assert (7%nat ∈ handlersOf registeredTwice "typing") as Hin
    by (vm_compute; apply elem_of_cons; by left).
  split; [exact Hin|].
  destruct (proj1 (unsubscribe_removes_earliest registeredTwice "typing" 7) Hin)
    as (l1 & l2 & Hl & Hn & ->).
  change (handlersOf registeredTwice "typing") with [7%nat; 7%nat] in Hl.
  destruct l1 as [|x l1]; simpl in Hl.
  - by injection Hl as <-.
  - injection Hl as <- _. exfalso. apply Hn. by left.
Defined.

(** **** What handlers cannot change *)

Lemma send_link message w :
  link (fst (send message w)) = link w /\
  length (sockets (fst (send message w))) = length (sockets w).
Proof.
  unfold send. destruct (negb (isConnected w)); [done|].
  destruct (ws (this w)) as [i|]; [|done].
  destruct (sockets w !! i); [|done].
  destruct (serializable message); [|done]. simpl. by rewrite length_insert.
Qed.

Lemma runCall_link c w :
  link (runCall c w) = link w /\ invoked (runCall c w) = invoked w.
Proof.
  destruct c as [t h|t h|m]; simpl.
  - done.
  - unfold removeEventListener. by destruct (_ !! _).
  - split; [apply send_link|apply send_this].
Qed.

Lemma runCalls_link cs : forall w,
  link (runCalls cs w) = link w /\ invoked (runCalls cs w) = invoked w.
Proof.
  induction cs as [|c cs IH]; intros w; [done|].
  change (runCalls (c :: cs) w) with (runCalls cs (runCall c w)).
  destruct (IH (runCall c w)) as [-> ->]. apply runCall_link.
Qed.

Lemma forEach_keeps {A} (f : World -> A) (array : World -> list nat) callback :
  (forall x w, f (fst (callback x w)) = f w) ->
  forall n k w, f (fst (forEach array callback n k w)) = f w.
Proof.
  intros Hcb. induction n as [|n IH]; intros k w; [done|].
  simpl. destruct (array w !! k) as [x|]; [|apply IH].
  specialize (Hcb x w). destruct (callback x w) as [w' []]; simpl in *.
  - by rewrite IH.
  - done.
Qed.

Section WithHandlers.
Variable handlerBody : nat -> WebSocketMessage -> HandlerRun.

Lemma handleMessage_Some m w hs :
  eventHandlers (this w) !! type m = Some hs ->
  handleMessage handlerBody (Some m) w =
  fst (forEach (fun w' => handlersOf w' (type m))
         (fun h => tryCatch (callHandler handlerBody h m) id) (length hs) 0 w).
Proof.
  intros H. unfold handleMessage. unfold tryCatch at 1. rewrite H.
  by destruct (forEach _ _ _ _ _) as [w' []].
Qed.

Lemma handleMessage_nothing frame w :
  match frame with
  | Some m => eventHandlers (this w) !! type m = None
  | None => True
  end ->
  handleMessage handlerBody frame w = w.
Proof.
  unfold handleMessage. unfold tryCatch at 1.
  destruct frame as [m|]; [|done]. by intros ->.
Qed.

Lemma handleMessage_link frame w :
  link (handleMessage handlerBody frame w) = link w.
Proof.
  destruct frame as [m|]; [|by rewrite handleMessage_nothing].
  destruct (eventHandlers (this w) !! type m) as [hs|] eqn:Hl;
    [|by rewrite handleMessage_nothing].
  rewrite (handleMessage_Some m w hs Hl).
  apply forEach_keeps. intros x w0. rewrite tryCatch_callHandler. simpl.
  by destruct (runCalls_link (calls (handlerBody x m))
    (set_invoked (invoked w0 ++ [(x, m)]) w0)) as [-> _].
Qed.

Lemma forEach_invoked message : forall n k w,
  let r := forEach (fun w' => handlersOf w' (type message))
             (fun h => tryCatch (callHandler handlerBody h message) id) n k w in
  exists l, invoked (fst r) = invoked w ++ l /\ (length l <= n)%nat /\
    Forall (fun x => x.2 = message) l.
Proof.
  induction n as [|n IH]; intros k w r; subst r.
  - exists []. simpl. by rewrite app_nil_r.
  - rewrite forEach_S.
    destruct (handlersOf w (type message) !! k) as [h|].
    + rewrite tryCatch_callHandler.
      destruct (IH (S k) (runCalls (calls (handlerBody h message))
        (set_invoked (invoked w ++ [(h, message)]) w))) as (l & Hl & Hlen & Hall).
      destruct (runCalls_link (calls (handlerBody h message))
        (set_invoked (invoked w ++ [(h, message)]) w)) as [_ Hi].
      exists ((h, message) :: l). rewrite Hl, Hi. simpl.
      rewrite <- app_assoc. split; [done|]. split; [lia|by constructor].
    + destruct (IH (S k) w) as (l & Hl & Hlen & Hall).
      exists l. split; [done|]. split; [lia|done].
Qed.

(** X8.  A dispatch is bounded by what was registered when it started,
    whatever the handlers do while they run (subscribe, unsubscribe, send,
    throw): it makes at most as many handler calls as there were handlers
    for the message's type, each with the dispatched message; a frame that
    does not parse, or whose type has no handler, changes nothing at all. *)
Theorem dispatch_is_bounded w message :
  let w' := handleMessage handlerBody (Some message) w in
  (length (invokedSince w w') <= length (handlersOf w (type message)))%nat /\
  Forall (fun x => x.2 = message) (invokedSince w w') /\
  (handlersOf w (type message) = [] -> w' = w) /\
  handleMessage handlerBody None w = w.
Proof.
  intros w'. subst w'. unfold invokedSince.
  split; [|split; [|split]]; [| | |by rewrite handleMessage_nothing].
  - destruct (eventHandlers (this w) !! type message) as [hs|] eqn:Hl.
    + rewrite (handleMessage_Some _ _ _ Hl).
      destruct (forEach_invoked message (length hs) 0 w) as (l & -> & Hlen & _).
      rewrite drop_app_length. unfold handlersOf. by rewrite Hl.
    + rewrite handleMessage_nothing by done. rewrite drop_all. simpl. lia.
  - destruct (eventHandlers (this w) !! type message) as [hs|] eqn:Hl.
    + rewrite (handleMessage_Some _ _ _ Hl).
      destruct (forEach_invoked message (length hs) 0 w) as (l & -> & _ & Hall).
      by rewrite drop_app_length.
    + rewrite handleMessage_nothing by done. by rewrite drop_all.
  - unfold handlersOf.
    destruct (eventHandlers (this w) !! type message) as [hs|] eqn:Hl.
    + simpl. intros ->. by rewrite (handleMessage_Some _ _ _ Hl).
    + intros _. by rewrite handleMessage_nothing.
Qed.

(** **** The invariant of the reconnect logic *)

Ltac conjs := repeat match goal with |- _ /\ _ => split end.

(** What [wellFormed] depends on. *)
Lemma wellFormed_same w w' :
  control w' = control w -> link w' = link w ->
  wellFormed w -> wellFormed w'.
Proof.
  unfold control, link, wellFormed.
  intros [= Ha Hd Hs Ht Hr] [= Hws _ _ _ _].
  rewrite Ha, Hd, Hs, Ht, Hws.
  intros (? & ? & ? & ? & Hb). conjs; try done; try lia.
  intros id Hid. apply Hb in Hid.
  assert (length (sockets w') = length (sockets w)) as ->; [|done].
  by rewrite <- (length_fmap readyState (sockets w')), Hr, length_fmap.
Qed.

Lemma backoff_in_reconnectDelays a :
  0 <= a < maxReconnectAttempts -> backoff 1000 (a + 1) ∈ reconnectDelays.
Proof.
  unfold maxReconnectAttempts. intros Ha.
  assert (a = 0 \/ a = 1 \/ a = 2 \/ a = 3 \/ a = 4) as Hc by lia.
  destruct Hc as [->|[->|[->|[->| ->]]]]; vm_compute;
    repeat (first [apply list_elem_of_here | apply list_elem_of_further]).
Qed.

Lemma wellFormed_connect device token w :
  wellFormed w -> wellFormed (fst (connect device token w)).
Proof.
  intros (Ha & Hd & Hs & Ht & Hb). unfold connect.
  destruct (_ || _); [done|]. destruct (truthy token); simpl.
  - unfold wellFormed. simpl. conjs; try done; try lia.
    + apply Forall_app. split; [done|].
      constructor; [done|constructor].
    + intros id [= <-]. rewrite length_app. simpl. lia.
  - done.
Qed.

Lemma wellFormed_step w e :
  wellFormed w -> wellFormed (step handlerBody w e).
Proof.
  intros Hw. pose proof Hw as (Ha & Hd & Hs & Ht & Hb).
  destruct e as [device token| |m|t h|t h|l|l|id|id frame|id|id code|i token];
    simpl.
  - by apply wellFormed_connect.
  - unfold disconnect. destruct (ws (this w)) as [i|] eqn:Hws; simpl.
    + destruct (closeSocket_frame i w) as (Ht1 & Hs1 & Ht2).
      unfold wellFormed. simpl. rewrite Ht1, Hs1, Ht2. simpl.
      unfold maxReconnectAttempts. conjs; try done; try lia.
    + unfold wellFormed. simpl. unfold maxReconnectAttempts.
      conjs; try done; try lia. intros id. by rewrite Hws.
  - apply (wellFormed_same w); [apply send_control|apply send_link|done].
  - done.
  - apply (wellFormed_same w); [apply removeEventListener_control| |done].
    unfold removeEventListener. by destruct (_ !! _).
  - done.
  - done.
  - case_bool_decide; [|done]. unfold wellFormed. simpl.
    unfold maxReconnectAttempts. conjs; try done; try lia.
    intros i Hi. rewrite length_alter. by apply Hb.
  - case_bool_decide; [|done].
    apply (wellFormed_same w);
      [apply handleMessage_control|apply handleMessage_link|done].
  - destruct (socketState w id) as [[]|]; done.
  - assert (wellFormed (onclose code (setSocketState id CLOSED w))) as H;
      [|by destruct (socketState w id) as [[]|]].
    unfold onclose, scheduleReconnect. simpl.
    destruct (bool_decide (code ≠ 4001)); simpl;
      [|unfold wellFormed; simpl; conjs; try done; try lia; try lia;
        intros i Hi; rewrite length_alter; by apply Hb].
    case_bool_decide as Hlt; simpl;
      [|unfold wellFormed; simpl; conjs; try done; try lia; try lia;
        intros i Hi; rewrite length_alter; by apply Hb].
    rewrite bool_decide_eq_false_2 by lia.
    unfold wellFormed. simpl. rewrite Hd.
    pose proof (backoff_in_reconnectDelays (reconnectAttempts (this w))
      ltac:(lia)) as Hin.
    conjs; try done; try lia.
    + apply Forall_app. split; [done|].
      constructor; [exact Hin|constructor].
    + apply Forall_app. split; [done|].
      constructor; [|constructor]. simpl.
      by apply bool_decide_eq_true_2.
    + intros i Hi. rewrite length_alter. by apply Hb.
  - unfold fireTimer. destruct (timers w !! i) as [t|] eqn:Hti; [|done].
    assert (wellFormed (set_timers (delete i (timers w)) w)) as Hw'.
    { unfold wellFormed. simpl. conjs; try done; try lia.
      by apply Forall_delete. }
    destruct t as [d|d].
    + unfold reconnectTimerFired. destruct (_ && _); [|done].
      by apply wellFormed_connect.
    + unfold connectTimeoutFired. simpl. by destruct (isConnecting (this w)).
Qed.

(** X10.  In every state the manager can reach, whatever the handlers do:
    the reconnect counter is between 0 and 5, the base delay is 1000 ms,
    every reconnect that was ever scheduled and every reconnect timer that
    is pending has one of the delays 1000, 2000, 4000, 8000, 16000 ms (the
    cap of 30000 ms is never applied), and the manager's socket reference
    refers to a socket that exists. *)
Theorem reachable_wellFormed es :
  let w := run handlerBody initial es in
  wellFormed w /\
  Forall (fun d => 1000 <= d <= 16000) (scheduled w).
Proof.
  assert (forall w, wellFormed w -> wellFormed (run handlerBody w es)) as H.
  { induction es as [|e es IH]; intros w Hw; [done|].
    apply (IH (step handlerBody w e)), wellFormed_step, Hw. }
  assert (wellFormed (run handlerBody initial es)) as Hw.
  { apply H. unfold wellFormed, maxReconnectAttempts. simpl.
    conjs; try done; try lia. }
  split; [done|].
  destruct Hw as (_ & _ & Hs & _). eapply Forall_impl; [exact Hs|].
  intros d Hd. simpl in Hd.
  repeat (apply elem_of_cons in Hd as [->|Hd]; [lia|]).
  by apply elem_of_nil in Hd.
Qed.

(** **** Sending *)

Lemma send_connected message w :
  isConnected w = true ->
  exists id s, ws (this w) = Some id /\ sockets w !! id = Some s /\
    send message w =
      if serializable message
      then (set_sockets (<[id := push_sent message s]> (sockets w)) w, true)
      else (w, false).
Proof.
  intros Hc. unfold send. rewrite Hc. simpl.
  unfold isConnected, socketState in Hc.
  destruct (ws (this w)) as [id|]; [|done].
  destruct (sockets w !! id) as [s|] eqn:Hs; [|done].
  by exists id, s.
Qed.

Lemma send_outbox message w :
  isConnected w = true ->
  snd (send message w) = serializable message /\
  isConnected (fst (send message w)) = true /\
  this (fst (send message w)) = this w /\
  outbox (fst (send message w)) =
    outbox w ++ (if serializable message then [message] else []) /\
  (forall id, ws (this w) <> Some id ->
     sockets (fst (send message w)) !! id = sockets w !! id) /\
  (serializable message = false -> send message w = (w, false)).
Proof.
  intros Hc.
  destruct (send_connected message w Hc) as (id & s & Hws & Hs & ->).
  destruct (serializable message); simpl.
  - pose proof (lookup_lt_Some _ _ _ Hs) as Hlt.
    unfold isConnected, outbox, socketState in *. simpl. rewrite Hws in *.
    rewrite Hs in *. simpl in *.
    rewrite list_lookup_insert_eq by done. simpl.
    repeat split; try done.
    intros id' Hne. rewrite list_lookup_insert_ne; [done|congruence].
  - rewrite app_nil_r. done.
Qed.

(** X11.  While the manager is connected, the messages passed to [send]
    that [JSON.stringify] accepts are handed to the current socket in call
    order, none lost and none duplicated, and [send] returns [true] for
    each of them; a message on which [JSON.stringify] throws is refused,
    [send] returns [false] and nothing changes.  No other socket receives
    anything and no field of the manager changes. *)
Theorem sends_arrive_in_order messages : forall w,
  isConnected w = true ->
  let w' := sendAll messages w in
  outbox w' =
    outbox w ++ filter (fun m => serializable m = true) messages /\
  isConnected w' = true /\
  this w' = this w /\
  (forall id, ws (this w) <> Some id -> sockets w' !! id = sockets w !! id) /\
  (forall m, snd (send m w') = serializable m /\
     (serializable m = false -> send m w' = (w', false))).
Proof.
  induction messages as [|m ms IH]; intros w Hc w'; subst w'.
  - simpl. rewrite app_nil_r. repeat split; try done.
    + by apply send_outbox.
    + by apply send_outbox.
  - change (sendAll (m :: ms) w) with (sendAll ms (fst (send m w))).
    destruct (send_outbox m w Hc) as (_ & Hc1 & Ht & Ho & Hoth & _).
    destruct (IH _ Hc1) as (Ho' & Hc' & Ht' & Hoth' & Hres).
    rewrite Ho', Ho, <- app_assoc, Ht', Ht. repeat split; try done.
    + f_equal. destruct (serializable m) eqn:E.
      * by rewrite filter_cons_True.
      * rewrite filter_cons_False; [done|]. by rewrite E.
    + intros id Hne. rewrite Hoth' by (by rewrite Ht). by apply Hoth.
    + apply Hres.
    + apply Hres.
Qed.

(** **** Notifications *)

Lemma notifiedSince_app w w' l :
  notified w' = notified w ++ l -> notifiedSince w w' = l.
Proof. unfold notifiedSince. intros ->. by rewrite drop_app_length. Qed.

Lemma notifiedSince_same w w' :
  notified w' = notified w -> notifiedSince w w' = [].
Proof. unfold notifiedSince. intros ->. by rewrite drop_all. Qed.

Lemma connect_notified device token w :
  notified (fst (connect device token w)) = notified w.
Proof.
  unfold connect. destruct (_ || _); [done|]. by destruct (truthy token).
Qed.

(** X12.  Connection listeners are told "connected" only in a turn of the
    event loop in which a socket opens ([notifyConnectionListeners(true)] is
    called by [onopen] alone): every notification made in any other turn
    (a call of the application, a message, an error, a close, a timer)
    says "disconnected". *)
Theorem listeners_hear_true_only_on_open w e :
  isOpenEvent e = false ->
  Forall (fun x => x.2 = false) (notifiedSince w (step handlerBody w e)).
Proof.
  intros He.
  - assert (forall l : list nat,
      Forall (fun x : nat * bool => x.2 = false) (map (fun l0 => (l0, false)) l))
      as Hall by (intros l; induction l; by constructor).
    destruct e as [device token| |m|t h|t h|l|l|i|i frame|i|i code|i token];
      simpl in *; try discriminate.
    + by rewrite notifiedSince_same by apply connect_notified.
    + unfold disconnect.
      erewrite notifiedSince_app; [apply Hall|]. simpl.
      destruct (ws (this w)) as [j|]; simpl; [|done].
      unfold closeSocket. by repeat case_match.
    + rewrite notifiedSince_same; [done|].
      pose proof (proj1 (send_link m w)) as H. unfold link in H. by simplify_eq.
    + by rewrite notifiedSince_same.
    + rewrite notifiedSince_same; [done|].
      unfold removeEventListener. by destruct (_ !! _).
    + by rewrite notifiedSince_same.
    + by rewrite notifiedSince_same.
    + case_bool_decide; [|by rewrite notifiedSince_same].
      rewrite notifiedSince_same; [done|].
      pose proof (handleMessage_link frame w) as Hk. unfold link in Hk.
      by simplify_eq.
    + rewrite notifiedSince_same; [done|].
      by destruct (socketState w i) as [[]|].
    + assert (notified (onclose code (setSocketState i CLOSED w)) =
              notified w ++ map (fun l0 => (l0, false))
                (connectionListeners (this w))) as H.
      { unfold onclose, scheduleReconnect. simpl.
        by repeat (case_bool_decide; simpl). }
      destruct (socketState w i) as [[]|];
        try (by rewrite notifiedSince_same);
        by rewrite (notifiedSince_app _ _ _ H).
    + rewrite notifiedSince_same; [done|].
      unfold fireTimer. destruct (timers w !! i) as [[d|d]|]; [| |done].
      * unfold reconnectTimerFired. destruct (_ && _); [|done].
        by rewrite connect_notified.
      * unfold connectTimeoutFired. simpl. by destruct (isConnecting _).
Qed.

(** **** After [disconnect] *)

Lemma step_keeps_ws_unset w e :
  isConnectEvent e = false -> isTimerEvent e = false ->
  ws (this w) = None -> ws (this (step handlerBody w e)) = None.
Proof.
  intros H1 H2 Hws.
  destruct e as [device token| |m|t h|t h|l|l|i|i frame|i|i code|i token];
    simpl in *; try discriminate.
  - unfold disconnect. by rewrite Hws.
  - pose proof (proj1 (send_link m w)) as [= Hk _ _ _ _]. by rewrite Hk.
  - done.
  - unfold removeEventListener. by destruct (_ !! _).
  - done.
  - done.
  - by case_bool_decide.
  - case_bool_decide; [|done].
    pose proof (handleMessage_link frame w) as [= Hk _ _ _ _]. by rewrite Hk.
  - by destruct (socketState w i) as [[]|].
  - assert (ws (this (onclose code (setSocketState i CLOSED w))) = None) as H.
    { unfold onclose, scheduleReconnect. simpl.
      by repeat (case_bool_decide; simpl). }
    by destruct (socketState w i) as [[]|].
Qed.

(** X13.  After [disconnect()] the manager has no socket: until [connect]
    is called again (by the application or by a reconnect timer that was
    already pending), over any events, it stays disconnected and every
    [send] is refused and changes nothing. *)
Theorem disconnected_until_connect evs w message :
  forallb (fun e => negb (isConnectEvent e) && negb (isTimerEvent e)) evs = true ->
  let w' := run handlerBody (disconnect w) evs in
  isConnected w' = false /\ send message w' = (w', false).
Proof.
  intros Hev w'.
  assert (ws (this w') = None) as Hws.
  { subst w'.
    assert (ws (this (disconnect w)) = None) as H0
      by (unfold disconnect; destruct (ws (this w)) eqn:E; simpl; done).
    revert H0 Hev. generalize (disconnect w). clear w.
    induction evs as [|e evs IH]; intros w H0 Hev; [done|].
    simpl in Hev. apply andb_prop in Hev as [He Hev].
    apply andb_prop in He as [He1 He2].
    apply negb_true_iff in He1, He2.
    apply (IH (step handlerBody w e)); [|done].
    by apply step_keeps_ws_unset. }
  assert (isConnected w' = false) as Hc
    by (unfold isConnected; by rewrite Hws).
  split; [done|]. unfold send. by rewrite Hc.
Qed.

End WithHandlers.

(** **** [connect] *)

(** X14.  [connect] is single-flight: a [connect] that is called right
    after a [connect] made with a token does nothing and resolves to
    [true]; in particular two calls in a row create at most one socket.  A
    [connect] made without a token resolves to [false] and creates neither
    a socket nor a timer. *)
Theorem connect_is_single_flight device1 device2 token1 token2 w :
  (truthy token1 = true ->
   connect device2 token2 (fst (connect device1 token1 w)) =
     (fst (connect device1 token1 w), ResolvedTrue)) /\
  (truthy token1 = false ->
   sockets (fst (connect device1 token1 w)) = sockets w /\
   timers (fst (connect device1 token1 w)) = timers w /\
   snd (connect device1 token1 w) <> Pending).
Proof.
  split; intros Ht.
  - unfold connect at 2 3. rewrite Ht.
    destruct (isConnecting (this w) || isConnected w) eqn:Hg.
    + simpl. unfold connect. by rewrite Hg.
    + simpl. unfold connect. simpl. done.
  - unfold connect. rewrite Ht. by destruct (_ || _).
Qed.

Lemma connect_is_single_flight_witness :
  truthy (Some "token") = true /\
  length (sockets (fst (connect "device" (Some "other")
            (fst (connect "device" (Some "token") initial))))) = 1%nat.
Proof.
  split; [reflexivity|].
  rewrite (proj1 (connect_is_single_flight "device" "device"
    (Some "token") (Some "other") initial) eq_refl).
  reflexivity.
Defined.

(** X15.  The socket is tied to the token manager: a client that is not
    authenticated (no token stored, a malformed one, an expired one) never
    gets a socket or a timer out of [connect]; an authenticated client that
    is neither connecting nor connected gets exactly one new connecting
    socket whose address carries the device id and the stored token, and
    the manager now refers to it. *)
Theorem connect_needs_valid_token decode s now device w :
  let token := TokenManager.getValidToken decode s now in
  let r := connect device token w in
  (TokenManager.isAuthenticated decode s now = false ->
   sockets (fst r) = sockets w /\ timers (fst r) = timers w /\
   ws (this (fst r)) = ws (this w) /\ snd r <> Pending) /\
  (TokenManager.isAuthenticated decode s now = true ->
   isConnecting (this w) = false -> isConnected w = false ->
   exists t, TokenManager.getStoredToken s = Some t /\
     sockets (fst r) = sockets w ++
       [{| url := wsUrl device t; readyState := CONNECTING; sent := [] |}] /\
     ws (this (fst r)) = Some (length (sockets w)) /\
     isConnecting (this (fst r)) = true /\
     snd r = Pending).
Proof.
  intros token r. subst token r.
  unfold TokenManager.isAuthenticated.
  destruct (TokenManager.getValidToken decode s now) as [t|] eqn:E.
  - split; [done|]. intros _ Hc1 Hc2.
    assert (TokenManager.getStoredToken s = Some t /\ truthy (Some t) = true)
      as [Hst Ht].
    { unfold TokenManager.getValidToken in E.
      destruct (TokenManager.getStoredToken s) as [t'|]; [|done].
      destruct (truthy (Some t')) eqn:Ht'; [|done].
      destruct (negb true || _); [done|]. by injection E as ->. }
    exists t. unfold connect. rewrite Hc1, Hc2, Ht. done.
  - split; [|done]. intros _. unfold connect. by destruct (_ || _).
Qed.

Lemma connect_needs_valid_token_witness :
  TokenManager.isAuthenticated TokenManager.sampleDecode
    (TokenManager.browserStorage (Some "h.p.s")) (3000 # 1) = false /\
  sockets (fst (connect "device"
    (TokenManager.getValidToken TokenManager.sampleDecode
       (TokenManager.browserStorage (Some "h.p.s")) (3000 # 1)) initial)) = [].
Proof.
  split; [reflexivity|].
  exact (proj1 (proj1 (connect_needs_valid_token TokenManager.sampleDecode
    (TokenManager.browserStorage (Some "h.p.s")) (3000 # 1) "device" initial)
    eq_refl)).
Defined.

Lemma dispatch_is_bounded_witness :
  handlersOf initial (type typingMessage) = [] /\
  handleMessage faulty (Some typingMessage) initial = initial.
Proof.
  split; [reflexivity|].
  exact (proj1 (proj2 (proj2 (dispatch_is_bounded faulty initial typingMessage)))
    eq_refl).
Defined.

Lemma sends_arrive_in_order_witness :
  isConnected listening = true /\
  outbox (sendAll [typingMessage; {| type := "send_message"; data := Cyclic |};
                   typingMessage] listening)
    = outbox listening ++ [typingMessage; typingMessage].
Proof.
  split; [reflexivity|].
  exact (proj1 (sends_arrive_in_order
    [typingMessage; {| type := "send_message"; data := Cyclic |}; typingMessage]
    listening eq_refl)).
Defined.

Lemma listeners_hear_true_only_on_open_witness :
  isOpenEvent (EClose 0 1006) = false /\
  Forall (fun x => x.2 = false)
    (notifiedSince listening (step quiet listening (EClose 0 1006))).
Proof.
  split; [reflexivity|].
  exact (listeners_hear_true_only_on_open quiet listening
    (EClose 0 1006) eq_refl).
Defined.

Lemma disconnected_until_connect_witness :
  forallb (fun e => negb (isConnectEvent e) && negb (isTimerEvent e))
    [ESend typingMessage; EClose 0 1000; EMessage 0 (Some typingMessage)] = true /\
  isConnected (run quiet (disconnect listening)
    [ESend typingMessage; EClose 0 1000; EMessage 0 (Some typingMessage)]) = false.
Proof.
  split; [reflexivity|].
  exact (proj1 (disconnected_until_connect quiet
    [ESend typingMessage; EClose 0 1000; EMessage 0 (Some typingMessage)]
    listening typingMessage eq_refl)).
Defined.

End WebSocketManagerExtras.

(** ** Further properties of the WebRTC service *)

Module WebRTCServiceExtras.
Import WebRTCService WebRTCServiceAux WebRTCServiceFacts.

Ltac conjs := repeat match goal with |- _ /\ _ => split end.

(** **** Peer connections and the map *)

Lemma tidy_peers w w' : peers w' = peers w -> tidy w -> tidy w'.
Proof. unfold peers, tidy. intros [= -> ->]. done. Qed.

Lemma wellKeyed_peers w w' : peers w' = peers w -> wellKeyed w -> wellKeyed w'.
Proof. unfold peers, wellKeyed. intros [= -> ->]. done. Qed.

Lemma sendSignalingMessage_peers message w :
  peers (sendSignalingMessage message w) = peers w.
Proof. unfold sendSignalingMessage. by repeat case_match. Qed.

Lemma initiateCall_peers ps t g r o w :
  peers (fst (initiateCall ps t g r o w)) = peers w.
Proof.
  unfold initiateCall, getLocalStream, connectSignaling.
  destruct g; [|done]. by destruct r, o.
Qed.

Lemma joinCall_peers c j g o w : peers (fst (joinCall c j g o w)) = peers w.
Proof.
  unfold joinCall, getLocalStream, connectSignaling. by destruct j, g, o.
Qed.

Lemma toggleMute_peers s w : peers (toggleMute s w) = peers w.
Proof.
  unfold toggleMute. repeat case_match; try done.
  by rewrite sendSignalingMessage_peers.
Qed.

Lemma toggleVideo_peers s w : peers (toggleVideo s w) = peers w.
Proof.
  unfold toggleVideo. repeat case_match; try done.
  by rewrite sendSignalingMessage_peers.
Qed.

Lemma tidy_alter f id' w :
  (forall pc, closed (f pc) = closed pc /\ owner (f pc) = owner pc) ->
  tidy w -> tidy (set_connections (alter f id' (connections w)) w).
Proof.
  intros Hf H id pc. simpl.
  destruct (decide (id' = id)) as [->|Hne].
  - rewrite list_lookup_alter_eq.
    destruct (connections w !! id) as [pc0|] eqn:Hl; [|done].
    simpl. intros [= <-]. destruct (Hf pc0) as [-> ->]. by apply H.
  - rewrite list_lookup_alter_ne by done. apply H.
Qed.

Lemma tidy_insert id' pc0 pc' w :
  connections w !! id' = Some pc0 ->
  closed pc' = closed pc0 -> owner pc' = owner pc0 ->
  tidy w -> tidy (set_connections (<[id' := pc']> (connections w)) w).
Proof.
  intros Hl Hc Ho H id pc. simpl.
  destruct (decide (id' = id)) as [->|Hne].
  - rewrite list_lookup_insert_eq by (by eapply lookup_lt_Some).
    intros [= <-]. rewrite Hc, Ho. by apply H.
  - rewrite list_lookup_insert_ne by done. apply H.
Qed.

Lemma tidy_getOrCreate u w :
  wellKeyed w -> tidy w -> tidy (fst (getOrCreatePeerConnection u w)).
Proof.
  intros Hk H. unfold getOrCreatePeerConnection.
  destruct (peerConnections (this w) !! u) as [id0|] eqn:Hl; [done|].
  intros id pc. simpl. intros Hpc.
  destruct (decide (id < length (connections w))%nat) as [Hlt|Hge].
  - rewrite lookup_app_l in Hpc by done.
    destruct (H id pc Hpc) as [H1 H2]. split.
    + intros Hc. specialize (H1 Hc).
      rewrite lookup_insert_ne; [done|]. intros ->. congruence.
    + intros u'. destruct (decide (u = u')) as [<-|Hne].
      * rewrite lookup_insert_eq. intros [= <-]. lia.
      * rewrite lookup_insert_ne by done. apply H2.
  - rewrite lookup_app_r in Hpc by lia.
    destruct (id - length (connections w))%nat as [|n] eqn:Hn; [|done].
    simpl in Hpc. injection Hpc as <-. simpl.
    assert (id = length (connections w)) as -> by lia.
    split.
    + intros _. by rewrite lookup_insert_eq.
    + intros u'. destruct (decide (u = u')) as [<-|Hne]; [done|].
      rewrite lookup_insert_ne by done. intros Hu'.
      apply Hk in Hu' as [Hlt _]. lia.
Qed.

Lemma closeAll_length ids : forall conns,
  length (closeAll ids conns) = length conns.
Proof.
  induction ids as [|i ids IH]; intros conns; [done|].
  change (closeAll (i :: ids) conns) with (closeAll ids (alter close i conns)).
  by rewrite IH, length_alter.
Qed.

Lemma cleanup_peers w :
  peers (cleanup w) =
  (∅, closeAll (map_to_list (peerConnections (this w))).*2 (connections w)).
Proof.
  unfold cleanup, closeSocket, peers.
  destruct (localStream (this w)); simpl; by repeat case_match.
Qed.

Lemma tidy_cleanup w : tidy w -> tidy (cleanup w).
Proof.
  intros H id pc' Hpc'.
  pose proof (cleanup_peers w) as [= Hm Hc]. rewrite Hm. rewrite Hc in Hpc'.
  split; [|intros u Hu; by rewrite lookup_empty in Hu].
  intros Hopen. exfalso.
  pose proof (lookup_lt_Some _ _ _ Hpc') as Hlt.
  rewrite closeAll_length in Hlt.
  destruct (lookup_lt_is_Some_2 _ _ Hlt) as [pc Hpc].
  destruct (closeAll_lookup (map_to_list (peerConnections (this w))).*2
    (connections w) id pc Hpc) as (pc2 & Hl & Hcl).
  rewrite Hpc' in Hl. injection Hl as <-.
  destruct (closed pc) eqn:Hcp.
  - rewrite Hcl in Hopen by (by left). done.
  - destruct (H id pc Hpc) as [H1 _]. specialize (H1 Hcp).
    rewrite Hcl in Hopen; [done|]. right.
    apply list_elem_of_fmap. exists (owner pc, id). split; [done|].
    by apply elem_of_map_to_list.
Qed.

Lemma tidy_enqueue id op w : tidy w -> tidy (fst (enqueue id op w)).
Proof.
  intros H. destruct (enqueue_alter id op w) as (f & [-> | ->] & ->);
    by apply tidy_alter.
Qed.

Lemma tidy_settle id b w : tidy w -> tidy (settle id b w).
Proof.
  intros H.
  destruct (settle_alter id b w) as (f & Hf & [-> | [m ->]]).
  - apply tidy_alter; [|done]. intros pc. by destruct (Hf pc) as (-> & -> & _).
  - eapply tidy_peers; [apply sendSignalingMessage_peers|].
    apply tidy_alter; [|done]. intros pc. by destruct (Hf pc) as (-> & -> & _).
Qed.

Lemma tidy_handleSignalingMessage m w :
  wellKeyed w -> tidy w -> tidy (fst (handleSignalingMessage m w)).
Proof.
  intros Hk H. unfold handleSignalingMessage.
  repeat case_match; simpl; try done.
  - unfold handleOffer.
    pose proof (tidy_getOrCreate (default "" (user_id m)) w Hk H) as Hw1.
    destruct (getOrCreatePeerConnection _ w) as [w1 id]. simpl in Hw1.
    by apply tidy_enqueue.
  - unfold handleAnswer. case_match; [|done]. by apply tidy_enqueue.
  - unfold handleIceCandidate. repeat case_match; try done.
    by apply tidy_enqueue.
Qed.

Lemma tidy_step w e : wellKeyed w -> tidy w -> tidy (step w e).
Proof.
  intros Hk H. by_event e.
  - eapply tidy_peers; [apply initiateCall_peers|done].
  - eapply tidy_peers; [apply joinCall_peers|done].
  - unfold endCall. destruct (if truthy _ then _ else _);
      [|by apply tidy_cleanup].
    apply (tidy_peers (cleanup w)); [done|by apply tidy_cleanup].
  - unfold acceptIncomingCall.
    eapply tidy_peers; [apply joinCall_peers|done].
  - unfold declineIncomingCall. by destruct en.
  - eapply tidy_peers; [apply toggleMute_peers|done].
  - eapply tidy_peers; [apply toggleVideo_peers|done].
  - done.
  - case_bool_decide; [|done]. destruct frame; [|done].
    by apply tidy_handleSignalingMessage.
  - destruct (socketState w sock) as [[]|]; done.
  - repeat case_match; done.
  - unfold onicecandidate. repeat case_match; try done;
      (eapply tidy_peers; [apply sendSignalingMessage_peers|done]).
  - by apply tidy_settle.
Qed.

(** X16.  In every state the service can reach, the store of peer
    connections and the map [peerConnections] agree: a peer connection is
    open exactly when the map sends the user it was created for to it.  So
    no open connection is ever left behind unreferenced, no closed one stays
    in the map, and distinct users never share a connection. *)
Theorem reachable_tidy es id pc :
  let w := run initial es in
  connections w !! id = Some pc ->
  (closed pc = false <-> peerConnections (this w) !! owner pc = Some id) /\
  (forall u, peerConnections (this w) !! u = Some id -> u = owner pc).
Proof.
  intros w Hpc.
  assert (wellKeyed w /\ tidy w) as [_ H].
  { subst w. clear Hpc.
    assert (forall w0, wellKeyed w0 -> tidy w0 ->
              wellKeyed (run w0 es) /\ tidy (run w0 es)) as Hrun.
    { induction es as [|e es IH]; intros w0 Hk Ht; [done|].
      apply (IH (step w0 e)); [by apply wellKeyed_step|by apply tidy_step]. }
    apply Hrun.
    - intros u i Hl. simpl in Hl. by rewrite lookup_empty in Hl.
    - intros i p Hl. done. }
  destruct (H id pc Hpc) as [H1 H2]. split.
  - split; [done|]. intros Hm. by apply H2 in Hm as [? _].
  - intros u Hu. by apply H2 in Hu as [_ ->].
Qed.

Lemma reachable_tidy_witness :
  let w := run initial
    [EInitiateCall ["u2"] audio true (Some "call-1") true;
     ESignalingMessage 0 (Some (offerMessage "u2" "v=0 offer"));
     ESettled 0 browser; ESettled 0 browser; ESettled 0 browser] in
  connections w !! 0%nat = Some negotiatedPeer /\
  peerConnections (this w) !! "u2" = Some 0%nat.
Proof.
  intros w.
  assert (connections w !! 0%nat = Some negotiatedPeer) as H
    by (vm_compute; reflexivity).
  split; [exact H|].
  exact (proj1 (proj1 (reachable_tidy _ 0 negotiatedPeer H)) eq_refl).
Defined.

(** **** The local stream *)

Lemma live_media w w' : media w' = media w -> holdsLiveStream w -> holdsLiveStream w'.
Proof. unfold media, holdsLiveStream. intros [= -> ->]. done. Qed.

Lemma sendSignalingMessage_media message w :
  media (sendSignalingMessage message w) = media w.
Proof. unfold sendSignalingMessage. by repeat case_match. Qed.

Lemma connectSignaling_media c o w : media (fst (connectSignaling c o w)) = media w.
Proof. done. Qed.

Lemma live_getLocalStream v g w :
  holdsLiveStream w -> holdsLiveStream (fst (getLocalStream v g w)).
Proof.
  intros H. unfold getLocalStream. destruct g; [|done].
  intros sid. simpl. intros [= <-].
  exists (getUserMedia v). unfold MediaStream in *.
  rewrite lookup_app_r by done. rewrite Nat.sub_diag. simpl.
  split; [done|]. unfold getUserMedia.
  destruct v; simpl; split; auto; repeat constructor.
Qed.

Lemma live_cleanup w : holdsLiveStream (cleanup w).
Proof.
  assert (localStream (this (cleanup w)) = None) as H.
  { unfold cleanup, closeSocket. by repeat case_match. }
  intros sid Hs. congruence.
Qed.

Lemma firstOfKind_Some k ts i :
  firstOfKind k ts = Some i ->
  exists t, ts !! i = Some t /\ kind t = k.
Proof.
  revert i. induction ts as [|t ts IH]; intros i; simpl; [done|].
  destruct (decide (kind t = k)) as [Hk|Hk].
  - intros [= <-]. by exists t.
  - destruct (firstOfKind k ts) as [j|]; simpl; [|done].
    intros [= <-]. by apply IH.
Qed.

Lemma firstOfKind_insert k ts i t t' :
  ts !! i = Some t -> kind t' = kind t ->
  firstOfKind k (<[i := t']> ts) = firstOfKind k ts.
Proof.
  revert i. induction ts as [|t0 ts IH]; intros i Hi Hk; [done|].
  destruct i as [|i]; simpl in *.
  - injection Hi as ->. by rewrite Hk.
  - by rewrite IH.
Qed.

Lemma live_toggle ts i t b :
  ts !! i = Some t ->
  Forall (fun t => ended t = false) ts /\
    (kind <$> ts = [AudioKind] \/ kind <$> ts = [AudioKind; VideoKind]) ->
  Forall (fun t => ended t = false) (<[i := set_enabled b t]> ts) /\
    (kind <$> <[i := set_enabled b t]> ts = [AudioKind] \/
     kind <$> <[i := set_enabled b t]> ts = [AudioKind; VideoKind]).
Proof.
  intros Hl [Hf Hk]. split.
  - apply Forall_insert; [done|]. simpl.
    by apply (Forall_lookup_1 _ _ _ _ Hf Hl).
  - rewrite list_fmap_insert. simpl.
    rewrite list_insert_id; [done|]. by rewrite list_lookup_fmap, Hl.
Qed.

Lemma live_toggleMute s w : holdsLiveStream w -> holdsLiveStream (toggleMute s w).
Proof.
  intros H. unfold toggleMute.
  destruct (localStream (this w)) as [sid|] eqn:Hs; [|done].
  destruct (streams w !! sid) as [ts|] eqn:Hts; [|done].
  destruct (firstOfKind AudioKind ts) as [i|]; [|done].
  destruct (ts !! i) as [t|] eqn:Hti; [|done].
  eapply live_media; [apply sendSignalingMessage_media|].
  intros sid'. simpl. intros Hs'. rewrite Hs in Hs'. injection Hs' as <-.
  destruct (H sid Hs) as (ts0 & Hts0 & Hlive). unfold MediaStream in *.
  assert (ts0 = ts) as -> by congruence.
  eexists.
  rewrite list_lookup_insert_eq by (by eapply lookup_lt_Some).
  split; [done|]. by apply live_toggle.
Qed.

Lemma live_toggleVideo s w : holdsLiveStream w -> holdsLiveStream (toggleVideo s w).
Proof.
  intros H. unfold toggleVideo.
  destruct (localStream (this w)) as [sid|] eqn:Hs; [|done].
  destruct (streams w !! sid) as [ts|] eqn:Hts; [|done].
  destruct (firstOfKind VideoKind ts) as [i|]; [|done].
  destruct (ts !! i) as [t|] eqn:Hti; [|done].
  eapply live_media; [apply sendSignalingMessage_media|].
  intros sid'. simpl. intros Hs'. rewrite Hs in Hs'. injection Hs' as <-.
  destruct (H sid Hs) as (ts0 & Hts0 & Hlive). unfold MediaStream in *.
  assert (ts0 = ts) as -> by congruence.
  eexists.
  rewrite list_lookup_insert_eq by (by eapply lookup_lt_Some).
  split; [done|]. by apply live_toggle.
Qed.

Lemma handleSignalingMessage_media m w :
  media (fst (handleSignalingMessage m w)) = media w.
Proof.
  unfold handleSignalingMessage, handleOffer, handleAnswer,
    handleIceCandidate, enqueue, getOrCreatePeerConnection.
  repeat case_match; simplify_eq/=; done.
Qed.

Lemma settle_media id b w : media (settle id b w) = media w.
Proof.
  destruct (settle_alter id b w) as (f & _ & [-> | [m ->]]); [done|].
  by rewrite sendSignalingMessage_media.
Qed.

Lemma live_step w e : holdsLiveStream w -> holdsLiveStream (step w e).
Proof.
  intros H. by_event e.
  - unfold initiateCall.
    pose proof (live_getLocalStream (bool_decide (t = video)) g w H) as H1.
    destruct (getLocalStream _ g w) as [w1 []]; simpl in H1; [|done].
    destruct r as [cid|]; [|done]. by destruct o.
  - unfold joinCall. destruct j; [|done].
    match goal with |- context [getLocalStream ?v g w] =>
      pose proof (live_getLocalStream v g w H) as H1;
      destruct (getLocalStream v g w) as [w1 []] end; simpl in H1; [|done].
    done.
  - unfold endCall. destruct (if truthy _ then _ else _);
      [|apply live_cleanup].
    apply (live_media (cleanup w)); [done|apply live_cleanup].
  - unfold acceptIncomingCall, joinCall. destruct j; [|done].
    match goal with |- context [getLocalStream ?v g ?w0] =>
      pose proof (live_getLocalStream v g w0 H) as H1;
      destruct (getLocalStream v g w0) as [w1 []] end; simpl in H1; [|done].
    done.
  - unfold declineIncomingCall. by destruct en.
  - by apply live_toggleMute.
  - by apply live_toggleVideo.
  - done.
  - case_bool_decide; [|done]. destruct frame; [|done].
    eapply live_media; [apply handleSignalingMessage_media|done].
  - destruct (socketState w sock) as [[]|]; done.
  - repeat case_match; done.
  - unfold onicecandidate. repeat case_match; try done;
      (eapply live_media; [apply sendSignalingMessage_media|done]).
  - eapply live_media; [apply settle_media|done].
Qed.

(** X17.  In every state the service can reach, the local stream it holds
    exists in the store, is made of an audio track followed by a video
    track or by nothing, and none of its tracks has been stopped: tracks
    are only ever stopped by [cleanup], which forgets the stream in the
    same step. *)
Theorem reachable_holds_live_stream es sid :
  let w := run initial es in
  localStream (this w) = Some sid ->
  exists ts, streams w !! sid = Some ts /\
    Forall (fun t => ended t = false) ts /\
    (kind <$> ts = [AudioKind] \/ kind <$> ts = [AudioKind; VideoKind]).
Proof.
  intros w. subst w.
  assert (forall w0, holdsLiveStream w0 -> holdsLiveStream (run w0 es)) as Hrun.
  { induction es as [|e es IH]; intros w0 H0; [done|].
    apply (IH (step w0 e)), live_step, H0. }
  apply Hrun. intros s Hs. done.
Qed.

Lemma reachable_holds_live_stream_witness :
  localStream (this inVideoCall) = Some 0%nat /\
  exists ts, streams inVideoCall !! 0%nat = Some ts /\
    Forall (fun t => ended t = false) ts /\
    (kind <$> ts = [AudioKind] \/ kind <$> ts = [AudioKind; VideoKind]).
Proof.
  split; [reflexivity|].
  exact (reachable_holds_live_stream
    [EInitiateCall ["u2"] video true (Some "call-2") true] 0 eq_refl).
Defined.

(** **** [getOrCreatePeerConnection] *)

(** X18.  [getOrCreatePeerConnection] creates at most one peer connection
    per user: asking again for the same user returns the same connection
    and changes nothing.  The connection it returns is the one the map now
    holds for the user, the entries of other users are untouched, and a
    connection that had to be created is appended to the store, open,
    without descriptions or candidates. *)
Theorem getOrCreatePeerConnection_once userId w :
  let r := getOrCreatePeerConnection userId w in
  getOrCreatePeerConnection userId (fst r) = r /\
  peerConnections (this (fst r)) !! userId = Some (snd r) /\
  (forall u, u <> userId ->
     peerConnections (this (fst r)) !! u = peerConnections (this w) !! u) /\
  (peerConnections (this w) !! userId = None ->
   exists pc, connections (fst r) = connections w ++ [pc] /\
     snd r = length (connections w) /\ owner pc = userId /\
     closed pc = false /\ remoteDescription pc = None /\
     localDescription pc = None /\ remoteCandidates pc = []) /\
  (forall id, peerConnections (this w) !! userId = Some id -> fst r = w).
Proof.
  intros r. remember (getOrCreatePeerConnection userId w) as r0 eqn:E.
  subst r. unfold getOrCreatePeerConnection in E.
  destruct (peerConnections (this w) !! userId) as [id|] eqn:Hl;
    subst r0; simpl.
  - conjs; try done. unfold getOrCreatePeerConnection. by rewrite Hl.
  - conjs; try done.
    + unfold getOrCreatePeerConnection. simpl. by rewrite lookup_insert_eq.
    + by rewrite lookup_insert_eq.
    + intros u Hne. by rewrite lookup_insert_ne.
    + intros _. eexists. conjs; done.
Qed.

Lemma getOrCreatePeerConnection_once_witness :
  peerConnections (this inCall) !! "u9" = None /\
  length (connections (fst (getOrCreatePeerConnection "u9"
            (fst (getOrCreatePeerConnection "u9" inCall))))) = 1%nat.
Proof.
  split; [reflexivity|].
  rewrite (proj1 (getOrCreatePeerConnection_once "u9" inCall)).
  destruct (proj1 (proj2 (proj2 (proj2
    (getOrCreatePeerConnection_once "u9" inCall)))) eq_refl)
    as (pc & -> & _). reflexivity.
Defined.

(** **** Participants *)

Lemma fmap_unmatched {A} (f : A -> A) (l : list A) :
  Forall (fun x => f x = x) l -> f <$> l = l.
Proof.
  induction 1 as [|x l Hx _ IH]; [done|]. by rewrite fmap_cons, Hx, IH.
Qed.

Lemma filter_fmap_others (f : CallParticipant.t -> CallParticipant.t) u
    (ps : list CallParticipant.t) :
  (forall p, CallParticipant.userId (f p) = CallParticipant.userId p) ->
  (forall p, CallParticipant.userId p <> u -> f p = p) ->
  filter (fun p => CallParticipant.userId p <> u) (f <$> ps) =
  filter (fun p => CallParticipant.userId p <> u) ps.
Proof.
  intros Hid Hne. induction ps as [|p ps IH]; [done|]. rewrite fmap_cons.
  destruct (decide (CallParticipant.userId p = u)) as [E|E].
  - rewrite !filter_cons_False; [done| |]; simpl; rewrite ?Hid;
      intros H; by apply H.
  - rewrite !filter_cons_True; [|done|by rewrite Hid].
    by rewrite IH, Hne.
Qed.

Lemma participant_muted_like userId f w :
  userIds (handleParticipantMuted userId f w) = userIds w /\
  userIds (handleParticipantVideo userId f w) = userIds w.
Proof.
  unfold userIds. simpl. split; rewrite <- list_fmap_compose;
    apply list_fmap_ext; intros i p _; simpl; by destruct (String.eqb _ _).
Qed.

(** X19.  A "participant_muted" update touches only the [isMuted] field of
    the participants with the given user id: the list keeps its user ids
    in order, every other participant is kept as it is, the named ones
    carry the new flag, and for a user who is not in the list the state is
    unchanged (no participant is added).  Applying the update twice is the
    same as applying it once, and it commutes with a "participant_video"
    update of any user. *)
Theorem participant_muted_update userId muted w :
  let w' := handleParticipantMuted userId muted w in
  userIds w' = userIds w /\
  others userId w' = others userId w /\
  Forall (fun p => CallParticipant.userId p = userId ->
            CallParticipant.isMuted p = Some muted /\
            exists q, q ∈ CallState.participants (callState (this w)) /\
              CallParticipant.userId q = userId /\
              CallParticipant.stream p = CallParticipant.stream q /\
              CallParticipant.peerConnection p = CallParticipant.peerConnection q /\
              CallParticipant.isVideoEnabled p = CallParticipant.isVideoEnabled q)
    (CallState.participants (callState (this w'))) /\
  (userId ∉ userIds w -> w' = w) /\
  handleParticipantMuted userId muted w' = w' /\
  (forall u v, handleParticipantVideo u v w' =
     handleParticipantMuted userId muted (handleParticipantVideo u v w)).
Proof.
  intros w'. subst w'. unfold userIds, others. simpl.
  set (ps := CallState.participants (callState (this w))).
  conjs.
  - rewrite <- list_fmap_compose. apply list_fmap_ext. intros i p _. simpl.
    by destruct (String.eqb _ _).
  - apply filter_fmap_others; intros p; simpl.
    + by destruct (String.eqb _ _).
    + intros E%String.eqb_neq. by rewrite E.
  - apply Forall_fmap, Forall_forall. intros p Hp. simpl.
    destruct (String.eqb (CallParticipant.userId p) userId) eqn:E; simpl.
    + intros _. split; [done|]. exists p. apply String.eqb_eq in E. done.
    + apply String.eqb_neq in E. done.
  - intros Hn. unfold handleParticipantMuted, updateState, set_this,
      set_callState. fold ps. rewrite (fmap_unmatched _ ps).
    { subst ps. by destruct w as [[? ? ? ? []] ? ? ?]. }
    apply Forall_forall. intros p Hp.
    destruct (String.eqb (CallParticipant.userId p) userId) eqn:E; [|done].
    apply String.eqb_eq in E. destruct Hn. rewrite <- E.
    by apply list_elem_of_fmap_2.
  - unfold handleParticipantMuted, updateState, set_this, set_callState.
    simpl. do 3 f_equal. rewrite <- list_fmap_compose.
    apply list_fmap_ext. intros i p _. simpl.
    destruct (String.eqb (CallParticipant.userId p) userId) eqn:E; simpl;
      by rewrite E.
  - intros u v.
    unfold handleParticipantVideo, handleParticipantMuted, updateState,
      set_this, set_callState. simpl. do 3 f_equal.
    rewrite <- !list_fmap_compose.
    apply list_fmap_ext. intros i p _. simpl.
    destruct (String.eqb (CallParticipant.userId p) userId) eqn:E1,
      (String.eqb (CallParticipant.userId p) u) eqn:E2; simpl;
      by rewrite ?E1, ?E2.
Qed.

Lemma participant_muted_update_witness :
  ("u4" ∉ userIds twoParties) /\
  handleParticipantMuted "u4" true twoParties = twoParties.
Proof.
  assert ("u4" ∉ userIds twoParties) as H.
  { apply not_elem_of_cons. split; [done|].
    apply not_elem_of_cons. split; [done|]. apply not_elem_of_nil. }
  split; [exact H|].
  exact (proj1 (proj2 (proj2 (proj2
    (participant_muted_update "u4" true twoParties)))) H).
Defined.

(** X20.  A track event of the peer connection created for [userId] puts
    the remote stream on every participant with that user id and appends
    the participant only when none was there: afterwards the user is in the
    list and carries the stream, the other participants are untouched, a
    known user leaves the list of user ids as it was, an unknown user is
    added at its end, and a list without duplicate user ids stays so. *)
Theorem ontrack_upserts userId pc remoteStream w :
  let w' := ontrack userId pc remoteStream w in
  userId ∈ userIds w' /\
  Forall (fun p => CallParticipant.userId p = userId ->
            CallParticipant.stream p = Some remoteStream)
    (CallState.participants (callState (this w'))) /\
  others userId w' = others userId w /\
  (userId ∈ userIds w -> userIds w' = userIds w) /\
  (userId ∉ userIds w -> userIds w' = userIds w ++ [userId]) /\
  (NoDup (userIds w) -> NoDup (userIds w')).
Proof.
  intros w'. subst w'. unfold userIds, others, ontrack. simpl.
  set (ps := CallState.participants (callState (this w))).
  set (f := fun p : CallParticipant.t =>
    if String.eqb (CallParticipant.userId p) userId
    then {| CallParticipant.userId := CallParticipant.userId p;
            CallParticipant.stream := Some remoteStream;
            CallParticipant.peerConnection := CallParticipant.peerConnection p;
            CallParticipant.isMuted := CallParticipant.isMuted p;
            CallParticipant.isVideoEnabled := CallParticipant.isVideoEnabled p |}
    else p).
  assert (forall p, CallParticipant.userId (f p) = CallParticipant.userId p) as Hf.
  { intros p. unfold f. by destruct (String.eqb _ _). }
  assert (CallParticipant.userId <$> (f <$> ps) = CallParticipant.userId <$> ps)
    as Hids.
  { rewrite <- list_fmap_compose. apply list_fmap_ext. intros i p _. apply Hf. }
  assert (existsb (fun p => String.eqb (CallParticipant.userId p) userId)
            (f <$> ps) = true <->
          userId ∈ CallParticipant.userId <$> ps) as Hex.
  { rewrite existsb_exists. split.
    - intros (p & Hp & E). apply String.eqb_eq in E. rewrite <- Hids, <- E.
      apply list_elem_of_fmap_2. by apply list_elem_of_In.
    - rewrite <- Hids. intros (p & -> & Hp)%list_elem_of_fmap.
      exists p. split; [by apply list_elem_of_In|]. apply String.eqb_refl. }
  assert (Forall (fun p => CallParticipant.userId p = userId ->
            CallParticipant.stream p = Some remoteStream) (f <$> ps)) as Hstream.
  { apply Forall_fmap, Forall_forall. intros p _. simpl. unfold f.
    destruct (String.eqb (CallParticipant.userId p) userId) eqn:E; [done|].
    by apply String.eqb_neq in E. }
  assert (filter (fun p => CallParticipant.userId p <> userId) (f <$> ps) =
          filter (fun p => CallParticipant.userId p <> userId) ps) as Hothers.
  { apply filter_fmap_others; [done|]. intros p E%String.eqb_neq.
    unfold f. by rewrite E. }
  destruct (existsb _ (f <$> ps)) eqn:Hin.
  - clear Hin. pose proof (proj1 Hex eq_refl) as Hin. conjs; try done.
    + by rewrite Hids.
    + by rewrite Hids.
  - assert (userId ∉ CallParticipant.userId <$> ps) as Hout.
    { intros H. apply Hex in H. congruence. }
    conjs.
    + rewrite fmap_app. apply elem_of_app. right. simpl. apply list_elem_of_here.
    + apply Forall_app. split; [done|]. by repeat constructor.
    + rewrite filter_app, Hothers.
      rewrite filter_cons_False by (simpl; intros H; by apply H).
      by rewrite filter_nil, app_nil_r.
    + done.
    + intros _. by rewrite fmap_app, Hids.
    + intros Hnd. rewrite fmap_app, Hids. simpl.
      apply NoDup_app. split; [done|]. split; [|apply NoDup_singleton].
      intros x Hx ->%list_elem_of_singleton. done.
Qed.

Lemma ontrack_upserts_witness :
  NoDup (userIds twoParties) /\
  NoDup (userIds (ontrack "u4" 1 6 twoParties)).
Proof.
  assert (NoDup (userIds twoParties)) as H.
  { apply NoDup_cons. split.
    - apply not_elem_of_cons. split; [done|]. apply not_elem_of_nil.
    - apply NoDup_singleton. }
  split; [exact H|].
  exact (proj2 (proj2 (proj2 (proj2 (proj2
    (ontrack_upserts "u4" 1 6 twoParties))))) H).
Defined.

(** **** Mute and video toggles *)

Lemma trackEnabled_media k w w' :
  media w = media w' -> trackEnabled k w = trackEnabled k w'.
Proof. unfold media, trackEnabled. by intros [= -> ->]. Qed.

Lemma flipped_media k w w' : media w = media w' -> flipped k w = flipped k w'.
Proof. unfold media, flipped. by intros [= -> ->]. Qed.

Lemma toggleMute_media s w :
  media (toggleMute s w) = media (set_streams (flipped AudioKind w) w).
Proof.
  unfold toggleMute, flipped. repeat case_match; try by destruct w.
  by rewrite sendSignalingMessage_media.
Qed.

Lemma toggleVideo_media s w :
  media (toggleVideo s w) = media (set_streams (flipped VideoKind w) w).
Proof.
  unfold toggleVideo, flipped. repeat case_match; try by destruct w.
  by rewrite sendSignalingMessage_media.
Qed.

Lemma set_enabled_id t : set_enabled (enabled t) t = t.
Proof. by destruct t. Qed.

Lemma trackEnabled_flipped k k' w :
  trackEnabled k' (set_streams (flipped k w) w) =
  if decide (k' = k) then negb <$> trackEnabled k w else trackEnabled k' w.
Proof.
  unfold trackEnabled, flipped. simpl.
  destruct (localStream (this w)) as [sid|] eqn:Hs;
    [|by destruct (decide _)].
  destruct (streams w !! sid) as [ts|] eqn:Hts; simpl.
  2:{ rewrite ?Hts. by destruct (decide _). }
  destruct (firstOfKind k ts) as [i|] eqn:Hi.
  2:{ rewrite ?Hts. destruct (decide _) as [->|]; [by rewrite ?Hi|done]. }
  destruct (firstOfKind_Some _ _ _ Hi) as (t & Hti & Hk). rewrite Hti.
  unfold MediaStream in *.
  rewrite list_lookup_insert_eq by (by eapply lookup_lt_Some).
  rewrite (firstOfKind_insert _ _ _ t) by done.
  destruct (decide (k' = k)) as [->|Hne].
  - rewrite Hi. rewrite list_lookup_insert_eq by (by eapply lookup_lt_Some).
    done.
  - destruct (firstOfKind k' ts) as [j|] eqn:Hj; [|done].
    destruct (firstOfKind_Some _ _ _ Hj) as (t' & Htj & Hk').
    rewrite list_lookup_insert_ne; [done|]. intros ->.
    pose proof (eq_trans (eq_sym Hti) Htj) as [= ->]. congruence.
Qed.

Lemma flipped_twice k w : flipped k (set_streams (flipped k w) w) = streams w.
Proof.
  unfold flipped at 1. simpl.
  pose proof (trackEnabled_flipped k k w) as He. revert He.
  unfold trackEnabled, flipped. simpl.
  destruct (localStream (this w)) as [sid|] eqn:Hs; [|done].
  destruct (streams w !! sid) as [ts|] eqn:Hts; simpl; [|by rewrite Hts].
  destruct (firstOfKind k ts) as [i|] eqn:Hi; [|by rewrite Hts, Hi].
  destruct (firstOfKind_Some _ _ _ Hi) as (t & Hti & Hk). rewrite Hti.
  unfold MediaStream in *.
  rewrite list_lookup_insert_eq by (by eapply lookup_lt_Some).
  rewrite (firstOfKind_insert _ _ _ t) by done.
  rewrite Hi. rewrite list_lookup_insert_eq by (by eapply lookup_lt_Some).
  intros _. simpl. rewrite negb_involutive.
  change (set_enabled (enabled t) (set_enabled (negb (enabled t)) t))
    with (set_enabled (enabled t) t).
  unfold MediaStream in *.
  rewrite !list_insert_insert_eq, (set_enabled_id t).
  rewrite (list_insert_id ts i t) by exact Hti.
  by apply list_insert_id.
Qed.

Lemma toggleMute_isMuted s w b :
  trackEnabled AudioKind w = Some b ->
  CallState.isMuted (callState (this (toggleMute s w))) = b.
Proof.
  unfold trackEnabled, toggleMute.
  destruct (localStream (this w)) as [sid|]; [|done].
  destruct (streams w !! sid) as [ts|]; [|done].
  destruct (firstOfKind AudioKind ts) as [i|]; [|done].
  destruct (ts !! i) as [t|]; [|done]. simpl. intros [= <-].
  rewrite (proj1 (sendSignalingMessage_frame _ _)). simpl.
  apply negb_involutive.
Qed.

Lemma toggleVideo_isVideoEnabled s w b :
  trackEnabled VideoKind w = Some b ->
  CallState.isVideoEnabled (callState (this (toggleVideo s w))) = negb b.
Proof.
  unfold trackEnabled, toggleVideo.
  destruct (localStream (this w)) as [sid|]; [|done].
  destruct (streams w !! sid) as [ts|]; [|done].
  destruct (firstOfKind VideoKind ts) as [i|]; [|done].
  destruct (ts !! i) as [t|]; [|done]. simpl. intros [= <-].
  by rewrite (proj1 (sendSignalingMessage_frame _ _)).
Qed.

(** X21.  [toggleMute] inverts the enabled bit of the first audio track of
    the local stream and of nothing else, and records in [isMuted] the
    negation of the new bit; [toggleVideo] does the same for the first
    video track and records the new bit in [isVideoEnabled].  Either one
    applied twice restores the streams.  Without a local stream, or
    without a track of the kind (video in an audio call), the toggle
    changes nothing at all. *)
Theorem toggles_flip_own_track s s' w :
  (trackEnabled AudioKind (toggleMute s w) = negb <$> trackEnabled AudioKind w /\
   trackEnabled VideoKind (toggleMute s w) = trackEnabled VideoKind w /\
   streams (toggleMute s' (toggleMute s w)) = streams w /\
   (forall b, trackEnabled AudioKind (toggleMute s w) = Some b ->
      CallState.isMuted (callState (this (toggleMute s w))) = negb b) /\
   (trackEnabled AudioKind w = None -> toggleMute s w = w)) /\
  (trackEnabled VideoKind (toggleVideo s w) = negb <$> trackEnabled VideoKind w /\
   trackEnabled AudioKind (toggleVideo s w) = trackEnabled AudioKind w /\
   streams (toggleVideo s' (toggleVideo s w)) = streams w /\
   (forall b, trackEnabled VideoKind (toggleVideo s w) = Some b ->
      CallState.isVideoEnabled (callState (this (toggleVideo s w))) = b) /\
   (trackEnabled VideoKind w = None -> toggleVideo s w = w)).
Proof.
  assert (forall k w1 w2, media w1 = media (set_streams (flipped k w) w) ->
            media w2 = media (set_streams (flipped k w1) w1) ->
            streams w2 = streams w) as Htwice.
  { intros k w1 w2 H1 H2.
    rewrite (flipped_media k w1 _ H1), flipped_twice in H2.
    unfold media in H1, H2. simpl in *. congruence. }
  split; conjs.
  - rewrite (trackEnabled_media _ _ _ (toggleMute_media s w)),
      trackEnabled_flipped. by rewrite decide_True.
  - rewrite (trackEnabled_media _ _ _ (toggleMute_media s w)),
      trackEnabled_flipped. by rewrite decide_False.
  - eapply (Htwice AudioKind); apply toggleMute_media.
  - intros b.
    rewrite (trackEnabled_media _ _ _ (toggleMute_media s w)),
      trackEnabled_flipped, decide_True by done.
    destruct (trackEnabled AudioKind w) as [b0|] eqn:Hb; [|done].
    intros [= <-]. rewrite negb_involutive. by apply toggleMute_isMuted.
  - unfold trackEnabled, toggleMute. unfold MediaStream in *.
    repeat case_match; simplify_eq/=; done.
  - rewrite (trackEnabled_media _ _ _ (toggleVideo_media s w)),
      trackEnabled_flipped. by rewrite decide_True.
  - rewrite (trackEnabled_media _ _ _ (toggleVideo_media s w)),
      trackEnabled_flipped. by rewrite decide_False.
  - eapply (Htwice VideoKind); apply toggleVideo_media.
  - intros b.
    rewrite (trackEnabled_media _ _ _ (toggleVideo_media s w)),
      trackEnabled_flipped, decide_True by done.
    destruct (trackEnabled VideoKind w) as [b0|] eqn:Hb; [|done].
    intros [= <-]. by apply toggleVideo_isVideoEnabled.
  - unfold trackEnabled, toggleVideo. unfold MediaStream in *.
    repeat case_match; simplify_eq/=; done.
Qed.

Lemma toggles_flip_own_track_witness :
  trackEnabled VideoKind inCall = None /\
  toggleVideo (Some "me") inCall = inCall.
Proof.
  split; [reflexivity|].
  exact (proj2 (proj2 (proj2 (proj2 (proj2
    (toggles_flip_own_track (Some "me") None inCall))))) eq_refl).
Defined.

(** **** Inbound signaling messages *)

Lemma unhandled_type t :
  t ∉ handledTypes ->
  String.eqb t "offer" = false /\ String.eqb t "answer" = false /\
  String.eqb t "ice-candidate" = false /\
  String.eqb t "participant_muted" = false /\
  String.eqb t "participant_video" = false.
Proof.
  unfold handledTypes. rewrite !not_elem_of_cons.
  intros (H1 & H2 & H3 & H4 & H5 & _). by rewrite !String.eqb_neq.
Qed.

(** X22.  [handleSignalingMessage] ignores, leaving the whole state as it
    is and without failing: a message without a user id; a message whose
    type is not one of "offer", "answer", "ice-candidate",
    "participant_muted" and "participant_video"; an offer or an answer
    without SDP; an "ice-candidate" message without a candidate.  The
    messages that [toggleMute] and [toggleVideo] hand to
    [sendSignalingMessage] carry the types "mute" and "video_toggle", so a
    service that receives one of them as it was sent ignores it. *)
Theorem ignored_signaling_messages message s w :
  (truthy (user_id message) = false ->
     handleSignalingMessage message w = (w, Fulfilled)) /\
  (type message ∉ handledTypes ->
     handleSignalingMessage message w = (w, Fulfilled)) /\
  (truthy (sdp message) = false ->
     type message = "offer" \/ type message = "answer" ->
     handleSignalingMessage message w = (w, Fulfilled)) /\
  (candidate message = None -> type message = "ice-candidate" ->
     handleSignalingMessage message w = (w, Fulfilled)) /\
  (toggleMute s w = w \/
   exists f w2, toggleMute s w = sendSignalingMessage (muteMessage s f) w2) /\
  (toggleVideo s w = w \/
   exists f w2, toggleVideo s w = sendSignalingMessage (videoMessage s f) w2) /\
  (forall f w', handleSignalingMessage (muteMessage s f) w' = (w', Fulfilled) /\
     handleSignalingMessage (videoMessage s f) w' = (w', Fulfilled)).
Proof.
  conjs.
  - intros H. unfold handleSignalingMessage. by rewrite H.
  - intros (H1 & H2 & H3 & H4 & H5)%unhandled_type.
    unfold handleSignalingMessage. rewrite H1, H2, H3, H4, H5.
    by destruct (negb _).
  - intros Hs [Ht|Ht]; unfold handleSignalingMessage; rewrite Ht, Hs; simpl;
      by destruct (negb _).
  - intros Hc Ht. unfold handleSignalingMessage. rewrite Ht, Hc. simpl.
    by destruct (negb _).
  - unfold toggleMute. repeat case_match; eauto.
  - unfold toggleVideo. repeat case_match; eauto.
  - intros f w'. unfold handleSignalingMessage. simpl.
    split; by destruct (negb _).
Qed.

Lemma ignored_signaling_messages_witness :
  ("participant_left" ∉ handledTypes) /\
  handleSignalingMessage
    {| type := "participant_left"; user_id := Some "u2"; sdp := None;
       candidate := None; muted := None; video_enabled := None |}
    inCall = (inCall, Fulfilled).
Proof.
  assert ("participant_left" ∉ handledTypes) as H.
  { unfold handledTypes. rewrite !not_elem_of_cons.
    repeat (split; [done|]). apply not_elem_of_nil. }
  split; [exact H|].
  exact (proj1 (proj2 (ignored_signaling_messages
    {| type := "participant_left"; user_id := Some "u2"; sdp := None;
       candidate := None; muted := None; video_enabled := None |}
    None inCall)) H).
Defined.

Lemma handleSignalingMessage_callState message w :
  type message <> "participant_muted" ->
  type message <> "participant_video" ->
  callState (this (fst (handleSignalingMessage message w))) =
  callState (this w).
Proof.
  intros H1%String.eqb_neq H2%String.eqb_neq.
  unfold handleSignalingMessage, handleOffer, handleAnswer,
    handleIceCandidate, enqueue, getOrCreatePeerConnection. rewrite H1, H2.
  repeat case_match; simplify_eq/=; done.
Qed.

(** X23.  Of all inbound signaling messages only an offer can create a
    peer connection, and it creates at most one: a message of another type
    leaves the map of peer connections and the number of connections as
    they were; any message leaves the entries that the map already has
    pointing where they pointed; after an offer with a user id and SDP the
    map has an entry for that user.  Only "participant_muted" and
    "participant_video" messages change the call state, so no signaling
    message adds a participant or activates a call; and none touches the
    local stream. *)
Theorem only_offers_create_connections message w :
  let w' := fst (handleSignalingMessage message w) in
  (type message <> "offer" ->
     peerConnections (this w') = peerConnections (this w) /\
     length (connections w') = length (connections w)) /\
  (length (connections w) <= length (connections w')
     <= S (length (connections w)))%nat /\
  (forall u id, peerConnections (this w) !! u = Some id ->
     peerConnections (this w') !! u = Some id) /\
  (type message = "offer" -> truthy (user_id message) = true ->
     truthy (sdp message) = true ->
     is_Some (peerConnections (this w') !! default "" (user_id message))) /\
  (type message <> "participant_muted" ->
   type message <> "participant_video" ->
     callState (this w') = callState (this w)) /\
  userIds w' = userIds w /\
  media w' = media w.
Proof.
  intros w'. subst w'.
  split; [|split; [|split; [|split; [|split; [|split]]]]].
  - intros H%String.eqb_neq.
    unfold handleSignalingMessage, handleAnswer, handleIceCandidate, enqueue.
    rewrite H.
    repeat case_match; simplify_eq/=; try done;
      by rewrite ?length_alter, ?length_insert.
  - unfold handleSignalingMessage, handleOffer, handleAnswer,
      handleIceCandidate, enqueue, getOrCreatePeerConnection.
    repeat case_match; simplify_eq/=;
      rewrite ?(proj2 (sendSignalingMessage_frame _ _)); simpl;
      rewrite ?length_alter, ?length_insert, ?length_app; simpl; lia.
  - intros u id Hu.
    unfold handleSignalingMessage, handleOffer, handleAnswer,
      handleIceCandidate, enqueue, getOrCreatePeerConnection.
    repeat case_match; simplify_eq/=;
      rewrite ?(proj1 (sendSignalingMessage_frame _ _)); simpl; try done;
      (rewrite lookup_insert_ne; [done|]; intros <-; congruence).
  - intros Ht Hu Hs.
    unfold handleSignalingMessage, handleOffer, enqueue,
      getOrCreatePeerConnection.
    rewrite Ht, Hu, Hs. simpl.
    repeat case_match; simplify_eq/=;
      rewrite ?(proj1 (sendSignalingMessage_frame _ _)); simpl;
      rewrite ?lookup_insert_eq; eauto.
  - apply handleSignalingMessage_callState.
  - destruct (decide (type message = "participant_muted")) as [E1|E1].
    { unfold handleSignalingMessage. rewrite E1. simpl.
      repeat case_match; try done.
      apply (proj1 (participant_muted_like _ _ _)). }
    destruct (decide (type message = "participant_video")) as [E2|E2].
    { unfold handleSignalingMessage. rewrite E2. simpl.
      repeat case_match; try done.
      apply (proj2 (participant_muted_like _ _ _)). }
    unfold userIds. by rewrite handleSignalingMessage_callState.
  - apply handleSignalingMessage_media.
Qed.

Lemma only_offers_create_connections_witness :
  type (iceMessage "u7" "c1") <> "offer" /\
  peerConnections (this (fst (handleSignalingMessage (iceMessage "u7" "c1")
                                 inCall))) = ∅.
Proof.
  assert (type (iceMessage "u7" "c1") <> "offer") as H by done.
  split; [exact H|].
  exact (proj1 (proj1 (only_offers_create_connections
    (iceMessage "u7" "c1") inCall) H)).
Defined.

(** **** Calls that fail to start *)

(** X24.  [initiateCall] resolves, with the call id of the backend, exactly
    when the media request, the REST call and the signaling connection all
    succeed.  When it rejects, nothing it did is undone: a refused media
    request leaves the state untouched, but after a failed REST call the
    stream just acquired stays held with its tracks live, and after a
    failed signaling connection the call state is in addition already
    active under the new call id and the new socket stays referenced. *)
Theorem initiateCall_failure_modes participants callType granted response opened w :
  let r := initiateCall participants callType granted response opened w in
  (forall call_id, snd r = Some call_id <->
     granted = true /\ response = Some call_id /\ opened = true) /\
  (granted = false -> fst r = w) /\
  (granted = true ->
     localStream (this (fst r)) = Some (length (streams w)) /\
     streams (fst r) =
       streams w ++ [getUserMedia (bool_decide (callType = video))]) /\
  (granted = true -> response = None ->
     sockets (fst r) = sockets w /\
     signalingSocket (this (fst r)) = signalingSocket (this w) /\
     CallState.isActive (callState (this (fst r))) =
       CallState.isActive (callState (this w)) /\
     CallState.callId (callState (this (fst r))) =
       CallState.callId (callState (this w))) /\
  (forall call_id, granted = true -> response = Some call_id ->
     opened = false ->
     CallState.isActive (callState (this (fst r))) = true /\
     CallState.callId (callState (this (fst r))) = Some call_id /\
     signalingSocket (this (fst r)) = Some (length (sockets w)) /\
     socketState (fst r) (length (sockets w)) = Some CONNECTING).
Proof.
  intros r. subst r. unfold initiateCall, getLocalStream, connectSignaling.
  destruct granted, response as [cid|], opened; simpl; conjs;
    try done; try (intros; split; intros; intuition congruence).
  intros c _ [= <-] _. conjs; try done.
  unfold socketState. simpl. rewrite lookup_app_r by done.
  by rewrite Nat.sub_diag.
Qed.

Lemma initiateCall_failure_modes_witness :
  snd (initiateCall ["u2"] video true None true initial) = None /\
  trackEnabled VideoKind
    (fst (initiateCall ["u2"] video true None true initial)) = Some true /\
  CallState.isActive (callState (this
    (fst (initiateCall ["u2"] video true None true initial)))) = false.
Proof.
  split; [reflexivity|]. split; [reflexivity|].
  rewrite (proj1 (proj2 (proj2 (proj1 (proj2 (proj2 (proj2
    (initiateCall_failure_modes ["u2"] video true None true initial))))
    eq_refl eq_refl)))).
  reflexivity.
Defined.

(** X25.  [joinCall] asks the backend first: when the backend refuses, no
    media is requested and the state is untouched; when the media request
    is then refused the state is untouched as well; only a failed
    signaling connection leaves the call active under the joined call id,
    with the stream held and the new socket referenced.
    [acceptIncomingCall] has, in every one of these cases, already
    overwritten the call type and [isVideoEnabled]. *)
Theorem joinCall_failure_modes callId callType joined granted opened w :
  let r := joinCall callId joined granted opened w in
  let a := acceptIncomingCall callId callType joined granted opened w in
  (snd r = Normal <-> joined = true /\ granted = true /\ opened = true) /\
  (joined = false \/ granted = false -> fst r = w) /\
  (joined = true -> granted = true ->
     CallState.isActive (callState (this (fst r))) = true /\
     CallState.callId (callState (this (fst r))) = Some callId /\
     CallState.isIncoming (callState (this (fst r))) = false /\
     localStream (this (fst r)) = Some (length (streams w)) /\
     signalingSocket (this (fst r)) = Some (length (sockets w)) /\
     socketState (fst r) (length (sockets w)) =
       Some (if opened then OPEN else CONNECTING)) /\
  snd a = snd r /\
  CallState.callType (callState (this (fst a))) = callType /\
  CallState.isVideoEnabled (callState (this (fst a))) =
    bool_decide (callType = video) /\
  (joined = true -> granted = true ->
     streams (fst a) = streams w ++ [getUserMedia (bool_decide (callType = video))]).
Proof.
  intros r a. subst r a.
  unfold acceptIncomingCall, joinCall, getLocalStream, connectSignaling.
  destruct joined, granted, opened; simpl; conjs; try done;
    try (split; intros; intuition congruence); try (intuition congruence);
    intros _ _; conjs; try done;
    unfold socketState; simpl; rewrite lookup_app_r by done;
    by rewrite Nat.sub_diag.
Qed.

Lemma joinCall_failure_modes_witness :
  fst (joinCall "call-7" false true true initial) = initial.
Proof.
  exact (proj1 (proj2 (joinCall_failure_modes "call-7" audio false true true
    initial)) (or_introl eq_refl)).
Defined.

(** **** Ending a call *)

Lemma service_eta (s : Service) :
  {| ws := ws s; signalingSocket := signalingSocket s;
     localStream := localStream s; peerConnections := peerConnections s;
     callState := callState s |} = s.
Proof. by destruct s. Qed.

Lemma cleanup_updateState f w :
  cleanup (updateState f w) = updateState f (cleanup w).
Proof.
  unfold cleanup, updateState, closeSocket. simpl.
  destruct (localStream (this w)); simpl;
    (destruct (ws (this w)) as [id|]; simpl; [|done]);
    repeat case_match; done.
Qed.

Lemma cleanup_fields w :
  ws (this (cleanup w)) = None /\
  localStream (this (cleanup w)) = None /\
  peerConnections (this (cleanup w)) = ∅ /\
  signalingSocket (this (cleanup w)) = signalingSocket (this w) /\
  callState (this (cleanup w)) = callState (this w).
Proof.
  unfold cleanup, closeSocket.
  destruct (localStream (this w)) eqn:Hl; simpl;
    (destruct (ws (this w)) as [id|] eqn:Hws; simpl; rewrite ?Hws, ?Hl;
     [|by conjs]);
    repeat case_match; by conjs.
Qed.

Lemma cleanup_done w :
  ws (this w) = None -> localStream (this w) = None ->
  peerConnections (this w) = ∅ -> cleanup w = w.
Proof.
  intros H1 H2 H3. unfold cleanup. rewrite H2. simpl. rewrite H1, H3.
  rewrite map_to_list_empty. simpl.
  destruct w as [[] ? ? ?]. simpl in *. by subst.
Qed.

Lemma cleanup_idemp w : cleanup (cleanup w) = cleanup w.
Proof.
  destruct (cleanup_fields w) as (H1 & H2 & H3 & _). by apply cleanup_done.
Qed.

(** X26.  Ending a call twice is the same as ending it once, with the REST
    call counted as successful if it succeeded either time: the second
    [endCall] finds nothing left to release.  [endCall] never forgets the
    call id (so a second [endCall] calls the backend again for the call
    that has ended), and it keeps [isMuted], [isVideoEnabled] and the call
    type as they were. *)
Theorem endCall_twice ended ended' w :
  endCall ended' (endCall ended w) = endCall (ended || ended') w /\
  CallState.callId (callState (this (endCall ended w))) =
    CallState.callId (callState (this w)) /\
  CallState.isMuted (callState (this (endCall ended w))) =
    CallState.isMuted (callState (this w)) /\
  CallState.isVideoEnabled (callState (this (endCall ended w))) =
    CallState.isVideoEnabled (callState (this w)) /\
  CallState.callType (callState (this (endCall ended w))) =
    CallState.callType (callState (this w)).
Proof.
  assert (forall e, CallState.callId (callState (this (endCall e w))) =
            CallState.callId (callState (this w))) as Hid.
  { intros e. unfold endCall.
    destruct (if truthy _ then _ else _); simpl;
      by rewrite (proj2 (proj2 (proj2 (proj2 (cleanup_fields w))))). }
  conjs; try apply Hid.
  - unfold endCall at 1. rewrite Hid. unfold endCall.
    destruct (truthy (CallState.callId (callState (this w))));
      destruct ended, ended'; simpl;
      rewrite ?cleanup_updateState, ?cleanup_idemp; done.
  - unfold endCall. destruct (if truthy _ then _ else _); simpl;
      by rewrite (proj2 (proj2 (proj2 (proj2 (cleanup_fields w))))).
  - unfold endCall. destruct (if truthy _ then _ else _); simpl;
      by rewrite (proj2 (proj2 (proj2 (proj2 (cleanup_fields w))))).
  - unfold endCall. destruct (if truthy _ then _ else _); simpl;
      by rewrite (proj2 (proj2 (proj2 (proj2 (cleanup_fields w))))).
Qed.

(** **** Sockets *)

Lemma socketChange_step w e : ws (this w) = None -> socketChange w e (step w e).
Proof.
  intros H. unfold socketChange. by_event e.
  - unfold initiateCall, getLocalStream, connectSignaling.
    destruct g, r, o; simpl; eauto 10.
  - unfold joinCall, getLocalStream, connectSignaling.
    destruct j, g, o; simpl; eauto 10.
  - left. unfold endCall, cleanup.
    destruct (if truthy _ then _ else _);
      destruct (localStream (this w)); simpl; rewrite H; done.
  - unfold acceptIncomingCall, joinCall, getLocalStream, connectSignaling.
    destruct j, g, o; simpl; eauto 10.
  - left. unfold declineIncomingCall. by destruct en.
  - left. unfold toggleMute. repeat case_match; try done.
    by rewrite sendSignalingMessage_no_ws.
  - left. unfold toggleVideo. repeat case_match; try done.
    by rewrite sendSignalingMessage_no_ws.
  - by left.
  - left. case_bool_decide; [|done]. destruct frame; [|done]. simpl.
    unfold handleSignalingMessage, handleOffer, handleAnswer,
      handleIceCandidate, enqueue, getOrCreatePeerConnection.
    repeat case_match; simplify_eq/=; done.
  - destruct (socketState w sock) as [[]|]; eauto 10.
  - left. repeat case_match; done.
  - left. unfold onicecandidate. repeat case_match; try done;
      by rewrite sendSignalingMessage_no_ws.
  - left. destruct (settle_alter pc b w) as (f & _ & [-> | [m ->]]); [done|].
    by rewrite sendSignalingMessage_no_ws.
Qed.

Lemma refersToNewest_step w e :
  ws (this w) = None -> refersToNewest w -> refersToNewest (step w e).
Proof.
  intros Hws Hw id.
  destruct (socketChange_step w e Hws)
    as [[-> ->]|[(sock & -> & _ & ->)|(i & _ & _ & ->)]].
  - apply Hw.
  - intros [= <-]. rewrite length_app. simpl. lia.
  - done.
Qed.

(** X27.  In every state the service can reach, no method and no handler
    of the service closes, alters or writes to a socket that exists: a
    socket stays exactly as it is, with nothing sent on it, until the
    browser delivers its own close event; this holds for the sockets of
    calls that have ended or have been superseded too.  [signalingSocket],
    when set, refers to the socket created last, and the close event of any
    socket, also of an older one, unsets it. *)
Theorem sockets_change_only_by_close_event es e id s :
  let w := run initial es in
  sockets w !! id = Some s ->
  sent s = [] /\
  (e <> ESignalingClose id -> sockets (step w e) !! id = Some s) /\
  (forall id', signalingSocket (this w) = Some id' ->
     S id' = length (sockets w)) /\
  (forall id' r, socketState w id' = Some r -> r <> CLOSED ->
     signalingSocket (this (step w (ESignalingClose id'))) = None).
Proof.
  intros w Hs. subst w.
  destruct (ws_never_assigned es) as [Hws Hsent]. conjs.
  - unfold allSent in Hsent.
    assert (sent s ∈ sent <$> sockets (run initial es)) as Hin.
    { apply list_elem_of_fmap_2. by eapply list_elem_of_lookup_2. }
    apply list_elem_of_lookup_1 in Hin as [i Hi].
    destruct (sent s) as [|m l] eqn:E; [done|].
    apply take_drop_middle in Hi. rewrite <- Hi in Hsent.
    rewrite concat_app in Hsent. simpl in Hsent.
    by apply app_eq_nil in Hsent as [_ ?].
  - intros He.
    destruct (socketChange_step (run initial es) e Hws)
      as [[-> _]|[(sock & -> & _)|(i & -> & -> & _)]].
    + done.
    + by apply lookup_app_l_Some.
    + rewrite list_lookup_alter_ne; [done|]. intros ->. done.
  - assert (forall w0, ws (this w0) = None -> refersToNewest w0 ->
              refersToNewest (run w0 es)) as Hrun.
    { clear. induction es as [|e0 es' IH]; intros w0 H0 Hn; [done|].
      change (run w0 (e0 :: es')) with (run (step w0 e0) es').
      apply IH; [|by apply refersToNewest_step].
      apply (proj1 (step_quietly w0 e0 H0)). }
    apply Hrun; [done|]. intros i Hi. done.
  - intros id' r Hr Hne. simpl. rewrite Hr. by destruct r.
Qed.

Lemma sockets_change_only_by_close_event_witness :
  let w := run initial
    [EInitiateCall ["u2"] audio true (Some "call-1") true;
     EInitiateCall ["u3"] audio true (Some "call-2") true] in
  sockets w !! 0%nat =
    Some {| url := signalingUrl "call-1"; readyState := OPEN; sent := [] |} /\
  sockets (step w (EEndCall true)) !! 0%nat =
    Some {| url := signalingUrl "call-1"; readyState := OPEN; sent := [] |}.
Proof.
  split; [reflexivity|].
  refine (proj1 (proj2 (sockets_change_only_by_close_event
    [EInitiateCall ["u2"] audio true (Some "call-1") true;
     EInitiateCall ["u3"] audio true (Some "call-2") true]
    (EEndCall true) 0 _ eq_refl)) _).
  done.
Defined.

(** **** Offers *)

Lemma run_wellKeyed_tidy es :
  wellKeyed (run initial es) /\ tidy (run initial es).
Proof.
  assert (forall w0, wellKeyed w0 -> tidy w0 ->
            wellKeyed (run w0 es) /\ tidy (run w0 es)) as Hrun.
  { induction es as [|e es IH]; intros w0 Hk Ht; [done|].
    apply (IH (step w0 e)); [by apply wellKeyed_step|by apply tidy_step]. }
  apply Hrun.
  - intros u i Hl. simpl in Hl. by rewrite lookup_empty in Hl.
  - intros i p Hl. done.
Qed.

Lemma getOrCreate_lookup u w :
  peerConnections (this (fst (getOrCreatePeerConnection u w))) !! u =
    Some (snd (getOrCreatePeerConnection u w)) /\
  exists l, connections (fst (getOrCreatePeerConnection u w)) =
              connections w ++ l.
Proof.
  unfold getOrCreatePeerConnection.
  destruct (peerConnections (this w) !! u) as [id|] eqn:Hl; simpl.
  - split; [done|]. exists []. by rewrite app_nil_r.
  - rewrite lookup_insert_eq. eauto.
Qed.

(** What the settling of an operation that the browser accepts does to
    its connection. *)
Lemma settle_accepted id b w pc op :
  connections w !! id = Some pc -> closed pc = false ->
  operations pc !! settled pc = Some op -> accepts b = true ->
  this (settle id b w) = this w /\
  connections (settle id b w) !! id = Some
    match op with
    | OpSetRemoteDescription d =>
        match sdpType d with
        | offer => push_operation OpCreateAnswer
                     (set_remoteDescription d (advance pc))
        | answer => set_remoteDescription d (advance pc)
        end
    | OpCreateAnswer =>
        push_operation
          (OpSetLocalDescription {| sdpType := answer; sdpText := answerSdp b |})
          (advance pc)
    | OpSetLocalDescription d => set_localDescription d (advance pc)
    | OpAddIceCandidate c =>
        match remoteDescription pc with
        | Some _ => push_candidate c (advance pc)
        | None => advance pc
        end
    end.
Proof.
  intros Hpc Hcl Hop Hb. split; [apply settle_this|].
  unfold settle. rewrite Hpc, Hcl, Hop, Hb.
  destruct op as [d| |d|c].
  - destruct (sdpType d); simpl.
    + unfold enqueue. simpl. rewrite list_lookup_alter_eq, Hpc. simpl.
      rewrite Hcl. simpl. by rewrite !list_lookup_alter_eq, Hpc.
    + by rewrite list_lookup_alter_eq, Hpc.
  - unfold enqueue. simpl. rewrite list_lookup_alter_eq, Hpc. simpl.
    rewrite Hcl. simpl. by rewrite !list_lookup_alter_eq, Hpc.
  - rewrite (proj2 (sendSignalingMessage_frame _ _)). simpl.
    by rewrite list_lookup_alter_eq, Hpc.
  - destruct (remoteDescription pc); simpl;
      by rewrite list_lookup_alter_eq, Hpc.
Qed.

Lemma settle_rejected id b w pc op :
  connections w !! id = Some pc -> closed pc = false ->
  operations pc !! settled pc = Some op -> accepts b = false ->
  settle id b w = set_connections (alter advance id (connections w)) w.
Proof.
  intros Hpc Hcl Hop Hb. unfold settle. rewrite Hpc, Hcl, Hop, Hb.
  destruct op; try done. by destruct (remoteDescription pc).
Qed.

(** X28.  In every state the service can reach, [handleOffer] leaves the
    user with a peer connection that is open and belongs to that user, the
    one the user had or a new one, and has called [setRemoteDescription]
    on it with the offer; nothing else about the connection has changed
    and the handler is suspended.  When that call is the only pending
    operation of the connection and the browser accepts the description,
    creates an answer and accepts it as local description, the connection
    ends up with the SDP of the offer as remote description and the
    created answer as local description, with its candidates and tracks as
    they were, and the user is ready for ICE candidates.  When the browser
    rejects the description nothing follows: the connection, also one that
    was just created, stays registered and open without the description. *)
Theorem offer_prepares_connection es userId sdp b1 b2 b3 :
  let w := run initial es in
  let r := handleOffer userId sdp w in
  let d := {| sdpType := offer; sdpText := sdp |} in
  exists id pc,
    snd r = Pending /\
    peerConnections (this (fst r)) !! userId = Some id /\
    connections (fst r) !! id = Some pc /\
    owner pc = userId /\ closed pc = false /\
    (forall id0, peerConnections (this w) !! userId = Some id0 -> id = id0) /\
    (forall pc0, connections w !! id = Some pc0 ->
       pc = push_operation (OpSetRemoteDescription d) pc0) /\
    (peerConnections (this w) !! userId = None ->
       id = length (connections w) /\
       operations pc = [OpSetRemoteDescription d] /\ settled pc = O /\
       remoteDescription pc = None /\ remoteCandidates pc = []) /\
    (S (settled pc) = length (operations pc) ->
     accepts b1 = true -> accepts b2 = true -> accepts b3 = true ->
     let w3 := run (fst r) [ESettled id b1; ESettled id b2; ESettled id b3] in
     ready w3 userId = true /\
     drained w3 id = true /\
     exists pc3, connections w3 !! id = Some pc3 /\
       remoteDescription pc3 = Some d /\
       localDescription pc3 =
         Some {| sdpType := answer; sdpText := answerSdp b2 |} /\
       remoteCandidates pc3 = remoteCandidates pc /\
       senders pc3 = senders pc /\
       closed pc3 = false) /\
    (S (settled pc) = length (operations pc) -> accepts b1 = false ->
     let w1 := step (fst r) (ESettled id b1) in
     w1 = set_connections (alter advance id (connections (fst r))) (fst r) /\
     peerConnections (this w1) !! userId = Some id /\
     connections w1 !! id = Some (advance pc) /\
     drained w1 id = true).
Proof.
  intros w r d. subst r.
  destruct (run_wellKeyed_tidy es) as [Hk Ht]. fold w in Hk, Ht.
  pose proof (wellKeyed_getOrCreate userId w Hk) as Hk1.
  pose proof (tidy_getOrCreate userId w Hk Ht) as Ht1.
  destruct (getOrCreate_lookup userId w) as [Hl1 [l Hc1]].
  assert (forall id0, peerConnections (this w) !! userId = Some id0 ->
            snd (getOrCreatePeerConnection userId w) = id0) as Hsame.
  { intros id0 H0. unfold getOrCreatePeerConnection. by rewrite H0. }
  assert (peerConnections (this w) !! userId = None ->
          snd (getOrCreatePeerConnection userId w) = length (connections w) /\
          exists pc0, connections (fst (getOrCreatePeerConnection userId w))
                        !! length (connections w) = Some pc0 /\
            operations pc0 = [] /\ settled pc0 = O /\
            remoteDescription pc0 = None /\ remoteCandidates pc0 = [])
    as Hnew.
  { intros H0. unfold getOrCreatePeerConnection. rewrite H0. simpl.
    split; [done|]. eexists. rewrite lookup_app_r by done.
    rewrite Nat.sub_diag. simpl. eauto. }
  unfold handleOffer.
  destruct (getOrCreatePeerConnection userId w) as [w1 id]. simpl in *.
  destruct (Hk1 _ _ Hl1) as [Hlt _].
  destruct (lookup_lt_is_Some_2 _ _ Hlt) as [pc1 Hpc1].
  destruct (proj2 (Ht1 _ _ Hpc1) _ Hl1) as [Hopen Hown].
  assert (forall pc0, connections w !! id = Some pc0 -> pc1 = pc0) as Hold.
  { intros pc0 H0. rewrite Hc1 in Hpc1.
    rewrite (lookup_app_l_Some _ _ _ _ H0) in Hpc1. congruence. }
  unfold enqueue. rewrite Hpc1, Hopen. cbn [fst snd].
  set (w2 := set_connections _ w1).
  set (pc := push_operation (OpSetRemoteDescription d) pc1).
  assert (connections w2 !! id = Some pc) as Hpc
    by (subst w2 pc; simpl; by rewrite list_lookup_alter_eq, Hpc1).
  exists id, pc.
  split; [done|]. split; [done|]. split; [done|]. split; [done|].
  split; [done|]. split; [done|].
  split; [intros pc0 H0; by rewrite <- (Hold pc0 H0)|].
  split.
  { intros H0. destruct (Hnew H0) as (-> & pc0 & Hpc0 & Ho & Hs & Hr & Hcs).
    assert (pc1 = pc0) as -> by congruence.
    subst pc. simpl. by rewrite Ho. }
  assert (S (settled pc) = length (operations pc) ->
          settled pc1 = length (operations pc1)) as Hlen.
  { subst pc. simpl. rewrite length_app. simpl. lia. }
  assert (S (settled pc) = length (operations pc) ->
          operations pc !! settled pc = Some (OpSetRemoteDescription d))
    as Hhead.
  { intros Hs. subst pc. simpl. apply list_lookup_middle. auto. }
  split.
  - intros Hs Hb1 Hb2 Hb3.
    destruct (settle_accepted id b1 w2 pc _ Hpc Hopen (Hhead Hs) Hb1)
      as [Ht3 Hp3].
    cbn [sdpType d] in Hp3. set (wa := settle id b1 w2) in *.
    set (pa := push_operation OpCreateAnswer _) in Hp3.
    assert (operations pa !! settled pa = Some OpCreateAnswer) as Hopa.
    { subst pa pc. simpl. apply list_lookup_middle.
      rewrite length_app, (Hlen Hs). simpl. lia. }
    destruct (settle_accepted id b2 wa pa _ Hp3 Hopen Hopa Hb2) as [Ht4 Hp4].
    set (wb := settle id b2 wa) in *.
    set (pb := push_operation _ (advance pa)) in Hp4.
    assert (operations pb !! settled pb = Some (OpSetLocalDescription
              {| sdpType := answer; sdpText := answerSdp b2 |})) as Hopb.
    { subst pb pa pc. simpl. apply list_lookup_middle.
      rewrite !length_app, (Hlen Hs). simpl. lia. }
    destruct (settle_accepted id b3 wb pb _ Hp4 Hopen Hopb Hb3) as [Ht5 Hp5].
    change (settle id b3 (settle id b2 (settle id b1 w2)))
      with (settle id b3 wb).
    unfold ready, drained. rewrite Ht5, Ht4, Ht3.
    change (this w2) with (this w1). rewrite Hl1, Hp5. simpl.
    rewrite ?Hopen. simpl.
    split; [done|]. split; [|by eauto 10].
    apply bool_decide_eq_true. rewrite !length_app, (Hlen Hs). simpl. lia.
  - intros Hs Hb1.
    change (step (fst (w2, Pending)) (ESettled id b1)) with (settle id b1 w2).
    rewrite (settle_rejected id b1 w2 pc _ Hpc Hopen (Hhead Hs) Hb1).
    split; [done|]. unfold drained.
    change (this (set_connections (alter advance id (connections w2)) w2))
      with (this w1).
    change (connections
              (set_connections (alter advance id (connections w2)) w2))
      with (alter advance id (connections w2)).
    rewrite list_lookup_alter_eq, Hpc. simpl.
    split; [done|]. split; [done|].
    apply bool_decide_eq_true.
    rewrite length_app, (Hlen Hs). simpl. lia.
Qed.

Lemma offer_prepares_connection_witness :
  let w := fst (handleOffer "u2" "v=0 offer"
                  (run initial [EInitiateCall ["u2"] audio true (Some "call-1") true])) in
  ready (run w [ESettled 0 browser; ESettled 0 browser; ESettled 0 browser])
    "u2" = true.
Proof.
  destruct (offer_prepares_connection
    [EInitiateCall ["u2"] audio true (Some "call-1") true]
    "u2" "v=0 offer" browser browser browser)
    as (id & pc & _ & _ & _ & _ & _ & _ & _ & Hnew & H & _).
  destruct (Hnew eq_refl) as (-> & Hops & Hs & _).
  refine (proj1 (H _ eq_refl eq_refl eq_refl)).
  rewrite Hops, Hs. reflexivity.
Defined.

End WebRTCServiceExtras.
